(** * Motor information-model simulation: control and simulation engine

    Shallow embedding of [Info_model_plant_with_motors_webapp_v2.py]:
    the reference-signal generator, the DC and AC motors with their PI
    controllers and first-order plant updates, the
    machine / production line / factory hierarchy that appends to the
    shared [motor_logs] dictionary, and the display code that draws the
    two figures and fills the status table from that dictionary.

    Conventions of the embedding.
    - Python [int] is [Z]; [//] and [%] are [Z.div] and [Z.modulo]
      (both round towards minus infinity, as Python does).
    - Python [float] (and [numpy.float64]) is a rational [Q], and every
      arithmetic operation on floats returns the exact result rounded
      by a function [rnd], a parameter of the development: the
      statements that depend on rounding assume of it only the laws of
      [RoundingLaws]. [binary64], rounding to nearest with ties to even
      onto the IEEE-754 binary64 format, obeys them, and so does
      arithmetic without rounding. Overflow is not modelled: there is
      no NaN and no infinity. An [int] met by float arithmetic converts
      exactly, and an attribute that holds the [int] 0 until its first
      float assignment is the rational 0.
    - Mutable objects owned by exactly one parent (motors, machines,
      lines) are records rebuilt by their methods; the shared
      [motor_logs] dictionary and the global random generator live in a
      store threaded by a state-and-exception monad.
    - [hash], a Python built-in, is a parameter of the development. *)

From Stdlib Require Import ZArith QArith Qround Qminmax Qpower Lia Lqa Ascii.
From stdpp Require Import base tactics option list strings pretty gmap
  sorting.

Local Open Scope Z_scope.

(** ** Python values, exceptions and built-ins *)

Module Py.

(** The values stored in the dictionaries of the program. *)
Inductive value : Type :=
| Str (s : string)
| Int (i : Z)
| Float (x : Q).

(** Exceptions the modelled statements can raise. *)
Inductive exn : Set :=
| ZeroDivisionError
| IndexError
| KeyError (key : string).

Inductive outcome (A : Type) : Type :=
| Ok (a : A)
| Raise (e : exn).
Arguments Ok {A} a.
Arguments Raise {A} e.

#[global] Instance outcome_ret : MRet outcome := fun A a => Ok a.
#[global] Instance outcome_bind : MBind outcome := fun A B k m =>
  match m with
  | Ok a => k a
  | Raise e => Raise e
  end.

(** [a // b] on integers. *)
Definition floordiv (a b : Z) : outcome Z :=
  if decide (b = 0) then Raise ZeroDivisionError else Ok (a / b).

(** [a % b] on integers. *)
Definition modulo (a b : Z) : outcome Z :=
  if decide (b = 0) then Raise ZeroDivisionError else Ok (a mod b).

(** [l[i]] on a list: a negative index counts from the end. *)
Definition list_getitem {A} (l : list A) (i : Z) : outcome A :=
  let n := Z.of_nat (length l) in
  let j := if decide (i < 0) then i + n else i in
  if decide (0 <= j < n) then
    match l !! Z.to_nat j with
    | Some x => Ok x
    | None => Raise IndexError
    end
  else Raise IndexError.

(** [d[k]] on a dictionary with string keys. *)
Definition dict_getitem {A} (d : gmap string A) (k : string) : outcome A :=
  match d !! k with
  | Some x => Ok x
  | None => Raise (KeyError k)
  end.

(** [range(start, stop)] and [range(stop)]. *)
Definition range2 (start stop : Z) : list Z := seqZ start (stop - start).
Definition range (stop : Z) : list Z := range2 0 stop.

(** [str(i)] on an integer, which is what [f"{i}"] inserts. *)
Definition str (i : Z) : string := pretty i.

(** Rounding of a rational to the float format. *)
Class Rounding : Type := rnd : Q -> Q.

(** A float literal, and the four operations on floats. *)
Definition float `{Rounding} (x : Q) : Q := rnd x.
Definition fadd `{Rounding} (x y : Q) : Q := rnd (x + y)%Q.
Definition fsub `{Rounding} (x y : Q) : Q := rnd (x - y)%Q.
Definition fmul `{Rounding} (x y : Q) : Q := rnd (x * y)%Q.
Definition fdiv `{Rounding} (x y : Q) : Q := rnd (x / y)%Q.

(** What is assumed of the rounding where a statement needs it: it is
    monotone, it leaves the numbers of the binary64 format alone, it
    rounds to a number of the format, and it never moves a number
    further than to twice its value (a rounding to nearest does not,
    zero being in the format). *)
Record RoundingLaws `{Rounding} : Prop := {
  rnd_monotone : forall x y : Q, (x <= y)%Q -> (rnd x <= rnd y)%Q;
  rnd_representable : forall m e : Z,
    Z.abs m < 2 ^ 53 -> -1074 <= e <= 971 ->
    (rnd (inject_Z m * 2 ^ e) == inject_Z m * 2 ^ e)%Q;
  rnd_idempotent : forall x : Q, (rnd (rnd x) == rnd x)%Q;
  rnd_upper : forall x : Q, (0 <= x)%Q -> (rnd x <= 2 * x)%Q;
  rnd_lower : forall x : Q, (x <= 0)%Q -> (2 * x <= rnd x)%Q
}.

(** A rational that is a number of the format. *)
Definition is_float `{Rounding} (x : Q) : Prop := (rnd x == x)%Q.

(** The integer nearest to [x], a tie going to the even neighbour. *)
Definition round_half_even (x : Q) : Z :=
  let f := Qfloor x in
  match (x - inject_Z f ?= 1 # 2)%Q with
  | Lt => f
  | Gt => f + 1
  | Eq => if Z.even f then f else f + 1
  end.

(** Arithmetic without rounding error. *)
Definition exact_arithmetic : Rounding := fun x => x.

(** Rounding to nearest, ties to even, onto the binary64 format (53
    significant bits, least exponent -1074, no largest exponent).
    [binade x] is the [b] with [2 ^ b <= x < 2 ^ (b + 1)], for a
    positive [x]; the numbers of the format next to [x] are
    [2 ^ ulp_exponent x] apart. *)
Definition binade (x : Q) : Z :=
  let k := Z.log2 (Qnum x) - Z.log2 (Zpos (Qden x)) in
  if Qle_bool (2 ^ k) x then k else k - 1.
Definition ulp_exponent (x : Q) : Z := Z.max (-1074) (binade x - 52).
Definition round_magnitude (x : Q) : Q :=
  let u := ulp_exponent x in
  (inject_Z (round_half_even (x / 2 ^ u)) * 2 ^ u)%Q.
Definition binary64 : Rounding := fun x =>
  if Qle_bool 0 x then round_magnitude x else (- round_magnitude (- x))%Q.

(** [round(x, ndigits)] on a float: the nearest multiple of
    [10 ** -ndigits], a tie going to the even neighbour, as a float. *)
Definition round `{Rounding} (x : Q) (ndigits : Z) : Q :=
  rnd (inject_Z (round_half_even (x * 10 ^ ndigits)) / 10 ^ ndigits)%Q.

(** [numpy.clip(a, a_min, a_max)], that is
    [minimum(maximum(a, a_min), a_max)]. *)
Definition clip (a a_min a_max : Q) : Q := Qmin (Qmax a a_min) a_max.

End Py.

Import Py.

(** The float operations, written with the circled signs usual for
    them. *)
Infix "⊕" := fadd (at level 50, left associativity).
Infix "⊖" := fsub (at level 50, left associativity).
Infix "⊗" := fmul (at level 40, left associativity).
Infix "⊘" := fdiv (at level 40, left associativity).

(** ** The store: the random generator and the shared log

    [random_state k] is the number the [k]-th coming call of
    [random.random()] returns; [motor_logs] is the dictionary created by
    the driver and handed to every [update_machines] call, which mutates
    it in place. *)

Record Store : Type := {
  random_state : nat -> Q;
  motor_logs : gmap string (gmap string (list value))
}.

Definition set_motor_logs (logs : gmap string (gmap string (list value)))
    (st : Store) : Store :=
  {| random_state := random_state st; motor_logs := logs |}.

Definition Sim (A : Type) : Type := Store -> outcome (A * Store).

#[global] Instance Sim_ret : MRet Sim := fun A a st => Ok (a, st).
#[global] Instance Sim_bind : MBind Sim := fun A B k m st =>
  match m st with
  | Ok (a, st') => k a st'
  | Raise e => Raise e
  end.

Definition lift {A} (m : outcome A) : Sim A := fun st =>
  match m with
  | Ok a => Ok (a, st)
  | Raise e => Raise e
  end.

(** [for x in l: body(x)], where the body mutates the object [x]. *)
Fixpoint for_each {A} (body : A -> Sim A) (l : list A) : Sim (list A) :=
  match l with
  | [] => mret []
  | x :: l =>
      x' ← body x;
      l' ← for_each body l;
      mret (x' :: l')
  end.

(** [for i in l: body(i)], where the body mutates an object in scope. *)
Fixpoint for_range {S} (body : Z -> S -> Sim S) (l : list Z) (s : S) : Sim S :=
  match l with
  | [] => mret s
  | i :: l =>
      s' ← body i s;
      for_range body l s'
  end.

(** The states an object goes through under a sequence of calls. *)
Fixpoint run_steps {S I} (step : S -> I -> Sim S) (inputs : list I) (s : S)
    : Sim (list S) :=
  match inputs with
  | [] => mret []
  | i :: inputs =>
      s' ← step s i;
      rest ← run_steps step inputs s';
      mret (s' :: rest)
  end.

(** [random.random()] returns numbers in [[0, 1)]. *)
Definition random_in_unit_interval (st : Store) : Prop :=
  forall k : nat, (0 <= random_state st k)%Q /\ (random_state st k < 1)%Q.

(** A sample string hash and a sample random sequence, to run the
    definitions on concrete inputs. *)
Fixpoint sample_hash_from (h : Z) (s : string) : Z :=
  match s with
  | EmptyString => h - 2 ^ 60
  | String c s =>
      sample_hash_from ((31 * h + Z.of_nat (Ascii.nat_of_ascii c)) mod 2 ^ 61) s
  end.
Definition sample_hash (s : string) : Z := sample_hash_from 7 s.
Definition sample_random (k : nat) : Q :=
  ((1 # 4) + (1 # 8) * inject_Z (Z.of_nat k mod 5))%Q.

(** ** The [random] module *)

Definition random_random : Sim Q := fun st =>
  Ok (random_state st 0%nat,
      {| random_state := fun k => random_state st (S k);
         motor_logs := motor_logs st |}).

(** [random.uniform(a, b)] is [a + (b - a) * random()]. *)
Definition uniform `{Rounding} (a b : Q) : Sim Q :=
  u ← random_random;
  mret (a ⊕ (b ⊖ a) ⊗ u).

(** The store once a plant update has made its two draws. *)
Definition after_two_draws (st : Store) : Store :=
  {| random_state := fun k => random_state st (S (S k));
     motor_logs := motor_logs st |}.

Local Open Scope Q_scope.

(** ** Base motor class *)

Record Motor : Type := {
  motor_id : string;
  voltage : Q;
  current : Q;
  speed : Q;
  torque : Q;
  efficiency : Q;
  temperature : Q;
  operating_hours : Z
}.

Definition Motor_init `{Rounding} (motor_id : string) : Motor :=
  {| motor_id := motor_id;
     voltage := 0;
     current := 0;
     speed := 0;
     torque := 0;
     efficiency := float 92.0;
     temperature := float 25.0;
     operating_hours := 0 |}.

(** Attribute assignments [self.f = v]. *)
Definition set_voltage (v : Q) (m : Motor) : Motor :=
  {| motor_id := motor_id m; voltage := v; current := current m;
     speed := speed m; torque := torque m; efficiency := efficiency m;
     temperature := temperature m; operating_hours := operating_hours m |}.
Definition set_current (v : Q) (m : Motor) : Motor :=
  {| motor_id := motor_id m; voltage := voltage m; current := v;
     speed := speed m; torque := torque m; efficiency := efficiency m;
     temperature := temperature m; operating_hours := operating_hours m |}.
Definition set_speed (v : Q) (m : Motor) : Motor :=
  {| motor_id := motor_id m; voltage := voltage m; current := current m;
     speed := v; torque := torque m; efficiency := efficiency m;
     temperature := temperature m; operating_hours := operating_hours m |}.
Definition set_torque (v : Q) (m : Motor) : Motor :=
  {| motor_id := motor_id m; voltage := voltage m; current := current m;
     speed := speed m; torque := v; efficiency := efficiency m;
     temperature := temperature m; operating_hours := operating_hours m |}.
Definition set_efficiency (v : Q) (m : Motor) : Motor :=
  {| motor_id := motor_id m; voltage := voltage m; current := current m;
     speed := speed m; torque := torque m; efficiency := v;
     temperature := temperature m; operating_hours := operating_hours m |}.
Definition set_temperature (v : Q) (m : Motor) : Motor :=
  {| motor_id := motor_id m; voltage := voltage m; current := current m;
     speed := speed m; torque := torque m; efficiency := efficiency m;
     temperature := v; operating_hours := operating_hours m |}.
Definition set_operating_hours (v : Z) (m : Motor) : Motor :=
  {| motor_id := motor_id m; voltage := voltage m; current := current m;
     speed := speed m; torque := torque m; efficiency := efficiency m;
     temperature := temperature m; operating_hours := v |}.

Definition monitor_status `{Rounding} (self : Motor) : gmap string value :=
  list_to_map
    [ ("Motor ID", Str (motor_id self));
      ("Voltage (V)", Float (voltage self));
      ("Current (A)", Float (round (current self) 5));
      ("Speed (RPM)", Float (round (speed self) 10));
      ("Torque (Nm)", Float (round (torque self) 10));
      ("Efficiency (%)", Float (round (efficiency self) 2));
      ("Temperature (C)", Float (round (temperature self) 2));
      ("Operating Hours", Int (operating_hours self)) ].

(** A call of one of the two methods a motor subclass defines. *)
Inductive method_call : Type :=
| Control (target_speed : Q)
| Update_motor (control_signal : Q).

(** ** DC motor: a [Motor] with a PI speed controller *)

Module DCMotor.

Record t : Type := {
  base : Motor;
  controller_gain : Q;
  integral_gain : Q;
  integral_error : Q
}.

Definition init `{Rounding} (motor_id : string) : t :=
  {| base := Motor_init motor_id;
     controller_gain := float 0.5;
     integral_gain := float 0.01;
     integral_error := float 0.0 |}.

Definition set_base (f : Motor -> Motor) (self : t) : t :=
  {| base := f (base self);
     controller_gain := controller_gain self;
     integral_gain := integral_gain self;
     integral_error := integral_error self |}.
Definition set_integral_error (v : Q) (self : t) : t :=
  {| base := base self;
     controller_gain := controller_gain self;
     integral_gain := integral_gain self;
     integral_error := v |}.

(** Returns the control signal and the mutated motor. *)
Definition control `{Rounding} (self : t) (target_speed : Q) : Q * t :=
  let error := target_speed ⊖ speed (base self) in
  let self := set_integral_error (integral_error self ⊕ error) self in
  let control_signal :=
    controller_gain self ⊗ error ⊕ integral_gain self ⊗ integral_error self in
  let control_signal := clip control_signal 0 1 in
  let self := set_base (set_voltage (control_signal ⊗ 480)) self in
  (control_signal, self).

Definition update_motor `{Rounding} (self : t) (control_signal : Q) : Sim t :=
  let max_voltage := 480 in
  let applied_voltage := control_signal ⊗ max_voltage in
  let gain := float 3.125 in
  let time_constant := 10 in
  let self :=
    set_base (set_speed (speed (base self)
      ⊕ (applied_voltage ⊗ gain ⊖ speed (base self)) ⊘ time_constant)) self in
  let self := set_base (set_current (control_signal ⊗ 10)) self in
  let self := set_base (set_torque (current (base self) ⊗ float 0.5)) self in
  jitter ← uniform (- float 0.05) (float 0.05);
  let self :=
    set_base (set_temperature (temperature (base self)
      ⊕ (control_signal ⊗ float 0.1 ⊕ jitter))) self in
  wear ← uniform 0 (float 0.001);
  let self := set_base (set_efficiency (efficiency (base self) ⊖ wear)) self in
  let self :=
    set_base (set_operating_hours (operating_hours (base self) + 1)%Z) self in
  mret self.

(** One control-then-update cycle, the two calls [update_machines]
    makes on its DC motor. *)
Definition control_then_update `{Rounding} (self : t) (target_speed : Q)
    : Sim t :=
  let '(control_signal, self) := control self target_speed in
  update_motor self control_signal.

(** A call of either method on the motor. *)
Definition invoke `{Rounding} (self : t) (call : method_call) : Sim t :=
  match call with
  | Control target_speed => mret (snd (control self target_speed))
  | Update_motor control_signal => update_motor self control_signal
  end.

End DCMotor.

(** ** AC motor: a [Motor] with a PI controller on the supply frequency *)

Module ACMotor.

Record t : Type := {
  base : Motor;
  base_frequency : Q;
  controller_gain : Q;
  integral_gain : Q;
  integral_error : Q;
  frequency : Q
}.

Definition init `{Rounding} (motor_id : string) : t :=
  let base_frequency := 50 in
  {| base := Motor_init motor_id;
     base_frequency := base_frequency;
     controller_gain := float 0.02;
     integral_gain := float 0.005;
     integral_error := float 0.0;
     frequency := base_frequency |}.

Definition set_base (f : Motor -> Motor) (self : t) : t :=
  {| base := f (base self);
     base_frequency := base_frequency self;
     controller_gain := controller_gain self;
     integral_gain := integral_gain self;
     integral_error := integral_error self;
     frequency := frequency self |}.
Definition set_integral_error (v : Q) (self : t) : t :=
  {| base := base self;
     base_frequency := base_frequency self;
     controller_gain := controller_gain self;
     integral_gain := integral_gain self;
     integral_error := v;
     frequency := frequency self |}.
Definition set_frequency (v : Q) (self : t) : t :=
  {| base := base self;
     base_frequency := base_frequency self;
     controller_gain := controller_gain self;
     integral_gain := integral_gain self;
     integral_error := integral_error self;
     frequency := v |}.

(** Returns the control signal and the mutated motor. *)
Definition control `{Rounding} (self : t) (target_speed : Q) : Q * t :=
  let error := target_speed ⊖ speed (base self) in
  let self := set_integral_error (integral_error self ⊕ error) self in
  let new_frequency :=
    base_frequency self ⊕ controller_gain self ⊗ error
    ⊕ integral_gain self ⊗ integral_error self in
  let new_frequency := clip new_frequency 40 60 in
  let self := set_frequency new_frequency self in
  let control_signal := new_frequency ⊘ 60 in
  (control_signal, self).

(** The argument [control_signal] is not read by the body. *)
Definition update_motor `{Rounding} (self : t) (control_signal : Q) : Sim t :=
  let gain_ac := 30 in
  let time_constant := 10 in
  let self :=
    set_base (set_speed (speed (base self)
      ⊕ (frequency self ⊗ gain_ac ⊖ speed (base self)) ⊘ time_constant))
      self in
  let self := set_base (set_current (frequency self ⊘ 60 ⊗ 10)) self in
  let self := set_base (set_torque (current (base self) ⊗ float 0.5)) self in
  jitter ← uniform (- float 0.05) (float 0.05);
  let self :=
    set_base (set_temperature (temperature (base self)
      ⊕ (frequency self ⊘ 60 ⊗ float 0.1 ⊕ jitter))) self in
  wear ← uniform 0 (float 0.001);
  let self := set_base (set_efficiency (efficiency (base self) ⊖ wear)) self in
  let self :=
    set_base (set_operating_hours (operating_hours (base self) + 1)%Z) self in
  mret self.

(** One control-then-update cycle, the two calls [update_machines]
    makes on its AC motor. *)
Definition control_then_update `{Rounding} (self : t) (target_speed : Q)
    : Sim t :=
  let '(control_signal, self) := control self target_speed in
  update_motor self control_signal.

(** A call of either method on the motor. *)
Definition invoke `{Rounding} (self : t) (call : method_call) : Sim t :=
  match call with
  | Control target_speed => mret (snd (control self target_speed))
  | Update_motor control_signal => update_motor self control_signal
  end.

End ACMotor.

Local Open Scope Z_scope.

Section Engine.

(** The rounding of float arithmetic. *)
Context {R : Rounding}.

(** The built-in [hash] on strings: any function into the integers. *)
Variable hash : string -> Z.

(** ** Reference signal generator *)

Definition get_speed_reference
    (cycle : Z) (motor_id : string) (cycle_interval : Z) : outcome Z :=
  let base := Z.abs (hash motor_id) mod 200 + 1000 in
  let levels := [base; base + 100; base + 200; base + 300] in
  q ← floordiv cycle cycle_interval;
  index ← modulo q 4;
  list_getitem levels index.

(** The default value of the keyword argument [cycle_interval]. *)
Definition default_cycle_interval : Z := 50.

(** ** Operations on the shared log dictionary *)

(** [motor_id in motor_logs] *)
Definition logs_contains (motor_id : string) : Sim bool := fun st =>
  Ok (bool_decide (is_Some (motor_logs st !! motor_id)), st).

(** [motor_logs[motor_id] = entry] *)
Definition logs_setitem (motor_id : string) (entry : gmap string (list value))
    : Sim unit := fun st =>
  Ok (tt, set_motor_logs (<[motor_id := entry]> (motor_logs st)) st).

(** [motor_logs[motor_id][key].append(arg)]: the list is looked up
    first, then the argument is evaluated, then the list is extended in
    place. *)
Definition logs_append (motor_id key : string) (arg : outcome value)
    : Sim unit := fun st =>
  match dict_getitem (motor_logs st) motor_id with
  | Raise e => Raise e
  | Ok entry =>
      match dict_getitem entry key with
      | Raise e => Raise e
      | Ok series =>
          match arg with
          | Raise e => Raise e
          | Ok v =>
              Ok (tt, set_motor_logs
                        (<[motor_id := <[key := series ++ [v]]> entry]>
                           (motor_logs st)) st)
          end
      end
  end.

(** The dictionary literal a motor's log entry starts from. *)
Definition new_log_entry : gmap string (list value) :=
  list_to_map
    [ ("cycle", []); ("speed", []); ("temperature", []);
      ("efficiency", []); ("current", []); ("torque", []);
      ("reference", []) ].

(** ** Machine *)

Record Machine : Type := {
  machine_id : string;
  dc_motor : DCMotor.t;
  ac_motor : ACMotor.t;
  status : string
}.

Definition Machine_init (machine_id : string) : Machine :=
  {| machine_id := machine_id;
     dc_motor := DCMotor.init (machine_id +:+ "_DC");
     ac_motor := ACMotor.init (machine_id +:+ "_AC");
     status := "Running" |}.

Definition set_dc_motor (m : DCMotor.t) (self : Machine) : Machine :=
  {| machine_id := machine_id self; dc_motor := m;
     ac_motor := ac_motor self; status := status self |}.
Definition set_ac_motor (m : ACMotor.t) (self : Machine) : Machine :=
  {| machine_id := machine_id self; dc_motor := dc_motor self;
     ac_motor := m; status := status self |}.

(** Returns the message and the mutated machine; the dictionary
    argument [motor_logs] of the source is the one in the store. *)
Definition update_machines (self : Machine) (cycle : Z)
    : Sim (string * Machine) :=
  target_speed_dc ← lift (get_speed_reference cycle
    (motor_id (DCMotor.base (dc_motor self))) default_cycle_interval);
  target_speed_ac ← lift (get_speed_reference cycle
    (motor_id (ACMotor.base (ac_motor self))) default_cycle_interval);
  (* DC motor *)
  let '(dc_control_signal, dc) :=
    DCMotor.control (dc_motor self) (inject_Z target_speed_dc) in
  dc ← DCMotor.update_motor dc dc_control_signal;
  let self := set_dc_motor dc self in
  let status_dc := monitor_status (DCMotor.base (dc_motor self)) in
  let dc_id := motor_id (DCMotor.base (dc_motor self)) in
  present ← logs_contains dc_id;
  (if present : bool then mret tt else logs_setitem dc_id new_log_entry);;
  logs_append dc_id "cycle" (Ok (Int cycle));;
  logs_append dc_id "speed" (dict_getitem status_dc "Speed (RPM)");;
  logs_append dc_id "temperature" (dict_getitem status_dc "Temperature (C)");;
  logs_append dc_id "efficiency" (dict_getitem status_dc "Efficiency (%)");;
  logs_append dc_id "current" (dict_getitem status_dc "Current (A)");;
  logs_append dc_id "torque" (dict_getitem status_dc "Torque (Nm)");;
  logs_append dc_id "reference" (Ok (Int target_speed_dc));;
  (* AC motor *)
  let '(ac_control_signal, ac) :=
    ACMotor.control (ac_motor self) (inject_Z target_speed_ac) in
  ac ← ACMotor.update_motor ac ac_control_signal;
  let self := set_ac_motor ac self in
  let status_ac := monitor_status (ACMotor.base (ac_motor self)) in
  let ac_id := motor_id (ACMotor.base (ac_motor self)) in
  present ← logs_contains ac_id;
  (if present : bool then mret tt else logs_setitem ac_id new_log_entry);;
  logs_append ac_id "cycle" (Ok (Int cycle));;
  logs_append ac_id "speed" (dict_getitem status_ac "Speed (RPM)");;
  logs_append ac_id "temperature" (dict_getitem status_ac "Temperature (C)");;
  logs_append ac_id "efficiency" (dict_getitem status_ac "Efficiency (%)");;
  logs_append ac_id "current" (dict_getitem status_ac "Current (A)");;
  logs_append ac_id "torque" (dict_getitem status_ac "Torque (Nm)");;
  logs_append ac_id "reference" (Ok (Int target_speed_ac));;
  mret ("Machine " +:+ machine_id self +:+ " updated.", self).

(** ** Production line *)

Record ProductionLine : Type := {
  line_id : string;
  machines : list Machine
}.

Definition ProductionLine_init (line_id : string) (num_machines : Z)
    : ProductionLine :=
  {| line_id := line_id;
     machines :=
       (fun i => Machine_init (line_id +:+ "_M" +:+ str i))
         <$> range num_machines |}.

Definition update_production_line (self : ProductionLine) (cycle : Z)
    : Sim ProductionLine :=
  machines' ← for_each
    (fun machine => r ← update_machines machine cycle; mret (snd r))
    (machines self);
  mret {| line_id := line_id self; machines := machines' |}.

(** ** Factory *)

Record Factory : Type := {
  factory_name : string;
  production_lines : list ProductionLine
}.

Definition Factory_init (factory_name : string)
    (num_lines machines_per_line : Z) : Factory :=
  {| factory_name := factory_name;
     production_lines :=
       (fun i => ProductionLine_init ("Line_" +:+ str (i + 1)) machines_per_line)
         <$> range num_lines |}.

(** ** The simulation driver

    The body of the "Start Simulation" branch of the script. The
    three literals of the source (2 lines, 2 machines per line, 101
    cycles) are parameters here; the calls that draw figures, fill the
    table and sleep read the log but change nothing, and are left out. *)
Definition simulation (num_lines machines_per_line total_cycles : Z)
    : Sim Factory :=
  let factory :=
    Factory_init "Smart Information Model Factory"
      num_lines machines_per_line in
  (fun st => Ok (tt, set_motor_logs ∅ st));;
  for_range
    (fun cycle factory =>
       lines ← for_each (fun line => update_production_line line cycle)
                 (production_lines factory);
       mret {| factory_name := factory_name factory;
               production_lines := lines |})
    (range2 1 (total_cycles + 1)) factory.

End Engine.

(** ** Observations on the hierarchy and on the log *)

(** The identities of the motors, in the order they are stepped. *)
Definition machine_motor_ids (m : Machine) : list string :=
  [ motor_id (DCMotor.base (dc_motor m));
    motor_id (ACMotor.base (ac_motor m)) ].
Definition line_motor_ids (l : ProductionLine) : list string :=
  machines l ≫= machine_motor_ids.
Definition factory_motor_ids (f : Factory) : list string :=
  production_lines f ≫= line_motor_ids.

(** The identity [Factory] gives the motor of kind [suffix] ("_DC" or
    "_AC") of machine [j] of the line built at index [i]. *)
Definition motor_name (i j : Z) (suffix : string) : string :=
  (("Line_" +:+ str (i + 1)) +:+ "_M" +:+ str j) +:+ suffix.

(** Whether the character [c] occurs in [s]. *)
Fixpoint has_char (c : Ascii.ascii) (s : string) : bool :=
  match s with
  | EmptyString => false
  | String c' s' => if decide (c = c') then true else has_char c s'
  end.

(** The keys of the seven parallel sequences of a log entry. *)
Definition log_keys : list string :=
  [ "cycle"; "speed"; "temperature"; "efficiency"; "current"; "torque";
    "reference" ].

(** A log entry that holds exactly the seven sequences, each of length [n]. *)
Definition entry_length (n : nat) (entry : gmap string (list value)) : Prop :=
  dom entry = list_to_set log_keys
  /\ forall key series, entry !! key = Some series -> length series = n.

(** [shape] gives, for each identity in the log, the common length of
    its seven sequences. *)
Definition logs_shape (logs : gmap string (gmap string (list value)))
    (shape : gmap string nat) : Prop :=
  forall id : string,
    match logs !! id, shape !! id with
    | Some entry, Some n => entry_length n entry
    | None, None => True
    | _, _ => False
    end.

(** What the eight statements that log one motor do to the dictionary:
    the entry of [id], created from the literal when absent, gets one
    more element in each of its seven sequences. *)
Definition log_sample (id : string) (v1 v2 v3 v4 v5 v6 v7 : value)
    (logs : gmap string (gmap string (list value)))
    : gmap string (gmap string (list value)) :=
  let entry := default new_log_entry (logs !! id) in
  let series key := default [] (entry !! key) in
  <[id :=
     <["reference" := series "reference" ++ [v7]]>
       (<["torque" := series "torque" ++ [v6]]>
          (<["current" := series "current" ++ [v5]]>
             (<["efficiency" := series "efficiency" ++ [v4]]>
                (<["temperature" := series "temperature" ++ [v3]]>
                   (<["speed" := series "speed" ++ [v2]]>
                      (<["cycle" := series "cycle" ++ [v1]]> entry))))))]>
    logs.

(** One more sample for the motor [id], and for a list of motors. *)
Definition bump (shape : gmap string nat) (id : string) : gmap string nat :=
  <[id := S (default 0%nat (shape !! id))]> shape.
Definition bumps (ids : list string) (shape : gmap string nat)
    : gmap string nat :=
  foldl bump shape ids.

(** The shape in which each of [ids] has [n] samples. *)
Definition uniform_shape (n : nat) (ids : list string) : gmap string nat :=
  match n with
  | O => ∅
  | S _ => gset_to_gmap n (list_to_set ids)
  end.

(** ** Further observations: calls, draws, samples and relations of
       hierarchies *)

(** The number of plant updates among a sequence of method calls. *)
Definition is_update (call : method_call) : nat :=
  match call with
  | Control _ => 0
  | Update_motor _ => 1
  end.
Definition updates (calls : list method_call) : nat :=
  sum_list_with is_update calls.

(** [st'] is [st] after [n] calls of [random.random()]. *)
Definition drawn (n : nat) (st st' : Store) : Prop :=
  forall k : nat, random_state st' k = random_state st (n + k)%nat.

(** The motors of the hierarchy, in the order they are stepped. *)
Definition machine_motors (m : Machine) : list Motor :=
  [ DCMotor.base (dc_motor m); ACMotor.base (ac_motor m) ].
Definition line_motors (l : ProductionLine) : list Motor :=
  machines l ≫= machine_motors.
Definition factory_motors (f : Factory) : list Motor :=
  production_lines f ≫= line_motors.

(** The machines of a factory, line after line. *)
Definition factory_machines (f : Factory) : list Machine :=
  production_lines f ≫= machines.

(** What the seven [append] calls of one motor do to its entry. *)
Definition entry_sample (v1 v2 v3 v4 v5 v6 v7 : value)
    (entry : gmap string (list value)) : gmap string (list value) :=
  let series key := default [] (entry !! key) in
  <["reference" := series "reference" ++ [v7]]>
    (<["torque" := series "torque" ++ [v6]]>
       (<["current" := series "current" ++ [v5]]>
          (<["efficiency" := series "efficiency" ++ [v4]]>
             (<["temperature" := series "temperature" ++ [v3]]>
                (<["speed" := series "speed" ++ [v2]]>
                   (<["cycle" := series "cycle" ++ [v1]]> entry)))))).

(** The last element of the sequence [key] of an entry. *)
Definition latest (entry : gmap string (list value)) (key : string)
    : option value :=
  entry !! key ≫= last.

(** Two hierarchies of the same shape and names whose machines are
    related by [r], position by position. *)
Definition line_related (r : Machine -> Machine -> Prop)
    (l l' : ProductionLine) : Prop :=
  line_id l' = line_id l /\ Forall2 r (machines l) (machines l').
Definition factory_related (r : Machine -> Machine -> Prop)
    (f f' : Factory) : Prop :=
  factory_name f' = factory_name f
  /\ Forall2 (line_related r) (production_lines f) (production_lines f').

Section Samples.

Context {R : Rounding}.

Variable hash : string -> Z.

(** The entry of a motor once [update_machines] has logged the motor,
    in state [m], at [cycle] with reference [reference]. *)
Definition status_sample (cycle : Z) (m : Motor) (reference : Z)
    (entry : gmap string (list value)) : gmap string (list value) :=
  entry_sample (Int cycle)
    (Float (round (speed m) 10)) (Float (round (temperature m) 2))
    (Float (round (efficiency m) 2)) (Float (round (current m) 5))
    (Float (round (torque m) 10)) (Int reference) entry.

(** [logs'] is [logs] with one more sample, taken at [cycle], for each
    of the motors [ms], and with nothing else changed. *)
Definition sampled (cycle : Z) (ms : list Motor)
    (logs logs' : gmap string (gmap string (list value))) : Prop :=
  (forall m, m ∈ ms ->
     exists reference,
       get_speed_reference hash cycle (motor_id m) default_cycle_interval
       = Ok reference
       /\ logs' !! motor_id m
          = Some (status_sample cycle m reference
                    (default new_log_entry (logs !! motor_id m))))
  /\ (forall id, id ∉ motor_id <$> ms -> logs' !! id = logs !! id).

(** [m'] is the machine [m] after [update_machines] at [cycle]: each
    motor has made one control-then-update cycle towards its own
    reference. *)
Definition machine_cycle (cycle : Z) (m m' : Machine) : Prop :=
  machine_id m' = machine_id m /\ status m' = status m
  /\ exists ref_dc ref_ac st_dc st_dc' st_ac st_ac',
       get_speed_reference hash cycle
         (motor_id (DCMotor.base (dc_motor m))) default_cycle_interval
       = Ok ref_dc
       /\ get_speed_reference hash cycle
            (motor_id (ACMotor.base (ac_motor m))) default_cycle_interval
          = Ok ref_ac
       /\ DCMotor.control_then_update (dc_motor m) (inject_Z ref_dc) st_dc
          = Ok (dc_motor m', st_dc')
       /\ ACMotor.control_then_update (ac_motor m) (inject_Z ref_ac) st_ac
          = Ok (ac_motor m', st_ac').

End Samples.

Section History.

Variable hash : string -> Z.

(** Every entry of the log holds, in its sequence "cycle", the cycles
    [cycles] and, in its sequence "reference", the reference of its
    motor at each of them. *)
Definition logged_cycles (cycles : list Z)
    (logs : gmap string (gmap string (list value))) : Prop :=
  forall id entry,
    logs !! id = Some entry ->
    entry !! "cycle" = Some (Int <$> cycles)
    /\ entry !! "reference"
       = Some ((fun cycle =>
                  Int (Z.abs (hash id) mod 200 + 1000
                       + 100 * ((cycle / default_cycle_interval) mod 4)))
                 <$> cycles).

End History.

(** [m'] has the identities and the controller parameters of [m], and
    [n] more operating hours on each motor. *)
Definition machine_aged (n : nat) (m m' : Machine) : Prop :=
  machine_id m' = machine_id m /\ status m' = status m
  /\ motor_id (DCMotor.base (dc_motor m')) = motor_id (DCMotor.base (dc_motor m))
  /\ motor_id (ACMotor.base (ac_motor m')) = motor_id (ACMotor.base (ac_motor m))
  /\ operating_hours (DCMotor.base (dc_motor m'))
     = operating_hours (DCMotor.base (dc_motor m)) + Z.of_nat n
  /\ operating_hours (ACMotor.base (ac_motor m'))
     = operating_hours (ACMotor.base (ac_motor m)) + Z.of_nat n
  /\ DCMotor.controller_gain (dc_motor m') = DCMotor.controller_gain (dc_motor m)
  /\ DCMotor.integral_gain (dc_motor m') = DCMotor.integral_gain (dc_motor m)
  /\ ACMotor.controller_gain (ac_motor m') = ACMotor.controller_gain (ac_motor m)
  /\ ACMotor.integral_gain (ac_motor m') = ACMotor.integral_gain (ac_motor m)
  /\ ACMotor.base_frequency (ac_motor m') = ACMotor.base_frequency (ac_motor m)
  /\ voltage (ACMotor.base (ac_motor m')) = voltage (ACMotor.base (ac_motor m)).

(** The electrical and mechanical quantities of both motors are within
    the ranges of the plant models. *)
Definition machine_in_range (m : Machine) : Prop :=
  let dc := DCMotor.base (dc_motor m) in
  let ac := ACMotor.base (ac_motor m) in
  (0 <= speed dc <= 1500 /\ 0 <= voltage dc <= 480
   /\ 0 <= current dc <= 10 /\ 0 <= torque dc <= 5
   /\ 0 <= speed ac <= 1800 /\ 40 <= ACMotor.frequency (ac_motor m) <= 60
   /\ 0 <= current ac <= 10 /\ 0 <= torque ac <= 5)%Q.

(** ** The display code: string methods, matplotlib objects, the two
       figures and the status table

    The display code reads [motor_logs] through [items()] only, which
    yields in the order of insertion: its functions take the list of
    the items in that order, and the dictionaries they build and then
    iterate, [groups] and its values, are lists of items too. The
    driver inserts the entry of a motor at the motor's first update, so
    the order of insertion is the order in which the motors are
    stepped. Streamlit's calls, the figure size and the shared x axis
    are left out. *)

(** [d.get(k)] and [d[k] = v] on the items of a dictionary: a new key
    goes to the end, a key already there keeps its place. *)
Fixpoint items_get {V} (d : list (string * V)) (k : string) : option V :=
  match d with
  | [] => None
  | (k', v) :: d => if decide (k' = k) then Some v else items_get d k
  end.
Fixpoint items_set {V} (d : list (string * V)) (k : string) (v : V)
    : list (string * V) :=
  match d with
  | [] => [(k, v)]
  | (k', v') :: d =>
      if decide (k' = k) then (k, v) :: d else (k', v') :: items_set d k v
  end.
Definition items_getitem {V} (d : list (string * V)) (k : string) : outcome V :=
  match items_get d k with
  | Some v => Ok v
  | None => Raise (KeyError k)
  end.

(** The items of the log, for the order [order] of insertion. *)
Definition logs_items (order : list string)
    (logs : gmap string (gmap string (list value)))
    : list (string * gmap string (list value)) :=
  omap (fun id => (fun entry => (id, entry)) <$> logs !! id) order.

(** [s.split(sep)] for a separator of one character. *)
Fixpoint str_split (sep : Ascii.ascii) (s : string) : list string :=
  match s with
  | EmptyString => [EmptyString]
  | String c s =>
      if decide (c = sep) then EmptyString :: str_split sep s
      else
        match str_split sep s with
        | part :: parts => String c part :: parts
        | [] => [String c EmptyString]
        end
  end.

(** [s.capitalize()] on ASCII letters. *)
Definition ascii_upper (c : Ascii.ascii) : Ascii.ascii :=
  let n := Ascii.nat_of_ascii c in
  if decide (97 <= n <= 122)%nat then Ascii.ascii_of_nat (n - 32) else c.
Definition ascii_lower (c : Ascii.ascii) : Ascii.ascii :=
  let n := Ascii.nat_of_ascii c in
  if decide (65 <= n <= 90)%nat then Ascii.ascii_of_nat (n + 32) else c.
Fixpoint str_lower (s : string) : string :=
  match s with
  | EmptyString => EmptyString
  | String c s => String (ascii_lower c) (str_lower s)
  end.
Definition str_capitalize (s : string) : string :=
  match s with
  | EmptyString => EmptyString
  | String c s => String (ascii_upper c) (str_lower s)
  end.

(** [sorted(l)] on strings, which Python compares character by
    character. *)
Definition str_le (s t : string) : Prop := String.leb s t = true.
#[global] Instance str_le_dec (s t : string) : Decision (str_le s t) :=
  decide (String.leb s t = true).
Definition sorted (l : list string) : list string := merge_sort str_le l.

(** Exceptions of the display code: those of the built-ins, and the
    [ValueError] of [Axes.plot]. *)
Inductive raised : Set :=
| Builtin (e : exn)
| ValueError.

Inductive result (A : Type) : Type :=
| Done (a : A)
| Failed (e : raised).
Arguments Done {A} a.
Arguments Failed {A} e.

#[global] Instance result_ret : MRet result := fun A a => Done a.
#[global] Instance result_bind : MBind result := fun A B k m =>
  match m with
  | Done a => k a
  | Failed e => Failed e
  end.

Definition builtin {A} (m : outcome A) : result A :=
  match m with
  | Ok a => Done a
  | Raise e => Failed (Builtin e)
  end.

(** [for x in l: body(x)], where the body mutates an object in scope. *)
Fixpoint for_items {A S} (body : A -> S -> result S) (l : list A) (s : S)
    : result S :=
  match l with
  | [] => mret s
  | x :: l =>
      s' ← body x s;
      for_items body l s'
  end.

(** [for i, x in enumerate(l): body(i, x)], from the index [i]. *)
Fixpoint for_enumerate {A S} (body : Z -> A -> S -> result S) (i : Z)
    (l : list A) (s : S) : result S :=
  match l with
  | [] => mret s
  | x :: l =>
      s' ← body i x s;
      for_enumerate body (i + 1) l s'
  end.

(** A plotted line, the axes of a subplot and a figure. A keyword
    argument that is not given is [None]. *)
Record Line2D : Type := {
  xdata : list value;
  ydata : list value;
  label : string;
  linestyle : option string;
  color : option string
}.

Record Axes : Type := {
  lines : list Line2D;
  title : option string;
  xlabel : option string;
  ylabel : option string;
  legend : option string
}.

Record Figure : Type := {
  axs : list Axes;
  tight_layout : bool
}.

Definition Axes_init : Axes :=
  {| lines := []; title := None; xlabel := None; ylabel := None;
     legend := None |}.

(** [plt.subplots(nrows, ncols)[1].flatten()] *)
Definition subplots (nrows ncols : nat) : list Axes :=
  replicate (nrows * ncols) Axes_init.

(** [ax.plot(x, y, label=..., linestyle=..., color=...)], which refuses
    two sequences of different lengths. *)
Definition plot (x y : list value) (label : string)
    (linestyle color : option string) (ax : Axes) : result Axes :=
  if decide (length x = length y) then
    Done {| lines := lines ax
                     ++ [ {| xdata := x; ydata := y; label := label;
                             linestyle := linestyle; color := color |} ];
            title := title ax; xlabel := xlabel ax; ylabel := ylabel ax;
            legend := legend ax |}
  else Failed ValueError.

Definition set_title (s : string) (ax : Axes) : Axes :=
  {| lines := lines ax; title := Some s; xlabel := xlabel ax;
     ylabel := ylabel ax; legend := legend ax |}.
Definition set_xlabel (s : string) (ax : Axes) : Axes :=
  {| lines := lines ax; title := title ax; xlabel := Some s;
     ylabel := ylabel ax; legend := legend ax |}.
Definition set_ylabel (s : string) (ax : Axes) : Axes :=
  {| lines := lines ax; title := title ax; xlabel := xlabel ax;
     ylabel := Some s; legend := legend ax |}.
Definition set_legend (loc : string) (ax : Axes) : Axes :=
  {| lines := lines ax; title := title ax; xlabel := xlabel ax;
     ylabel := ylabel ax; legend := Some loc |}.

(** [axs[i] = ax] for an index already checked by [axs[i]]. *)
Definition axs_setitem (i : Z) (ax : Axes) (axs : list Axes) : list Axes :=
  let n := Z.of_nat (length axs) in
  <[Z.to_nat (if decide (i < 0) then i + n else i) := ax]> axs.

(** [axs[-1].set_xlabel(s)] *)
Definition label_last_axes (s : string) (axs : list Axes)
    : result (list Axes) :=
  ax ← builtin (list_getitem axs (-1));
  mret (axs_setitem (-1) (set_xlabel s ax) axs).

(** The key under which [get_speed_fig_by_machine] groups a motor:
    none when the identity has fewer than four parts. *)
Definition machine_key (motor_id : string) : option string :=
  let parts := str_split "_" motor_id in
  if decide (4 <= length parts)%nat then
    p1 ← parts !! 1%nat;
    p2 ← parts !! 2%nat;
    Some ("Line " +:+ p1 +:+ " - " +:+ p2)
  else None.

(** The body of the grouping loop. *)
Definition group_motor
    (groups : list (string * list (string * gmap string (list value))))
    (item : string * gmap string (list value))
    : list (string * list (string * gmap string (list value))) :=
  let '(motor_id, data) := item in
  match machine_key motor_id with
  | Some key =>
      let groups :=
        if decide (is_Some (items_get groups key)) then groups
        else items_set groups key [] in
      items_set groups key
        (items_set (default [] (items_get groups key)) motor_id data)
  | None => groups
  end.

Definition group_by_machine
    (motor_logs : list (string * gmap string (list value)))
    : list (string * list (string * gmap string (list value))) :=
  foldl group_motor [] motor_logs.

(** The body of the inner loop of [get_speed_fig_by_machine]. *)
Definition plot_speed (item : string * gmap string (list value)) (ax : Axes)
    : result Axes :=
  let '(motor_id, data) := item in
  x ← builtin (dict_getitem data "cycle");
  y ← builtin (dict_getitem data "speed");
  ax ← plot x y motor_id None None ax;
  if decide (is_Some (data !! "reference")) then
    x ← builtin (dict_getitem data "cycle");
    y ← builtin (dict_getitem data "reference");
    plot x y (motor_id +:+ " ref") (Some "--") (Some "gray") ax
  else mret ax.

(** The body of the loop over the sorted keys. *)
Definition draw_machine
    (groups : list (string * list (string * gmap string (list value))))
    (i : Z) (key : string) (axs : list Axes) : result (list Axes) :=
  ax ← builtin (list_getitem axs i);
  group ← builtin (items_getitem groups key);
  ax ← for_items plot_speed group ax;
  let ax := set_title key ax in
  let ax := set_ylabel "Speed (RPM)" ax in
  let ax := set_legend "upper right" ax in
  mret (axs_setitem i ax axs).

Definition get_speed_fig_by_machine
    (motor_logs : list (string * gmap string (list value))) : result Figure :=
  let groups := group_by_machine motor_logs in
  let keys := sorted groups.*1 in
  let axs := subplots 2 2 in
  axs ← for_enumerate (draw_machine groups) 0 keys axs;
  axs ← label_last_axes "Cycle" axs;
  mret {| axs := axs; tight_layout := true |}.

(** The body of the inner loop of [get_metrics_fig], and the body of
    its loop over the metrics. *)
Definition plot_metric (i : Z) (metric : string)
    (item : string * gmap string (list value)) (axs : list Axes)
    : result (list Axes) :=
  let '(motor_id, data) := item in
  ax ← builtin (list_getitem axs i);
  x ← builtin (dict_getitem data "cycle");
  y ← builtin (dict_getitem data metric);
  ax ← plot x y motor_id None None ax;
  mret (axs_setitem i ax axs).

Definition draw_metric (motor_logs : list (string * gmap string (list value)))
    (i : Z) (metric : string) (axs : list Axes) : result (list Axes) :=
  axs ← for_items (plot_metric i metric) motor_logs axs;
  ax ← builtin (list_getitem axs i);
  let axs := axs_setitem i (set_ylabel (str_capitalize metric) ax) axs in
  ax ← builtin (list_getitem axs i);
  mret (axs_setitem i (set_legend "upper right" ax) axs).

Definition get_metrics_fig
    (motor_logs : list (string * gmap string (list value))) : result Figure :=
  let metrics := ["temperature"; "efficiency"; "current"; "torque"] in
  let axs := subplots 2 2 in
  axs ← for_enumerate (draw_metric motor_logs) 0 metrics axs;
  axs ← label_last_axes "Cycle" axs;
  mret {| axs := axs; tight_layout := true |}.

(** The dictionary the driver builds for one motor of the table. *)
Definition table_row (item : string * gmap string (list value))
    : result (gmap string value) :=
  let '(motor_id, data) := item in
  let last_idx := -1 in
  let latest key :=
    builtin (series ← dict_getitem data key; list_getitem series last_idx) in
  v_cycle ← latest "cycle";
  v_speed ← latest "speed";
  v_temperature ← latest "temperature";
  v_efficiency ← latest "efficiency";
  v_current ← latest "current";
  v_torque ← latest "torque";
  v_reference ← latest "reference";
  mret (list_to_map
          [ ("Motor ID", Str motor_id);
            ("Cycle", v_cycle);
            ("Speed (RPM)", v_speed);
            ("Temp (°C)", v_temperature);
            ("Eff (%)", v_efficiency);
            ("Current (A)", v_current);
            ("Torque (Nm)", v_torque);
            ("Reference", v_reference) ]).

Definition table_data (motor_logs : list (string * gmap string (list value)))
    : result (list (gmap string value)) :=
  for_items (fun item rows => row ← table_row item; mret (rows ++ [row]))
    motor_logs [].

(** What the three placeholders of the page show. *)
Record Screen : Type := {
  speed_fig_placeholder : option Figure;
  metrics_fig_placeholder : option Figure;
  table_placeholder : option (list (gmap string value))
}.

(** The part of the driver's loop body that follows the update of the
    lines. *)
Definition show (motor_logs : list (string * gmap string (list value)))
    (screen : Screen) : result Screen :=
  fig1 ← get_speed_fig_by_machine motor_logs;
  let screen :=
    {| speed_fig_placeholder := Some fig1;
       metrics_fig_placeholder := metrics_fig_placeholder screen;
       table_placeholder := table_placeholder screen |} in
  fig2 ← get_metrics_fig motor_logs;
  let screen :=
    {| speed_fig_placeholder := speed_fig_placeholder screen;
       metrics_fig_placeholder := Some fig2;
       table_placeholder := table_placeholder screen |} in
  rows ← table_data motor_logs;
  mret {| speed_fig_placeholder := speed_fig_placeholder screen;
          metrics_fig_placeholder := metrics_fig_placeholder screen;
          table_placeholder := Some rows |}.

Section App.

Context {R : Rounding}.

Variable hash : string -> Z.

(** The driver's loop with its display: each cycle updates the lines,
    then redraws the two figures and the table. *)
Fixpoint display_loop (cycles : list Z) (factory : Factory) (screen : Screen)
    (st : Store) : result (Factory * Screen * Store) :=
  match cycles with
  | [] => mret (factory, screen, st)
  | cycle :: cycles =>
      '(lines, st) ← builtin
        (for_each (fun line => update_production_line hash line cycle)
           (production_lines factory) st);
      let factory :=
        {| factory_name := factory_name factory; production_lines := lines |} in
      screen ← show
        (logs_items (factory_motor_ids factory) (motor_logs st)) screen;
      display_loop cycles factory screen st
  end.

(** The body of the "Start Simulation" branch, display included. *)
Definition start_simulation (num_lines machines_per_line total_cycles : Z)
    (st : Store) : result (Factory * Screen * Store) :=
  let factory :=
    Factory_init "Smart Information Model Factory"
      num_lines machines_per_line in
  let st := set_motor_logs ∅ st in
  let screen :=
    {| speed_fig_placeholder := None; metrics_fig_placeholder := None;
       table_placeholder := None |} in
  display_loop (range2 1 (total_cycles + 1)) factory screen st.


End App.
(** An item of the log whose entry holds the seven sequences, all of
    one length. *)
Definition well_formed (item : string * gmap string (list value)) : Prop :=
  exists n : nat, entry_length n item.2.

(** The title of the subplot of machine [j] of the line built at index
    [i]. *)
Definition machine_title (i j : Z) : string :=
  "Line " +:+ str (i + 1) +:+ " - M" +:+ str j.

(** The two curves [get_speed_fig_by_machine] draws for a motor, the
    curve [get_metrics_fig] draws for a motor and a metric, and the row
    of the table for a motor. *)
Definition speed_curves (item : string * gmap string (list value))
    : list Line2D :=
  let series key := default [] (item.2 !! key) in
  [ {| xdata := series "cycle"; ydata := series "speed"; label := item.1;
       linestyle := None; color := None |};
    {| xdata := series "cycle"; ydata := series "reference";
       label := item.1 +:+ " ref"; linestyle := Some "--";
       color := Some "gray" |} ].
Definition metric_curve (metric : string)
    (item : string * gmap string (list value)) : Line2D :=
  let series key := default [] (item.2 !! key) in
  {| xdata := series "cycle"; ydata := series metric; label := item.1;
     linestyle := None; color := None |}.
Definition add_lines (curves : list Line2D) (ax : Axes) : Axes :=
  {| lines := lines ax ++ curves; title := title ax; xlabel := xlabel ax;
     ylabel := ylabel ax; legend := legend ax |}.
(** The subplot of a machine, and the subplot of a metric before the
    last one gets its x label. *)
Definition speed_axes (key : string)
    (group : list (string * gmap string (list value))) : Axes :=
  {| lines := group ≫= speed_curves; title := Some key; xlabel := None;
     ylabel := Some "Speed (RPM)"; legend := Some "upper right" |}.
Definition metric_axes (metric : string)
    (motor_logs : list (string * gmap string (list value))) : Axes :=
  {| lines := metric_curve metric <$> motor_logs; title := None;
     xlabel := None; ylabel := Some (str_capitalize metric);
     legend := Some "upper right" |}.
Definition latest_row (item : string * gmap string (list value))
    : gmap string value :=
  let shown key := default (Int 0) (latest item.2 key) in
  list_to_map
    [ ("Motor ID", Str item.1);
      ("Cycle", shown "cycle");
      ("Speed (RPM)", shown "speed");
      ("Temp (°C)", shown "temperature");
      ("Eff (%)", shown "efficiency");
      ("Current (A)", shown "current");
      ("Torque (Nm)", shown "torque");
      ("Reference", shown "reference") ].

(** * Properties *)

(** ** Reference signal generator *)

Section ReferenceSignal.

Variable hash : string -> Z.

Lemma list_getitem_level (l : list Z) (i : Z) (x : Z) :
  0 <= i -> l !! Z.to_nat i = Some x -> list_getitem l i = Ok x.
Proof.
  intros Hi Hx. unfold list_getitem.
  pose proof (lookup_lt_Some _ _ _ Hx) as Hlt.
  destruct (decide (i < 0)) as [|_]; [lia|].
  destruct (decide (0 <= i < Z.of_nat (length l))) as [_|Hn]; [|lia].
  by rewrite Hx.
Qed.

(** The generator on any cycle, for a non-zero interval. *)
Lemma get_speed_reference_value (cycle : Z) (motor_id : string) (cycle_interval : Z) :
  cycle_interval <> 0 ->
  get_speed_reference hash cycle motor_id cycle_interval
  = Ok (Z.abs (hash motor_id) mod 200 + 1000
        + 100 * ((cycle / cycle_interval) mod 4)).
Proof.
  intros Hne. unfold get_speed_reference, floordiv, modulo.
  destruct (decide (cycle_interval = 0)) as [|_]; [done|]. simpl.
  destruct (decide (4 = 0)) as [|_]; [done|]. simpl.
  set (base := Z.abs (hash motor_id) mod 200 + 1000).
  set (index := (cycle / cycle_interval) mod 4).
  assert (0 <= index < 4) as Hidx by (apply Z.mod_pos_bound; lia).
  apply list_getitem_level; [lia|].
  assert (index = 0 \/ index = 1 \/ index = 2 \/ index = 3)
    as [-> | [-> | [-> | ->]]] by lia; simpl; f_equal; lia.
Qed.

(** C1: for every motor identity, every cycle >= 0 and every positive
    interval, the reference generator returns
    [base + 100 * ((cycle div interval) mod 4)], where
    [base = (abs(hash(id)) mod 200) + 1000] lies in [[1000, 1200)];
    the result depends on the arguments only, so two calls with the
    same arguments return the same result. *)
Theorem get_speed_reference_levels
    (cycle : Z) (motor_id : string) (cycle_interval : Z) :
  0 <= cycle -> 0 < cycle_interval ->
  let base := Z.abs (hash motor_id) mod 200 + 1000 in
  get_speed_reference hash cycle motor_id cycle_interval
  = Ok (base + 100 * ((cycle / cycle_interval) mod 4))
  /\ 1000 <= base < 1200
  /\ forall r1 r2,
       get_speed_reference hash cycle motor_id cycle_interval = r1 ->
       get_speed_reference hash cycle motor_id cycle_interval = r2 ->
       r1 = r2.
Proof.
  intros Hcycle Hpos base. split; [|split].
  - apply get_speed_reference_value. lia.
  - subst base.
    pose proof (Z.mod_pos_bound (Z.abs (hash motor_id)) 200). lia.
  - congruence.
Qed.

(** C9: for every motor identity and every positive interval, the
    call with [cycle = 0] does not raise: the level index computed is
    0 and the value returned is the motor's base value. *)
Theorem get_speed_reference_cycle_zero
    (motor_id : string) (cycle_interval : Z) :
  0 < cycle_interval ->
  (q ← floordiv 0 cycle_interval; modulo q 4) = Ok 0
  /\ get_speed_reference hash 0 motor_id cycle_interval
     = Ok (Z.abs (hash motor_id) mod 200 + 1000).
Proof.
  intros Hpos. split.
  - unfold floordiv, modulo.
    destruct (decide (cycle_interval = 0)) as [|_]; [lia|]. simpl.
    by rewrite Z.div_0_l by lia.
  - rewrite get_speed_reference_value by lia.
    rewrite Z.div_0_l by lia. f_equal. rewrite Z.mod_0_l by lia. lia.
Qed.

End ReferenceSignal.

Lemma get_speed_reference_levels_witness :
  get_speed_reference sample_hash 120 "Line_1_M0_DC" 50 = Ok 1279
  /\ 1000 <= 1079 < 1200.
Proof.
  destruct (get_speed_reference_levels sample_hash 120 "Line_1_M0_DC" 50)
    as (Hval & Hbase & _); [lia | lia |].
  split; [exact Hval | exact Hbase].
Defined.

Lemma get_speed_reference_cycle_zero_witness :
  get_speed_reference sample_hash 0 "Line_1_M0_DC" 50 = Ok 1079.
Proof.
  destruct (get_speed_reference_cycle_zero sample_hash "Line_1_M0_DC" 50)
    as [_ Hval]; [lia|]. exact Hval.
Defined.

(** ** Rounding *)

Local Open Scope Q_scope.

(** *** Exact arithmetic *)

Lemma exact_arithmetic_laws : @RoundingLaws exact_arithmetic.
Proof.
  split; unfold rnd, exact_arithmetic.
  - done.
  - reflexivity.
  - reflexivity.
  - intros x Hx. lra.
  - intros x Hx. lra.
Qed.

(** *** Rounding to the nearest integer *)

Lemma Qfloor_unique (x : Q) (z : Z) :
  inject_Z z <= x -> x < inject_Z (z + 1) -> Qfloor x = z.
Proof.
  intros Hle Hlt.
  pose proof (Qfloor_le x) as H1. pose proof (Qlt_floor x) as H2.
  assert (inject_Z z < inject_Z (Qfloor x + 1)) as Ha by lra.
  assert (inject_Z (Qfloor x) < inject_Z (z + 1)) as Hb by lra.
  rewrite <- Zlt_Qlt in Ha, Hb. lia.
Qed.

Lemma round_half_even_proper (x y : Q) :
  x == y -> round_half_even x = round_half_even y.
Proof.
  intros Hxy. unfold round_half_even.
  rewrite (Qfloor_comp _ _ Hxy).
  assert (x - inject_Z (Qfloor y) == y - inject_Z (Qfloor y)) as Hr
    by (by rewrite Hxy).
  rewrite Hr.
  reflexivity.
Qed.

Lemma round_half_even_integer (z : Z) : round_half_even (inject_Z z) = z.
Proof.
  unfold round_half_even. rewrite Qfloor_Z.
  assert ((inject_Z z - inject_Z z ?= 1 # 2) = Lt) as ->
    by (rewrite <- Qlt_alt; lra).
  reflexivity.
Qed.

Lemma round_half_even_near (x : Q) :
  x - (1 # 2) <= inject_Z (round_half_even x) <= x + (1 # 2).
Proof.
  unfold round_half_even.
  pose proof (Qfloor_le x) as H1. pose proof (Qlt_floor x) as H2.
  rewrite inject_Z_plus in H2. change (inject_Z 1) with 1 in H2.
  destruct (x - inject_Z (Qfloor x) ?= 1 # 2) eqn:Hc.
  - apply Qeq_alt in Hc.
    destruct (Z.even (Qfloor x)); rewrite ?inject_Z_plus;
      change (inject_Z 1) with 1; split; lra.
  - apply Qlt_alt in Hc. split; lra.
  - apply Qgt_alt in Hc. rewrite inject_Z_plus. change (inject_Z 1) with 1.
    split; lra.
Qed.

Lemma round_half_even_monotone (x y : Q) :
  x <= y -> (round_half_even x <= round_half_even y)%Z.
Proof.
  intros Hxy.
  pose proof (Qfloor_resp_le _ _ Hxy) as Hf.
  destruct (Z.eq_dec (Qfloor x) (Qfloor y)) as [Heq | Hne].
  - unfold round_half_even. rewrite Heq.
    destruct (x - inject_Z (Qfloor y) ?= 1 # 2) eqn:Hcx;
      destruct (y - inject_Z (Qfloor y) ?= 1 # 2) eqn:Hcy;
      first [apply Qeq_alt in Hcx | apply Qlt_alt in Hcx | apply Qgt_alt in Hcx];
      first [apply Qeq_alt in Hcy | apply Qlt_alt in Hcy | apply Qgt_alt in Hcy];
      first [ lia | exfalso; lra
            | destruct (Z.even (Qfloor y)); first [lia | exfalso; lra] ].
  - assert (Qfloor x + 1 <= Qfloor y)%Z as Hlt by lia.
    pose proof (round_half_even_near x) as [_ Hx].
    pose proof (round_half_even_near y) as [Hy _].
    pose proof (Qlt_floor x) as H2. pose proof (Qfloor_le y) as H3.
    rewrite Zle_Qle in Hlt.
    assert (inject_Z (round_half_even x) < inject_Z (round_half_even y) + 1)
      as Hgoal.
    { unfold round_half_even at 1.
      destruct (x - inject_Z (Qfloor x) ?= 1 # 2);
        [destruct (Z.even (Qfloor x))| |];
        rewrite ?inject_Z_plus in *; change (inject_Z 1) with 1 in *; lra. }
    rewrite <- (inject_Z_plus _ 1) in Hgoal. rewrite <- Zlt_Qlt in Hgoal. lia.
Qed.

(** *** Binades *)

Lemma pow2_pos (z : Z) : 0 < 2 ^ z.
Proof. by apply Qpower_0_lt. Qed.

Lemma pow2_nat (z : Z) : (0 <= z)%Z -> inject_Z (2 ^ z) == 2 ^ z.
Proof. intros Hz. by rewrite Zpower_Qpower. Qed.

Lemma log2_bounds (a : Z) :
  (0 < a)%Z -> 2 ^ Z.log2 a <= inject_Z a < 2 ^ (Z.log2 a + 1).
Proof.
  intros Ha. pose proof (Z.log2_spec a Ha) as [H1 H2].
  pose proof (Z.log2_nonneg a) as H0.
  rewrite <- !pow2_nat by lia. rewrite <- Zle_Qle, <- Zlt_Qlt.
  change (Z.succ (Z.log2 a)) with (Z.log2 a + 1)%Z in H2. done.
Qed.

Lemma binade_spec (x : Q) :
  0 < x -> 2 ^ binade x <= x < 2 ^ (binade x + 1).
Proof.
  intros Hx. unfold binade.
  set (n := Qnum x). set (d := Z.pos (Qden x)).
  assert (0 < n)%Z as Hn.
  { destruct x as [a b]. unfold Qlt in Hx. simpl in *. subst n. simpl. lia. }
  assert (0 < inject_Z d) as Hd by (rewrite <- (Zlt_Qlt 0); done).
  assert (x * inject_Z d == inject_Z n) as Hnd.
  { subst n d. destruct x as [a b]. simpl.
    rewrite (Qmake_Qdiv a b). field.
    intros H0. rewrite H0 in Hd. simpl in Hd. lra. }
  pose proof (log2_bounds n Hn) as [Hn1 Hn2].
  pose proof (log2_bounds d ltac:(done)) as [Hd1 Hd2].
  pose proof (pow2_pos (Z.log2 d)) as Hp1.
  pose proof (pow2_pos (Z.log2 d + 1)) as Hp2.
  destruct (Qle_bool (2 ^ (Z.log2 n - Z.log2 d)) x) eqn:Hc.
  - apply Qle_bool_iff in Hc. split; [exact Hc|].
    replace (Z.log2 n - Z.log2 d + 1)%Z
      with ((Z.log2 n + 1) - Z.log2 d)%Z by lia.
    rewrite Qpower_minus by done.
    apply Qlt_shift_div_l; [exact Hp1|]. nra.
  - assert (x < 2 ^ (Z.log2 n - Z.log2 d)) as Hlt.
    { apply Qnot_le_lt. intros Hle. apply Qle_bool_iff in Hle. congruence. }
    replace (Z.log2 n - Z.log2 d - 1 + 1)%Z with (Z.log2 n - Z.log2 d)%Z by lia.
    split; [|exact Hlt].
    replace (Z.log2 n - Z.log2 d - 1)%Z
      with (Z.log2 n - (Z.log2 d + 1))%Z by lia.
    rewrite Qpower_minus by done.
    apply Qle_shift_div_r; [exact Hp2|]. nra.
Qed.

Lemma binade_unique (x : Q) (b : Z) :
  0 < x -> 2 ^ b <= x -> x < 2 ^ (b + 1) -> binade x = b.
Proof.
  intros Hx H1 H2. destruct (binade_spec x Hx) as [H3 H4].
  assert (2 ^ b < 2 ^ (binade x + 1)) as Ha by lra.
  assert (2 ^ binade x < 2 ^ (b + 1)) as Hb by lra.
  apply Qpower_lt_compat_l_inv in Ha; [|lra].
  apply Qpower_lt_compat_l_inv in Hb; [|lra]. lia.
Qed.

Lemma binade_monotone (x y : Q) : 0 < x -> x <= y -> (binade x <= binade y)%Z.
Proof.
  intros Hx Hxy. destruct (binade_spec x Hx) as [H1 _].
  destruct (binade_spec y ltac:(lra)) as [_ H2].
  assert (2 ^ binade x < 2 ^ (binade y + 1)) as Ha by lra.
  apply Qpower_lt_compat_l_inv in Ha; [|lra]. lia.
Qed.

(** *** Rounding a magnitude *)

Lemma ulp_exponent_bounds (x : Q) :
  (-1074 <= ulp_exponent x)%Z /\ (binade x - 52 <= ulp_exponent x)%Z.
Proof. unfold ulp_exponent. lia. Qed.

(** The quotient by a power of two, and back. *)
Lemma scale_back (x : Q) (u : Z) : x / 2 ^ u * 2 ^ u == x.
Proof. field. pose proof (pow2_pos u). lra. Qed.

Lemma scale_le (x y : Q) (u : Z) : x <= y -> x / 2 ^ u <= y / 2 ^ u.
Proof.
  intros Hxy. pose proof (pow2_pos u) as Hu.
  apply Qle_shift_div_l; [exact Hu|]. rewrite scale_back. exact Hxy.
Qed.

(** A power of two on the grid of exponent [u] is an integer number of
    steps. *)
Lemma pow2_on_grid (b u : Z) :
  (u <= b)%Z -> 2 ^ b / 2 ^ u == inject_Z (2 ^ (b - u)).
Proof.
  intros Hub. rewrite pow2_nat by lia. rewrite Qpower_minus by done.
  reflexivity.
Qed.

Lemma round_magnitude_zero (x : Q) : x == 0 -> round_magnitude x == 0.
Proof.
  intros Hx. unfold round_magnitude. generalize (ulp_exponent x). intros u.
  rewrite (round_half_even_proper _ (inject_Z 0)).
  - rewrite round_half_even_integer. ring.
  - rewrite Hx. unfold Qdiv. ring.
Qed.

Lemma round_magnitude_nonneg (x : Q) : 0 <= x -> 0 <= round_magnitude x.
Proof.
  intros Hx. unfold round_magnitude.
  set (u := ulp_exponent x). pose proof (pow2_pos u) as Hu.
  apply Qmult_le_0_compat; [|lra].
  rewrite <- (Zle_Qle 0). rewrite <- (round_half_even_integer 0).
  apply round_half_even_monotone. apply Qle_shift_div_l; [exact Hu|].
  change (inject_Z 0) with 0. lra.
Qed.

(** A number of the format is left alone. *)
Lemma round_magnitude_exact (y : Q) (m e : Z) :
  (0 < m < 2 ^ 53)%Z -> (-1074 <= e)%Z -> y == inject_Z m * 2 ^ e ->
  round_magnitude y == y.
Proof.
  intros [Hm0 Hm1] He Hy.
  pose proof (pow2_pos e) as Hpe.
  assert (0 < inject_Z m) as Hmq by (by rewrite <- (Zlt_Qlt 0)).
  assert (0 < y) as Hy0 by (rewrite Hy; by apply Qmult_lt_0_compat).
  destruct (log2_bounds m Hm0) as [Hl1 Hl2].
  assert (binade y = (Z.log2 m + e)%Z) as Hb.
  { apply binade_unique; [exact Hy0 | |].
    - rewrite Qpower_plus by done. rewrite Hy. nra.
    - replace (Z.log2 m + e + 1)%Z with ((Z.log2 m + 1) + e)%Z by lia.
      rewrite Qpower_plus by done. rewrite Hy. nra. }
  assert (Z.log2 m < 53)%Z as Hlog by (by apply Z.log2_lt_pow2).
  unfold round_magnitude. set (u := ulp_exponent y).
  assert (u <= e)%Z as Hue by (subst u; unfold ulp_exponent; lia).
  assert (y / 2 ^ u == inject_Z (m * 2 ^ (e - u))) as Hq.
  { rewrite inject_Z_mult, <- pow2_on_grid by done. rewrite Hy.
    unfold Qdiv. ring. }
  rewrite (round_half_even_proper _ _ Hq), round_half_even_integer.
  rewrite <- Hq. apply scale_back.
Qed.

(** The steps counted by a rounding are at most [2 ^ 53]. *)
Lemma round_magnitude_steps (x : Q) :
  0 < x ->
  (0 <= round_half_even (x / 2 ^ ulp_exponent x) <= 2 ^ 53)%Z.
Proof.
  intros Hx. set (u := ulp_exponent x).
  pose proof (pow2_pos u) as Hu.
  destruct (binade_spec x Hx) as [_ Hb].
  destruct (ulp_exponent_bounds x) as [_ Hub]. fold u in Hub.
  split.
  - rewrite <- (round_half_even_integer 0) at 1.
    apply round_half_even_monotone. apply Qle_shift_div_l; [exact Hu|].
    change (inject_Z 0) with 0. lra.
  - assert (2 ^ (u + 53) / 2 ^ u == inject_Z (2 ^ 53)) as Hgrid.
    { rewrite pow2_on_grid by lia. by replace (u + 53 - u)%Z with 53%Z by lia. }
    apply Z.le_trans with (round_half_even (inject_Z (2 ^ 53)));
      [|by rewrite round_half_even_integer].
    apply round_half_even_monotone. rewrite <- Hgrid. apply scale_le.
    apply Qle_trans with (2 ^ (binade x + 1)); [lra|].
    apply Qpower_le_compat_l; [lia | lra].
Qed.

(** The result of a rounding is zero or a number of the format. *)
Lemma round_magnitude_format (x : Q) :
  0 <= x ->
  round_magnitude x == 0
  \/ exists m e : Z,
       (0 < m < 2 ^ 53)%Z /\ (-1074 <= e)%Z
       /\ round_magnitude x == inject_Z m * 2 ^ e.
Proof.
  intros Hx. destruct (Qeq_dec x 0) as [H0 | Hne].
  { left. by apply round_magnitude_zero. }
  assert (0 < x) as Hpos by (apply Qle_lteq in Hx as [? | Heq]; [done|];
                              by destruct Hne).
  pose proof (round_magnitude_steps x Hpos) as [Hk0 Hk1].
  destruct (ulp_exponent_bounds x) as [Hu _].
  unfold round_magnitude.
  set (u := ulp_exponent x) in *. set (k := round_half_even (x / 2 ^ u)) in *.
  destruct (Z.eq_dec k 0%Z) as [Hk | Hk].
  { left. rewrite Hk. ring. }
  destruct (Z.eq_dec k (2 ^ 53)%Z) as [Hk' | Hk'].
  - right. exists 1%Z, (u + 53)%Z. split; [done|]. split; [lia|].
    rewrite Hk', Qpower_plus by done. rewrite <- (pow2_nat 53) by done. ring.
  - right. exists k, u. split; [lia|]. split; [lia|]. reflexivity.
Qed.

Lemma round_magnitude_monotone (x y : Q) :
  0 <= x -> x <= y -> round_magnitude x <= round_magnitude y.
Proof.
  intros Hx Hxy. destruct (Qeq_dec x 0) as [H0 | Hne].
  { rewrite (round_magnitude_zero x H0). apply round_magnitude_nonneg. lra. }
  assert (0 < x) as Hpos by (apply Qle_lteq in Hx as [? | Heq]; [done|];
                              by destruct Hne).
  pose proof (binade_monotone x y Hpos Hxy) as Hb.
  destruct (binade_spec x Hpos) as [_ Hbx].
  destruct (binade_spec y ltac:(lra)) as [Hby _].
  unfold round_magnitude.
  destruct (Z.eq_dec (ulp_exponent x) (ulp_exponent y)) as [Heq | Hdiff].
  - rewrite Heq. pose proof (pow2_pos (ulp_exponent y)) as Hu.
    apply Qmult_le_compat_r; [|lra]. rewrite <- Zle_Qle.
    apply round_half_even_monotone. by apply scale_le.
  - assert (ulp_exponent x < ulp_exponent y)%Z as Hlt
      by (unfold ulp_exponent in *; lia).
    assert (ulp_exponent y = binade y - 52)%Z as Huy
      by (unfold ulp_exponent in *; lia).
    destruct (ulp_exponent_bounds x) as [_ Hux].
    set (ux := ulp_exponent x) in *. set (uy := ulp_exponent y) in *.
    pose proof (pow2_pos ux) as Hpx. pose proof (pow2_pos uy) as Hpy.
    apply Qle_trans with (2 ^ binade y).
    + rewrite <- (scale_back (2 ^ binade y) ux).
      apply Qmult_le_compat_r; [|lra].
      rewrite pow2_on_grid by lia. rewrite <- Zle_Qle.
      apply Z.le_trans
        with (round_half_even (inject_Z (2 ^ (binade y - ux))));
        [|by rewrite round_half_even_integer].
      apply round_half_even_monotone. rewrite <- pow2_on_grid by lia.
      apply scale_le. apply Qle_trans with (2 ^ (binade x + 1)); [lra|].
      apply Qpower_le_compat_l; [lia | lra].
    + rewrite <- (scale_back (2 ^ binade y) uy) at 1.
      apply Qmult_le_compat_r; [|lra].
      rewrite pow2_on_grid by lia. rewrite <- Zle_Qle.
      apply Z.le_trans
        with (round_half_even (inject_Z (2 ^ (binade y - uy))));
        [by rewrite round_half_even_integer|].
      apply round_half_even_monotone. rewrite <- pow2_on_grid by lia.
      by apply scale_le.
Qed.

Lemma round_magnitude_upper (x : Q) : 0 <= x -> round_magnitude x <= 2 * x.
Proof.
  intros Hx. unfold round_magnitude. set (u := ulp_exponent x).
  pose proof (pow2_pos u) as Hu.
  pose proof (round_half_even_near (x / 2 ^ u)) as [Hn0 Hn1].
  assert (0 <= x / 2 ^ u) as Ht by (by apply Qle_shift_div_l; [|lra]).
  set (t := x / 2 ^ u) in *. set (k := round_half_even t) in *.
  assert (inject_Z k <= 2 * t) as Hk.
  { destruct (Qlt_le_dec t (1 # 2)) as [Hsmall | Hbig]; [|lra].
    assert (inject_Z k < inject_Z 1) as Hk1
      by (change (inject_Z 1) with 1; lra).
    rewrite <- Zlt_Qlt in Hk1.
    assert (inject_Z k <= inject_Z 0) as Hk0 by (rewrite <- Zle_Qle; lia).
    change (inject_Z 0) with 0 in Hk0. lra. }
  assert (x == t * 2 ^ u) as Hxt by (symmetry; apply scale_back).
  clearbody k t. rewrite Hxt. nra.
Qed.

(** *** The laws of rounding, for binary64 *)

Lemma binary64_nonneg (x : Q) : 0 <= x -> @rnd binary64 x = round_magnitude x.
Proof.
  intros Hx. unfold rnd, binary64.
  by rewrite (proj2 (Qle_bool_iff 0 x) Hx).
Qed.

Lemma binary64_neg (x : Q) :
  x < 0 -> @rnd binary64 x = - round_magnitude (- x).
Proof.
  intros Hx. unfold rnd, binary64.
  destruct (Qle_bool 0 x) eqn:Hc; [|done].
  apply Qle_bool_iff in Hc. lra.
Qed.

Lemma binary64_laws : @RoundingLaws binary64.
Proof.
  split.
  - intros x y Hxy.
    destruct (Qlt_le_dec x 0) as [Hx | Hx], (Qlt_le_dec y 0) as [Hy | Hy].
    + rewrite (binary64_neg x Hx), (binary64_neg y Hy).
      apply Qopp_le_compat. apply round_magnitude_monotone; lra.
    + rewrite (binary64_neg x Hx), (binary64_nonneg y Hy).
      pose proof (round_magnitude_nonneg (- x) ltac:(lra)).
      pose proof (round_magnitude_nonneg y Hy). lra.
    + lra.
    + rewrite (binary64_nonneg x Hx), (binary64_nonneg y Hy).
      by apply round_magnitude_monotone.
  - intros m e Hm He. pose proof (pow2_pos e) as Hpe.
    destruct (Z.lt_trichotomy m 0) as [Hneg | [-> | Hpos]].
    + assert (inject_Z m < inject_Z 0) as Hmq by (by rewrite <- Zlt_Qlt).
      change (inject_Z 0) with 0 in Hmq.
      rewrite binary64_neg by nra.
      rewrite (round_magnitude_exact _ (- m) e); [ring | lia | lia |].
      rewrite inject_Z_opp. ring.
    + rewrite binary64_nonneg by (change (inject_Z 0) with 0; lra).
      rewrite round_magnitude_zero; ring.
    + assert (inject_Z 0 < inject_Z m) as Hmq by (by rewrite <- Zlt_Qlt).
      change (inject_Z 0) with 0 in Hmq.
      rewrite binary64_nonneg by nra.
      apply (round_magnitude_exact _ m e); [lia | lia | reflexivity].
  - intros x. destruct (Qlt_le_dec x 0) as [Hx | Hx].
    + rewrite (binary64_neg x Hx).
      pose proof (round_magnitude_nonneg (- x) ltac:(lra)) as Hr.
      destruct (round_magnitude_format (- x) ltac:(lra))
        as [H0 | (m & e & Hm & He & Hme)].
      * rewrite binary64_nonneg by lra.
        rewrite round_magnitude_zero; lra.
      * assert (inject_Z 0 < inject_Z m) as Hmq by (rewrite <- Zlt_Qlt; lia).
        change (inject_Z 0) with 0 in Hmq.
        pose proof (pow2_pos e) as Hpe.
        rewrite binary64_neg by nra.
        rewrite (round_magnitude_exact _ m e); [ring | done | done |].
        rewrite Hme. ring.
    + rewrite (binary64_nonneg x Hx).
      pose proof (round_magnitude_nonneg x Hx) as Hr.
      rewrite binary64_nonneg by done.
      destruct (round_magnitude_format x Hx) as [H0 | (m & e & Hm & He & Hme)].
      * rewrite round_magnitude_zero; lra.
      * by apply (round_magnitude_exact _ m e).
  - intros x Hx. rewrite (binary64_nonneg x Hx). by apply round_magnitude_upper.
  - intros x Hx. destruct (Qeq_dec x 0) as [H0 | Hne].
    + rewrite binary64_nonneg by lra. rewrite round_magnitude_zero; lra.
    + assert (x < 0) as Hneg
        by (apply Qle_lteq in Hx as [? | Heq]; [done | by destruct Hne]).
      rewrite (binary64_neg x Hneg).
      pose proof (round_magnitude_upper (- x) ltac:(lra)). lra.
Qed.

(** The float nearest to one tenth is [3602879701896397 * 2 ^ -55], and
    a number of the format is its own rounding. *)
Example binary64_tenth :
  @rnd binary64 0.1 == inject_Z 3602879701896397 * 2 ^ (-55)
  /\ @rnd binary64 3.125 == 3.125
  /\ @rnd binary64 (- (1 # 3)) == - (inject_Z 6004799503160661 * 2 ^ (-54)).
Proof. by vm_compute. Qed.

(** *** Consequences of the laws *)

Section RoundingFacts.

Context {R : Rounding} (HR : RoundingLaws).

Lemma rnd_proper (x y : Q) : x == y -> rnd x == rnd y.
Proof.
  intros Hxy. apply Qle_antisym; apply (rnd_monotone HR); rewrite Hxy;
    apply Qle_refl.
Qed.

(** An integer of the format, written as a rational. *)
Lemma rnd_integer (z : Z) :
  (Z.abs z < 2 ^ 53)%Z -> rnd (inject_Z z) == inject_Z z.
Proof.
  intros Hz. pose proof (rnd_representable HR z 0 Hz ltac:(lia)) as Hrep.
  assert (inject_Z z * 2 ^ 0 == inject_Z z) as Heq by (simpl; ring).
  rewrite <- Heq at 2. rewrite <- Hrep. apply rnd_proper. by rewrite Heq.
Qed.

Lemma rnd_0 : rnd 0 == 0.
Proof. apply (rnd_integer 0). done. Qed.

Lemma rnd_nonneg (x : Q) : 0 <= x -> 0 <= rnd x.
Proof. intros Hx. rewrite <- rnd_0. by apply (rnd_monotone HR). Qed.

Lemma rnd_nonpos (x : Q) : x <= 0 -> rnd x <= 0.
Proof. intros Hx. rewrite <- rnd_0. by apply (rnd_monotone HR). Qed.

(** Rounding does not cross an integer of the format. *)
Lemma rnd_le_integer (x : Q) (z : Z) :
  (Z.abs z < 2 ^ 53)%Z -> x <= inject_Z z -> rnd x <= inject_Z z.
Proof.
  intros Hz Hx. rewrite <- (rnd_integer z Hz). by apply (rnd_monotone HR).
Qed.

(** The literal [3.125] is a number of the format. *)
Lemma float_3_125 : float 3.125 == 3.125.
Proof.
  unfold float.
  pose proof (rnd_representable HR 25 (-3) ltac:(done) ltac:(lia)) as Hrep.
  assert (inject_Z 25 * 2 ^ (-3) == 3.125) as Heq by reflexivity.
  rewrite <- Heq at 2. rewrite <- Hrep. apply rnd_proper. by rewrite Heq.
Qed.

(** The result of an operation is a number of the format. *)
Lemma is_float_rnd (x : Q) : is_float (rnd x).
Proof. apply (rnd_idempotent HR). Qed.

(** The speed after one DC plant update, from a speed and a signal
    within their ranges. *)
Lemma dc_speed_step (x s : Q) :
  0 <= x <= 1500 -> 0 <= s <= 1 ->
  0 <= x ⊕ (s ⊗ 480 ⊗ float 3.125 ⊖ x) ⊘ 10 <= 1500.
Proof.
  intros [Hx0 Hx1] [Hs0 Hs1]. unfold fadd, fsub, fmul, fdiv.
  set (a := rnd (s * 480)).
  assert (0 <= a <= 480) as [Ha0 Ha1].
  { split; [apply rnd_nonneg; lra|].
    apply (rnd_le_integer _ 480); [done | unfold inject_Z; lra]. }
  assert (0 <= rnd (a * float 3.125) <= 1500) as [Hb0 Hb1].
  { rewrite (rnd_proper (a * float 3.125) (a * 3.125))
      by (by rewrite float_3_125).
    split; [apply rnd_nonneg; lra|].
    apply (rnd_le_integer _ 1500); [done | unfold inject_Z; lra]. }
  remember (rnd (a * float 3.125)) as b eqn:Hb. clear Hb.
  set (c := rnd (b - x)). set (d := rnd (c / 10)).
  assert (0 <= x + d <= 1500) as [Hd0 Hd1].
  { destruct (Qlt_le_dec (b - x) 0) as [Hneg | Hpos].
    - assert (2 * (b - x) <= c <= 0) as [Hc0 Hc1]
        by (split; [apply (rnd_lower HR) | apply rnd_nonpos]; lra).
      assert (c / 10 <= 0) as Hq
        by (unfold Qdiv; change (/ 10) with (1 # 10); lra).
      assert (2 * (c / 10) <= d <= 0) as [Hq0 Hq1]
        by (split; [by apply (rnd_lower HR) | by apply rnd_nonpos]).
      unfold Qdiv in Hq0. change (/ 10) with (1 # 10) in Hq0. split; lra.
    - assert (0 <= c <= 2 * (b - x)) as [Hc0 Hc1]
        by (split; [by apply rnd_nonneg | by apply (rnd_upper HR)]).
      assert (0 <= c / 10) as Hq
        by (unfold Qdiv; change (/ 10) with (1 # 10); lra).
      assert (0 <= d <= 2 * (c / 10)) as [Hq0 Hq1]
        by (split; [by apply rnd_nonneg | by apply (rnd_upper HR)]).
      unfold Qdiv in Hq1. change (/ 10) with (1 # 10) in Hq1. split; lra. }
  split; [by apply rnd_nonneg|].
  by apply (rnd_le_integer _ 1500).
Qed.

(** The number [uniform(0, 0.001)] returns is not negative. *)
Lemma wear_nonneg (u : Q) : 0 <= u -> 0 <= 0 ⊕ (float 0.001 ⊖ 0) ⊗ u.
Proof.
  intros Hu. unfold fadd, fsub, fmul, float.
  assert (0 <= rnd 0.001) as H1 by (apply rnd_nonneg; lra).
  assert (0 <= rnd (rnd 0.001 - 0)) as H2 by (apply rnd_nonneg; lra).
  assert (0 <= rnd (rnd (rnd 0.001 - 0) * u)) as H3.
  { apply rnd_nonneg. by apply Qmult_le_0_compat. }
  apply rnd_nonneg. lra.
Qed.

(** Subtracting a number that is not negative from a float does not
    give more. *)
Lemma fsub_le (x w : Q) : is_float x -> 0 <= w -> x ⊖ w <= x.
Proof.
  intros Hx Hw. unfold fsub, is_float in *.
  apply Qle_trans with (rnd x); [apply (rnd_monotone HR); lra|].
  rewrite Hx. apply Qle_refl.
Qed.

End RoundingFacts.

(** ** Controllers and plant updates *)

Lemma clip_range (a a_min a_max : Q) :
  a_min <= a_max -> a_min <= clip a a_min a_max <= a_max.
Proof.
  intros Hle. unfold clip. split.
  - apply Q.min_glb; [apply Q.le_max_r | exact Hle].
  - apply Q.le_min_r.
Qed.

Lemma bind_run {A B} (m : Sim A) (k : A -> Sim B) (st st' : Store) (a : A) :
  m st = Ok (a, st') -> (m ≫= k) st = k a st'.
Proof. intros H. unfold mbind, Sim_bind. by rewrite H. Qed.

Section Motors.

Context {R : Rounding}.

(** The number drawn by [uniform], and the store after the draw. *)
Lemma uniform_value (a b : Q) (st : Store) :
  uniform a b st
  = Ok (a ⊕ (b ⊖ a) ⊗ random_state st 0%nat,
        {| random_state := fun k => random_state st (S k);
           motor_logs := motor_logs st |}).
Proof. reflexivity. Qed.

(** What one DC plant update computes. *)
Lemma DC_update_motor_run (m : DCMotor.t) (s : Q) (st : Store) :
  DCMotor.update_motor m s st
  = Ok ({| DCMotor.base :=
             {| motor_id := motor_id (DCMotor.base m);
                voltage := voltage (DCMotor.base m);
                current := s ⊗ 10;
                speed := speed (DCMotor.base m)
                         ⊕ (s ⊗ 480 ⊗ float 3.125 ⊖ speed (DCMotor.base m))
                            ⊘ 10;
                torque := s ⊗ 10 ⊗ float 0.5;
                efficiency :=
                  efficiency (DCMotor.base m)
                  ⊖ (0 ⊕ (float 0.001 ⊖ 0) ⊗ random_state st 1%nat);
                temperature :=
                  temperature (DCMotor.base m)
                  ⊕ (s ⊗ float 0.1
                      ⊕ (- float 0.05
                          ⊕ (float 0.05 ⊖ - float 0.05)
                             ⊗ random_state st 0%nat));
                operating_hours := (operating_hours (DCMotor.base m) + 1)%Z |};
           DCMotor.controller_gain := DCMotor.controller_gain m;
           DCMotor.integral_gain := DCMotor.integral_gain m;
           DCMotor.integral_error := DCMotor.integral_error m |},
        after_two_draws st).
Proof.
  unfold DCMotor.update_motor. cbv zeta.
  erewrite bind_run by apply uniform_value.
  erewrite bind_run by apply uniform_value.
  reflexivity.
Qed.

(** What one AC plant update computes. *)
Lemma AC_update_motor_run (m : ACMotor.t) (s : Q) (st : Store) :
  ACMotor.update_motor m s st
  = Ok ({| ACMotor.base :=
             {| motor_id := motor_id (ACMotor.base m);
                voltage := voltage (ACMotor.base m);
                current := ACMotor.frequency m ⊘ 60 ⊗ 10;
                speed := speed (ACMotor.base m)
                         ⊕ (ACMotor.frequency m ⊗ 30 ⊖ speed (ACMotor.base m))
                            ⊘ 10;
                torque := ACMotor.frequency m ⊘ 60 ⊗ 10 ⊗ float 0.5;
                efficiency :=
                  efficiency (ACMotor.base m)
                  ⊖ (0 ⊕ (float 0.001 ⊖ 0) ⊗ random_state st 1%nat);
                temperature :=
                  temperature (ACMotor.base m)
                  ⊕ (ACMotor.frequency m ⊘ 60 ⊗ float 0.1
                      ⊕ (- float 0.05
                          ⊕ (float 0.05 ⊖ - float 0.05)
                             ⊗ random_state st 0%nat));
                operating_hours := (operating_hours (ACMotor.base m) + 1)%Z |};
           ACMotor.base_frequency := ACMotor.base_frequency m;
           ACMotor.controller_gain := ACMotor.controller_gain m;
           ACMotor.integral_gain := ACMotor.integral_gain m;
           ACMotor.integral_error := ACMotor.integral_error m;
           ACMotor.frequency := ACMotor.frequency m |},
        after_two_draws st).
Proof.
  unfold ACMotor.update_motor. cbv zeta.
  erewrite bind_run by apply uniform_value.
  erewrite bind_run by apply uniform_value.
  reflexivity.
Qed.

(** C2: for the actuation signal [s] the controller returns, one DC
    plant update gives [speed' = speed + (s*480*3.125 - speed)/10],
    [current' = s*10], [torque' = current'*0.5] and
    [operating_hours' = operating_hours + 1], the temperature rises by
    [s*0.1] plus a jitter drawn by [uniform(-0.05, 0.05)] and the
    efficiency drops by a number drawn by [uniform(0, 0.001)]; one AC
    plant update is driven by the frequency the controller stored:
    [speed' = speed + (frequency*30 - speed)/10] and
    [current' = (frequency/60)*10], with the same torque, temperature,
    efficiency and operating-hours rules. The operations are those of
    float arithmetic, in the order the source writes them. *)
Theorem update_motor_dynamics :
  (forall (m : DCMotor.t) (target_speed : Q) (st : Store),
     let s := fst (DCMotor.control m target_speed) in
     let m1 := snd (DCMotor.control m target_speed) in
     let u1 := random_state st 0%nat in
     let u2 := random_state st 1%nat in
     exists m2 st2,
       DCMotor.update_motor m1 s st = Ok (m2, st2)
       /\ speed (DCMotor.base m2)
          = speed (DCMotor.base m)
            ⊕ (s ⊗ 480 ⊗ float 3.125 ⊖ speed (DCMotor.base m)) ⊘ 10
       /\ current (DCMotor.base m2) = s ⊗ 10
       /\ torque (DCMotor.base m2) = current (DCMotor.base m2) ⊗ float 0.5
       /\ operating_hours (DCMotor.base m2)
          = (operating_hours (DCMotor.base m) + 1)%Z
       /\ temperature (DCMotor.base m2)
          = temperature (DCMotor.base m)
            ⊕ (s ⊗ float 0.1
                ⊕ (- float 0.05 ⊕ (float 0.05 ⊖ - float 0.05) ⊗ u1))
       /\ efficiency (DCMotor.base m2)
          = efficiency (DCMotor.base m) ⊖ (0 ⊕ (float 0.001 ⊖ 0) ⊗ u2))
  /\
  (forall (m : ACMotor.t) (target_speed : Q) (st : Store),
     let s := fst (ACMotor.control m target_speed) in
     let m1 := snd (ACMotor.control m target_speed) in
     let frequency := ACMotor.frequency m1 in
     let u1 := random_state st 0%nat in
     let u2 := random_state st 1%nat in
     exists m2 st2,
       ACMotor.update_motor m1 s st = Ok (m2, st2)
       /\ s = frequency ⊘ 60
       /\ speed (ACMotor.base m2)
          = speed (ACMotor.base m)
            ⊕ (frequency ⊗ 30 ⊖ speed (ACMotor.base m)) ⊘ 10
       /\ current (ACMotor.base m2) = frequency ⊘ 60 ⊗ 10
       /\ torque (ACMotor.base m2) = current (ACMotor.base m2) ⊗ float 0.5
       /\ operating_hours (ACMotor.base m2)
          = (operating_hours (ACMotor.base m) + 1)%Z
       /\ temperature (ACMotor.base m2)
          = temperature (ACMotor.base m)
            ⊕ (frequency ⊘ 60 ⊗ float 0.1
                ⊕ (- float 0.05 ⊕ (float 0.05 ⊖ - float 0.05) ⊗ u1))
       /\ efficiency (ACMotor.base m2)
          = efficiency (ACMotor.base m) ⊖ (0 ⊕ (float 0.001 ⊖ 0) ⊗ u2)).
Proof.
  split; intros m target_speed st s m1 u1 u2.
  - eexists _, _. split; [apply DC_update_motor_run|]. repeat split.
  - eexists _, _. split; [apply AC_update_motor_run|]. repeat split.
Qed.

(** The clamps of the two controllers. *)
Lemma control_signal_range :
  (forall (m : DCMotor.t) (target_speed : Q),
     0 <= fst (DCMotor.control m target_speed) <= 1)
  /\
  (forall (m : ACMotor.t) (target_speed : Q),
     40 <= ACMotor.frequency (snd (ACMotor.control m target_speed)) <= 60).
Proof.
  split; intros m target_speed; simpl; by apply clip_range.
Qed.

(** [control] touches neither the identity nor the plant attributes
    the update reads. *)
Lemma control_keeps_plant :
  (forall (m : DCMotor.t) (target_speed : Q),
     motor_id (DCMotor.base (snd (DCMotor.control m target_speed)))
     = motor_id (DCMotor.base m)
     /\ speed (DCMotor.base (snd (DCMotor.control m target_speed)))
        = speed (DCMotor.base m)
     /\ efficiency (DCMotor.base (snd (DCMotor.control m target_speed)))
        = efficiency (DCMotor.base m))
  /\
  (forall (m : ACMotor.t) (target_speed : Q),
     ACMotor.base (snd (ACMotor.control m target_speed)) = ACMotor.base m).
Proof. split; [split; [|split]|]; reflexivity. Qed.

(** C3: for every controller state and every target speed, the signal
    the DC controller returns lies in [[0, 1]]; the frequency the AC
    controller stores lies in [[40, 60]] and the signal it returns is
    that frequency divided by 60. Both [control] functions are total:
    no statement of their bodies can raise. *)
Theorem control_signal_clamped :
  (forall (m : DCMotor.t) (target_speed : Q),
     0 <= fst (DCMotor.control m target_speed) <= 1)
  /\
  (forall (m : ACMotor.t) (target_speed : Q),
     let r := ACMotor.control m target_speed in
     40 <= ACMotor.frequency (snd r) <= 60
     /\ fst r = ACMotor.frequency (snd r) ⊘ 60).
Proof.
  split.
  - apply control_signal_range.
  - intros m target_speed. split; [apply control_signal_range | reflexivity].
Qed.

(** C7, amended: [control] adds the error to the integral accumulator
    and writes one more attribute, the voltage ([signal * 480]) on a DC
    motor and the frequency (the clamped value) on an AC motor; the
    identity, current, speed, torque, efficiency, temperature,
    operating hours and the gains keep their values (on an AC motor the
    voltage and the base frequency too). *)
Theorem control_frame :
  (forall (m : DCMotor.t) (target_speed : Q),
     let s := fst (DCMotor.control m target_speed) in
     let m' := snd (DCMotor.control m target_speed) in
     DCMotor.integral_error m'
     = DCMotor.integral_error m ⊕ (target_speed ⊖ speed (DCMotor.base m))
     /\ voltage (DCMotor.base m') = s ⊗ 480
     /\ motor_id (DCMotor.base m') = motor_id (DCMotor.base m)
     /\ current (DCMotor.base m') = current (DCMotor.base m)
     /\ speed (DCMotor.base m') = speed (DCMotor.base m)
     /\ torque (DCMotor.base m') = torque (DCMotor.base m)
     /\ efficiency (DCMotor.base m') = efficiency (DCMotor.base m)
     /\ temperature (DCMotor.base m') = temperature (DCMotor.base m)
     /\ operating_hours (DCMotor.base m') = operating_hours (DCMotor.base m)
     /\ DCMotor.controller_gain m' = DCMotor.controller_gain m
     /\ DCMotor.integral_gain m' = DCMotor.integral_gain m)
  /\
  (forall (m : ACMotor.t) (target_speed : Q),
     let s := fst (ACMotor.control m target_speed) in
     let m' := snd (ACMotor.control m target_speed) in
     ACMotor.integral_error m'
     = ACMotor.integral_error m ⊕ (target_speed ⊖ speed (ACMotor.base m))
     /\ ACMotor.frequency m'
        = clip (ACMotor.base_frequency m
                ⊕ ACMotor.controller_gain m
                   ⊗ (target_speed ⊖ speed (ACMotor.base m))
                ⊕ ACMotor.integral_gain m ⊗ ACMotor.integral_error m') 40 60
     /\ s = ACMotor.frequency m' ⊘ 60
     /\ ACMotor.base m' = ACMotor.base m
     /\ ACMotor.base_frequency m' = ACMotor.base_frequency m
     /\ ACMotor.controller_gain m' = ACMotor.controller_gain m
     /\ ACMotor.integral_gain m' = ACMotor.integral_gain m).
Proof. split; intros m target_speed; repeat split. Qed.

End Motors.

(** C7 as stated fails: on a fresh DC motor one [control] call also
    rewrites the voltage (0 becomes 480), and on a fresh AC motor it
    rewrites the frequency (50 becomes 60). *)
Lemma control_writes_more_than_integral_error :
  let R := binary64 in
  let dc := DCMotor.init "Line_1_M0_DC" in
  let ac := ACMotor.init "Line_1_M0_AC" in
  (voltage (DCMotor.base dc) == 0
   /\ voltage (DCMotor.base (snd (DCMotor.control dc 1079))) == 480
   /\ ~ voltage (DCMotor.base (snd (DCMotor.control dc 1079)))
        == voltage (DCMotor.base dc))
  /\ (ACMotor.frequency ac == 50
      /\ ACMotor.frequency (snd (ACMotor.control ac 1172)) == 60
      /\ ~ ACMotor.frequency (snd (ACMotor.control ac 1172))
           == ACMotor.frequency ac).
Proof. vm_compute. by repeat split. Qed.

(** ** Efficiency and speed along a run *)

Lemma random_in_unit_interval_two_draws (st : Store) :
  random_in_unit_interval st -> random_in_unit_interval (after_two_draws st).
Proof. intros H k. apply (H (S (S k))). Qed.

(** A run of steps that each return and keep an invariant of the store
    and of the object returns one state per input, and consecutive
    states are related as each step relates them. *)
Lemma run_steps_related {S I} (step : S -> I -> Sim S)
    (inv : Store -> Prop) (good : S -> Prop) (rel : S -> S -> Prop) :
  (forall s i st, inv st -> good s ->
     exists s' st',
       step s i st = Ok (s', st') /\ inv st' /\ good s' /\ rel s s') ->
  forall (inputs : list I) (s : S) (st : Store),
    inv st -> good s ->
    exists trace st',
      run_steps step inputs s st = Ok (trace, st')
      /\ length trace = length inputs
      /\ forall (t : nat) (a b : S),
           (s :: trace) !! t = Some a -> (s :: trace) !! Datatypes.S t = Some b ->
           rel a b.
Proof.
  intros Hstep inputs.
  induction inputs as [|i inputs IH]; intros s st Hinv Hgood.
  - exists [], st. split; [reflexivity|]. split; [reflexivity|].
    intros t a b _ Hb. by destruct t.
  - destruct (Hstep s i st Hinv Hgood) as (s' & st1 & Hrun & Hinv1 & Hgood1 & Hrel).
    destruct (IH s' st1 Hinv1 Hgood1) as (trace & st2 & Hrest & Hlen & Htrace).
    exists (s' :: trace), st2. split; [|split].
    + simpl. erewrite bind_run by exact Hrun.
      erewrite bind_run by exact Hrest. reflexivity.
    + simpl. by rewrite Hlen.
    + intros [|t] a b Ha Hb; simpl in *.
      * by simplify_eq.
      * by eapply Htrace.
Qed.

Section Runs.

Context {R : Rounding} (HR : RoundingLaws).

(** A call of either method of a DC motor returns, keeps the draws in
    range and the efficiency a float, and does not raise the
    efficiency. *)
Lemma DC_invoke_efficiency (m : DCMotor.t) (c : method_call) (st : Store) :
  random_in_unit_interval st -> is_float (efficiency (DCMotor.base m)) ->
  exists m' st',
    DCMotor.invoke m c st = Ok (m', st')
    /\ random_in_unit_interval st'
    /\ is_float (efficiency (DCMotor.base m'))
    /\ efficiency (DCMotor.base m') <= efficiency (DCMotor.base m).
Proof.
  intros Hrnd Hfloat. destruct c as [target_speed | control_signal]; simpl.
  - eexists _, _. split; [reflexivity|]. split; [done|].
    split; [exact Hfloat | apply Qle_refl].
  - rewrite DC_update_motor_run. eexists _, _. split; [reflexivity|].
    split; [by apply random_in_unit_interval_two_draws|]. simpl.
    split; [by apply is_float_rnd|].
    apply fsub_le; [done | done |]. apply wear_nonneg; [done|].
    apply (Hrnd 1%nat).
Qed.

Lemma AC_invoke_efficiency (m : ACMotor.t) (c : method_call) (st : Store) :
  random_in_unit_interval st -> is_float (efficiency (ACMotor.base m)) ->
  exists m' st',
    ACMotor.invoke m c st = Ok (m', st')
    /\ random_in_unit_interval st'
    /\ is_float (efficiency (ACMotor.base m'))
    /\ efficiency (ACMotor.base m') <= efficiency (ACMotor.base m).
Proof.
  intros Hrnd Hfloat. destruct c as [target_speed | control_signal]; simpl.
  - eexists _, _. split; [reflexivity|]. split; [done|].
    split; [exact Hfloat | apply Qle_refl].
  - rewrite AC_update_motor_run. eexists _, _. split; [reflexivity|].
    split; [by apply random_in_unit_interval_two_draws|]. simpl.
    split; [by apply is_float_rnd|].
    apply fsub_le; [done | done |]. apply wear_nonneg; [done|].
    apply (Hrnd 1%nat).
Qed.

(** C4: for every motor, DC or AC, and every sequence of calls of its
    methods (plant updates, with control calls in between or not), each
    call returns and the efficiency after step [t+1] is at most the
    efficiency after step [t]; the efficiency the run starts from is a
    float and the numbers drawn from [random.random()] are in
    [[0, 1)]. *)
Theorem efficiency_never_increases :
  (forall (calls : list method_call) (m : DCMotor.t) (st : Store),
     random_in_unit_interval st -> is_float (efficiency (DCMotor.base m)) ->
     exists trace st',
       run_steps DCMotor.invoke calls m st = Ok (trace, st')
       /\ length trace = length calls
       /\ forall (t : nat) (a b : DCMotor.t),
            (m :: trace) !! t = Some a -> (m :: trace) !! S t = Some b ->
            efficiency (DCMotor.base b) <= efficiency (DCMotor.base a))
  /\
  (forall (calls : list method_call) (m : ACMotor.t) (st : Store),
     random_in_unit_interval st -> is_float (efficiency (ACMotor.base m)) ->
     exists trace st',
       run_steps ACMotor.invoke calls m st = Ok (trace, st')
       /\ length trace = length calls
       /\ forall (t : nat) (a b : ACMotor.t),
            (m :: trace) !! t = Some a -> (m :: trace) !! S t = Some b ->
            efficiency (ACMotor.base b) <= efficiency (ACMotor.base a)).
Proof.
  split; intros calls m st Hrnd Hfloat.
  - apply (run_steps_related DCMotor.invoke random_in_unit_interval
             (fun a => is_float (efficiency (DCMotor.base a)))
             (fun a b => efficiency (DCMotor.base b) <= efficiency (DCMotor.base a)));
      [|done|done].
    intros s c st0 H0 H1. by apply DC_invoke_efficiency.
  - apply (run_steps_related ACMotor.invoke random_in_unit_interval
             (fun a => is_float (efficiency (ACMotor.base a)))
             (fun a b => efficiency (ACMotor.base b) <= efficiency (ACMotor.base a)));
      [|done|done].
    intros s c st0 H0 H1. by apply AC_invoke_efficiency.
Qed.

(** One control-then-update cycle of a DC motor returns and keeps the
    speed within [[0, 1500]]. *)
Lemma DC_cycle_speed (m : DCMotor.t) (target_speed : Q) (st : Store) :
  0 <= speed (DCMotor.base m) <= 1500 ->
  exists m' st',
    DCMotor.control_then_update m target_speed st = Ok (m', st')
    /\ 0 <= speed (DCMotor.base m') <= 1500.
Proof.
  intros Hspeed. unfold DCMotor.control_then_update.
  pose proof (proj1 control_signal_range m target_speed) as Hs.
  pose proof (proj1 control_keeps_plant m target_speed) as (_ & Hsame & _).
  destruct (DCMotor.control m target_speed) as [s m1].
  simpl in Hs, Hsame.
  rewrite DC_update_motor_run. eexists _, _. split; [reflexivity|].
  simpl. rewrite Hsame. by apply dc_speed_step.
Qed.

(** C10: starting from a freshly constructed DC motor (speed 0), every
    control-then-update cycle returns, whatever the target speeds, and
    the speed after each cycle lies in [[0, 1500]]. *)
Theorem dc_speed_bounded (motor_id : string) (targets : list Q) (st : Store) :
  exists trace st',
    run_steps DCMotor.control_then_update targets (DCMotor.init motor_id) st
    = Ok (trace, st')
    /\ length trace = length targets
    /\ forall m : DCMotor.t, m ∈ trace -> 0 <= speed (DCMotor.base m) <= 1500.
Proof.
  assert (forall (inputs : list Q) (m0 : DCMotor.t) (st0 : Store),
            0 <= speed (DCMotor.base m0) <= 1500 ->
            exists trace st',
              run_steps DCMotor.control_then_update inputs m0 st0 = Ok (trace, st')
              /\ length trace = length inputs
              /\ forall m : DCMotor.t, m ∈ trace ->
                   0 <= speed (DCMotor.base m) <= 1500) as Hgen.
  { intros inputs. induction inputs as [|target inputs IH]; intros m0 st0 H0.
    - exists [], st0. split; [reflexivity|]. split; [reflexivity|].
      intros m Hm. by apply elem_of_nil in Hm.
    - destruct (DC_cycle_speed m0 target st0 H0) as (m1 & st1 & Hrun & H1).
      destruct (IH m1 st1 H1) as (trace & st2 & Hrest & Hlen & Hall).
      exists (m1 :: trace), st2. split; [|split].
      + simpl. erewrite bind_run by exact Hrun.
        erewrite bind_run by exact Hrest. reflexivity.
      + simpl. by rewrite Hlen.
      + intros m Hm. apply elem_of_cons in Hm as [-> | Hm]; [done | by apply Hall]. }
  apply Hgen. simpl. split; lra.
Qed.

End Runs.

(** ** The shared log *)

Local Open Scope Z_scope.

Lemma logs_append_run (id key : string) (arg : outcome value) (v : value)
    (st : Store) (entry : gmap string (list value)) (series : list value) :
  motor_logs st !! id = Some entry -> entry !! key = Some series -> arg = Ok v ->
  logs_append id key arg st
  = Ok (tt, set_motor_logs (<[id := <[key := series ++ [v]]> entry]> (motor_logs st)) st).
Proof.
  intros Hid Hkey ->. unfold logs_append, dict_getitem. by rewrite Hid, Hkey.
Qed.

Lemma entry_length_lookup (n : nat) (entry : gmap string (list value)) (key : string) :
  entry_length n entry -> key ∈ log_keys ->
  exists series, entry !! key = Some series /\ length series = n.
Proof.
  intros [Hdom Hlen] Hkey.
  assert (key ∈ dom entry) as Hin by (rewrite Hdom; by apply elem_of_list_to_set).
  apply elem_of_dom in Hin as [series Hs]. eauto.
Qed.

Lemma entry_length_new : entry_length 0 new_log_entry.
Proof.
  split.
  - unfold new_log_entry. rewrite dom_list_to_map_L. reflexivity.
  - intros key series. unfold new_log_entry. simpl.
    intros H. repeat (apply lookup_insert_Some in H as [[_ <-] | [_ H]]; [done|]).
    done.
Qed.

Lemma entry_length_appended (n : nat) (entry : gmap string (list value))
    (s1 s2 s3 s4 s5 s6 s7 : list value) (v1 v2 v3 v4 v5 v6 v7 : value) :
  entry_length n entry ->
  entry !! "cycle" = Some s1 -> entry !! "speed" = Some s2 ->
  entry !! "temperature" = Some s3 -> entry !! "efficiency" = Some s4 ->
  entry !! "current" = Some s5 -> entry !! "torque" = Some s6 ->
  entry !! "reference" = Some s7 ->
  entry_length (S n)
    (<["reference" := s7 ++ [v7]]> (<["torque" := s6 ++ [v6]]>
       (<["current" := s5 ++ [v5]]> (<["efficiency" := s4 ++ [v4]]>
          (<["temperature" := s3 ++ [v3]]> (<["speed" := s2 ++ [v2]]>
             (<["cycle" := s1 ++ [v1]]> entry))))))).
Proof.
  intros [Hdom Hlen] H1 H2 H3 H4 H5 H6 H7. split.
  - rewrite !dom_insert_L, Hdom. apply set_eq. intros key.
    rewrite !elem_of_union, !elem_of_singleton, elem_of_list_to_set.
    unfold log_keys. rewrite !elem_of_cons. tauto.
  - intros key series H.
    repeat (apply lookup_insert_Some in H as [[_ <-] | [? H]];
            [rewrite length_app; simpl; erewrite Hlen by eassumption; lia|]).
    assert (key ∈ dom entry) as Hin by (apply elem_of_dom; eauto).
    rewrite Hdom in Hin. apply elem_of_list_to_set in Hin.
    repeat (apply elem_of_cons in Hin as [-> | Hin]; [done|]).
    by apply elem_of_nil in Hin.
Qed.

Lemma logs_shape_insert (logs : gmap string (gmap string (list value)))
    (shape : gmap string nat) (id : string) (entry : gmap string (list value)) :
  logs_shape logs shape ->
  entry_length (S (default 0%nat (shape !! id))) entry ->
  logs_shape (<[id := entry]> logs) (bump shape id).
Proof.
  intros Hshape Hentry id'. unfold bump.
  destruct (decide (id = id')) as [<- | Hne].
  - by rewrite !lookup_insert_eq.
  - rewrite !lookup_insert_ne by done. apply Hshape.
Qed.

Lemma log_sample_shape (id : string) (v1 v2 v3 v4 v5 v6 v7 : value)
    (logs : gmap string (gmap string (list value))) (shape : gmap string nat) :
  logs_shape logs shape ->
  logs_shape (log_sample id v1 v2 v3 v4 v5 v6 v7 logs) (bump shape id).
Proof.
  intros Hshape. unfold log_sample.
  set (entry := default new_log_entry (logs !! id)).
  assert (entry_length (default 0%nat (shape !! id)) entry) as Hentry.
  { subst entry. pose proof (Hshape id) as Hid.
    destruct (logs !! id) as [e|], (shape !! id) as [m|]; simpl; try done.
    apply entry_length_new. }
  apply logs_shape_insert; [exact Hshape|].
  destruct (entry_length_lookup _ entry "cycle" Hentry) as (s1 & H1 & _);
    [unfold log_keys; repeat constructor|].
  destruct (entry_length_lookup _ entry "speed" Hentry) as (s2 & H2 & _);
    [unfold log_keys; repeat constructor|].
  destruct (entry_length_lookup _ entry "temperature" Hentry) as (s3 & H3 & _);
    [unfold log_keys; repeat constructor|].
  destruct (entry_length_lookup _ entry "efficiency" Hentry) as (s4 & H4 & _);
    [unfold log_keys; repeat constructor|].
  destruct (entry_length_lookup _ entry "current" Hentry) as (s5 & H5 & _);
    [unfold log_keys; repeat constructor|].
  destruct (entry_length_lookup _ entry "torque" Hentry) as (s6 & H6 & _);
    [unfold log_keys; repeat constructor|].
  destruct (entry_length_lookup _ entry "reference" Hentry) as (s7 & H7 & _);
    [unfold log_keys; repeat constructor|].
  rewrite H1, H2, H3, H4, H5, H6, H7. simpl.
  by apply entry_length_appended.
Qed.

Lemma log_block_run (id : string) (v1 v2 v3 v4 v5 v6 v7 : value)
    (st : Store) (shape : gmap string nat) :
  logs_shape (motor_logs st) shape ->
  forall (B : Type) (k : Sim B),
    (present ← logs_contains id;
     (if present : bool then mret tt else logs_setitem id new_log_entry);;
     logs_append id "cycle" (Ok v1);;
     logs_append id "speed" (Ok v2);;
     logs_append id "temperature" (Ok v3);;
     logs_append id "efficiency" (Ok v4);;
     logs_append id "current" (Ok v5);;
     logs_append id "torque" (Ok v6);;
     logs_append id "reference" (Ok v7);;
     k) st
    = k (set_motor_logs (log_sample id v1 v2 v3 v4 v5 v6 v7 (motor_logs st)) st).
Proof.
  intros Hshape B k. unfold log_sample.
  set (entry := default new_log_entry (motor_logs st !! id)).
  assert (exists n, entry_length n entry) as [n Hentry].
  { subst entry. pose proof (Hshape id) as Hid.
    destruct (motor_logs st !! id) as [e|], (shape !! id) as [m|]; simpl;
      try done; [by exists m | exists 0%nat; apply entry_length_new]. }
  assert (forall k' : Sim B,
            (present ← logs_contains id;
             (if present : bool then mret tt else logs_setitem id new_log_entry);;
             k') st = k' (set_motor_logs (<[id := entry]> (motor_logs st)) st))
    as Hstart.
  { intros k'. subst entry. unfold mbind, Sim_bind, logs_contains.
    destruct (motor_logs st !! id) as [e|] eqn:Hlook; simpl; [|done].
    rewrite insert_id by done. by destruct st. }
  destruct (entry_length_lookup _ entry "cycle" Hentry) as (s1 & H1 & _);
    [unfold log_keys; repeat constructor|].
  destruct (entry_length_lookup _ entry "speed" Hentry) as (s2 & H2 & _);
    [unfold log_keys; repeat constructor|].
  destruct (entry_length_lookup _ entry "temperature" Hentry) as (s3 & H3 & _);
    [unfold log_keys; repeat constructor|].
  destruct (entry_length_lookup _ entry "efficiency" Hentry) as (s4 & H4 & _);
    [unfold log_keys; repeat constructor|].
  destruct (entry_length_lookup _ entry "current" Hentry) as (s5 & H5 & _);
    [unfold log_keys; repeat constructor|].
  destruct (entry_length_lookup _ entry "torque" Hentry) as (s6 & H6 & _);
    [unfold log_keys; repeat constructor|].
  destruct (entry_length_lookup _ entry "reference" Hentry) as (s7 & H7 & _);
    [unfold log_keys; repeat constructor|].
  rewrite Hstart, H1, H2, H3, H4, H5, H6, H7. simpl default.
  repeat (erewrite bind_run;
    [| apply logs_append_run; [simpl; apply lookup_insert_eq | | reflexivity];
       rewrite ?lookup_insert_ne by done; first [apply lookup_insert_eq | eassumption]]).
  simpl. rewrite !insert_insert_eq. reflexivity.
Qed.

(** Projections of the records out of the setters, without unfolding
    the dictionary operations. *)
Ltac project_fields :=
  cbn [dc_motor ac_motor set_dc_motor set_ac_motor DCMotor.base ACMotor.base
       motor_id motor_logs set_motor_logs foldl] in *.

Section Log.

Context {R : Rounding}.

Variable hash : string -> Z.

Lemma monitor_status_speed (m : Motor) :
  dict_getitem (monitor_status m) "Speed (RPM)" = Ok (Float (round (speed m) 10)).
Proof. reflexivity. Qed.
Lemma monitor_status_temperature (m : Motor) :
  dict_getitem (monitor_status m) "Temperature (C)"
  = Ok (Float (round (temperature m) 2)).
Proof. reflexivity. Qed.
Lemma monitor_status_efficiency (m : Motor) :
  dict_getitem (monitor_status m) "Efficiency (%)"
  = Ok (Float (round (efficiency m) 2)).
Proof. reflexivity. Qed.
Lemma monitor_status_current (m : Motor) :
  dict_getitem (monitor_status m) "Current (A)" = Ok (Float (round (current m) 5)).
Proof. reflexivity. Qed.
Lemma monitor_status_torque (m : Motor) :
  dict_getitem (monitor_status m) "Torque (Nm)" = Ok (Float (round (torque m) 10)).
Proof. reflexivity. Qed.

Lemma lift_run {A} (m : outcome A) (a : A) (st : Store) :
  m = Ok a -> lift m st = Ok (a, st).
Proof. by intros ->. Qed.

Lemma bumps_app (l1 l2 : list string) (shape : gmap string nat) :
  bumps (l1 ++ l2) shape = bumps l2 (bumps l1 shape).
Proof. apply foldl_app. Qed.

Lemma bumps_lookup (ids : list string) (shape : gmap string nat) (id : string) :
  NoDup ids ->
  bumps ids shape !! id
  = if decide (id ∈ ids) then Some (S (default 0%nat (shape !! id)))
    else shape !! id.
Proof.
  intros Hnd. revert shape.
  induction Hnd as [|x ids Hx Hnd IH]; intros shape.
  - simpl. destruct (decide (id ∈ [])) as [Hin|]; [by apply elem_of_nil in Hin | done].
  - change (bumps (x :: ids) shape) with (bumps ids (bump shape x)).
    rewrite IH. unfold bump.
    destruct (decide (id ∈ ids)) as [Hin | Hout].
    + rewrite decide_True by (by right).
      rewrite lookup_insert_ne; [done|]. by intros ->.
    + destruct (decide (x = id)) as [-> | Hne].
      * rewrite decide_True by left. by rewrite lookup_insert_eq.
      * rewrite lookup_insert_ne by done.
        rewrite decide_False; [done|].
        intros Hin. apply elem_of_cons in Hin as [-> | Hin]; done.
Qed.

Lemma uniform_shape_lookup (n : nat) (ids : list string) (id : string) :
  uniform_shape n ids !! id
  = match n with
    | O => None
    | S _ => if decide (id ∈ ids) then Some n else None
    end.
Proof.
  destruct n as [|n]; simpl; [done|]. rewrite lookup_gset_to_gmap.
  destruct (decide (id ∈ ids)) as [Hin | Hout].
  - by rewrite option_guard_True by (by apply elem_of_list_to_set).
  - by rewrite option_guard_False by (by rewrite elem_of_list_to_set).
Qed.

Lemma bumps_uniform (n : nat) (ids : list string) :
  NoDup ids -> bumps ids (uniform_shape n ids) = uniform_shape (S n) ids.
Proof.
  intros Hnd. apply map_eq. intros id.
  rewrite bumps_lookup, !uniform_shape_lookup by done.
  destruct n as [|n], (decide (id ∈ ids)); done.
Qed.

(** A loop over objects whose body logs one sample for each motor of
    the object logs one sample for each motor of the list. *)
Lemma for_each_run {A} (ids : A -> list string) (body : A -> Sim A) :
  (forall x st shape,
     logs_shape (motor_logs st) shape ->
     exists x' st',
       body x st = Ok (x', st') /\ ids x' = ids x
       /\ logs_shape (motor_logs st') (bumps (ids x) shape)) ->
  forall (l : list A) (st : Store) (shape : gmap string nat),
    logs_shape (motor_logs st) shape ->
    exists l' st',
      for_each body l st = Ok (l', st') /\ l' ≫= ids = l ≫= ids
      /\ logs_shape (motor_logs st') (bumps (l ≫= ids) shape).
Proof.
  intros Hbody l. induction l as [|x l IH]; intros st shape Hshape.
  - by exists [], st.
  - destruct (Hbody x st shape Hshape) as (x' & st1 & Hrun & Hids & Hshape1).
    destruct (IH st1 _ Hshape1) as (l' & st2 & Hrest & Hids' & Hshape2).
    exists (x' :: l'), st2. split; [|split].
    + simpl. erewrite bind_run by exact Hrun.
      erewrite bind_run by exact Hrest. reflexivity.
    + change ((x' :: l') ≫= ids) with (ids x' ++ (l' ≫= ids)).
      change ((x :: l) ≫= ids) with (ids x ++ (l ≫= ids)). by rewrite Hids, Hids'.
    + change ((x :: l) ≫= ids) with (ids x ++ (l ≫= ids)). by rewrite bumps_app.
Qed.

Lemma has_char_app (c : Ascii.ascii) (s t : string) :
  has_char c (s +:+ t) = has_char c s || has_char c t.
Proof.
  induction s as [|c' s IH]; simpl; [done|]. by destruct (decide (c = c')).
Qed.

Lemma pretty_N_go_has_char (c : Ascii.ascii) (x : N) (s : string) :
  (forall d : N, pretty_N_char d <> c) ->
  has_char c (pretty_N_go x s) = has_char c s.
Proof.
  intros Hc. revert s.
  induction (N.lt_wf_0 x) as [x _ IH]. intros s.
  destruct (decide (x = 0)%N) as [-> | Hx]; [done|].
  rewrite pretty_N_go_step by lia.
  rewrite IH by (apply N.div_lt; lia). simpl.
  destruct (decide (c = pretty_N_char (x `mod` 10))) as [-> | _]; [|done].
  by destruct (Hc (x `mod` 10)%N).
Qed.

Lemma str_no_underscore (i : Z) : has_char "_"%char (str i) = false.
Proof.
  assert (forall x : N, has_char "_"%char (pretty x) = false) as HN.
  { intros x. unfold pretty, pretty_N. destruct (decide (x = 0)%N); [done|].
    rewrite pretty_N_go_has_char; [done|].
    intros d. unfold pretty_N_char. by repeat case_match. }
  unfold str, pretty, pretty_Z. destruct i as [|p|p]; [done | apply HN |].
  rewrite has_char_app. simpl. apply HN.
Qed.

Lemma string_app_cons (c : Ascii.ascii) (s t : string) :
  String c s +:+ t = String c (s +:+ t).
Proof. reflexivity. Qed.

Lemma string_app_assoc (s t u : string) : (s +:+ t) +:+ u = s +:+ t +:+ u.
Proof.
  induction s as [|c s IH]; [done|]. rewrite !string_app_cons. by f_equal.
Qed.

(** A string without the separator, followed by the separator, can be
    read back in one way only. *)
Lemma separator_unique (c : Ascii.ascii) (s s' t t' : string) :
  has_char c s = false -> has_char c s' = false ->
  s +:+ String c t = s' +:+ String c t' -> s = s' /\ t = t'.
Proof.
  revert s'. induction s as [|a s IH]; intros [|a' s'];
    rewrite ?string_app_cons; simpl.
  - intros _ _ [= ->]. done.
  - destruct (decide (c = a')) as [|Hne]; [done|]. intros _ _ [= ? _]. done.
  - destruct (decide (c = a)) as [|Hne]; [done|]. intros _ _ [= ? _]. done.
  - destruct (decide (c = a)); [done|]. destruct (decide (c = a')); [done|].
    intros Hs Hs' [= -> Heq]. destruct (IH s' Hs Hs' Heq) as [-> ->]. done.
Qed.

Lemma motor_name_inj (i j i' j' : Z) (suffix suffix' : string) :
  suffix ∈ ["_DC"; "_AC"] -> suffix' ∈ ["_DC"; "_AC"] ->
  motor_name i j suffix = motor_name i' j' suffix' ->
  i = i' /\ j = j' /\ suffix = suffix'.
Proof.
  intros Hs Hs'. unfold motor_name. rewrite !string_app_assoc.
  intros Heq. apply (inj (String.app "Line_")) in Heq.
  assert (exists r, suffix = String "_"%char r) as [r ->].
  { apply elem_of_cons in Hs as [-> | Hs]; [by eexists|].
    apply elem_of_cons in Hs as [-> | Hs]; [by eexists|]. by apply elem_of_nil in Hs. }
  assert (exists r', suffix' = String "_"%char r') as [r' ->].
  { apply elem_of_cons in Hs' as [-> | Hs']; [by eexists|].
    apply elem_of_cons in Hs' as [-> | Hs']; [by eexists|]. by apply elem_of_nil in Hs'. }
  change ("_M" +:+ ?x) with (String "_"%char ("M" +:+ x)) in Heq.
  apply separator_unique in Heq as [Hi Heq]; [| apply str_no_underscore..].
  simpl in Heq. injection Heq as Heq.
  apply separator_unique in Heq as [Hj Heq]; [| apply str_no_underscore..].
  apply (inj pretty) in Hi. apply (inj pretty) in Hj.
  split; [lia|]. split; [done | by rewrite Heq].
Qed.

Lemma length_bind_const {A B} (f : A -> list B) (l : list A) (n : nat) :
  (forall x, length (f x) = n) -> length (l ≫= f) = (length l * n)%nat.
Proof.
  intros Hf. induction l as [|x l IH]; [done|].
  change ((x :: l) ≫= f) with (f x ++ (l ≫= f)).
  rewrite length_app, Hf, IH. simpl. lia.
Qed.

Lemma factory_motor_ids_init (factory_name : string) (num_lines machines_per_line : Z) :
  factory_motor_ids (Factory_init factory_name num_lines machines_per_line)
  = range num_lines ≫= (fun i =>
      range machines_per_line ≫= (fun j =>
        [motor_name i j "_DC"; motor_name i j "_AC"])).
Proof.
  unfold factory_motor_ids, Factory_init. simpl. rewrite list_fmap_bind.
  apply list_bind_ext; [|done]. intros i. simpl.
  unfold line_motor_ids, ProductionLine_init. simpl. rewrite list_fmap_bind.
  apply list_bind_ext; [|done]. intros j. reflexivity.
Qed.

Lemma factory_motor_ids_NoDup (factory_name : string) (num_lines machines_per_line : Z) :
  NoDup (factory_motor_ids (Factory_init factory_name num_lines machines_per_line)).
Proof.
  rewrite factory_motor_ids_init.
  assert (forall i j id,
            id ∈ [motor_name i j "_DC"; motor_name i j "_AC"] ->
            exists suffix, suffix ∈ ["_DC"; "_AC"] /\ id = motor_name i j suffix)
    as Hkind.
  { intros i j id Hid. apply elem_of_cons in Hid as [-> | Hid].
    - exists "_DC". split; [repeat constructor | done].
    - apply elem_of_cons in Hid as [-> | Hid]; [|by apply elem_of_nil in Hid].
      exists "_AC". split; [repeat constructor | done]. }
  apply NoDup_bind; [| | apply NoDup_seqZ].
  - intros i i' id _ _ Hi Hi'.
    apply list_elem_of_bind in Hi as (j & Hid & _).
    apply list_elem_of_bind in Hi' as (j' & Hid' & _).
    apply Hkind in Hid as (sfx & Hsfx & ->).
    apply Hkind in Hid' as (sfx' & Hsfx' & Heq).
    by apply motor_name_inj in Heq as (? & _).
  - intros i _. apply NoDup_bind; [| | apply NoDup_seqZ].
    + intros j j' id _ _ Hid Hid'.
      apply Hkind in Hid as (sfx & Hsfx & ->).
      apply Hkind in Hid' as (sfx' & Hsfx' & Heq).
      by apply motor_name_inj in Heq as (_ & ? & _).
    + intros j _. apply NoDup_cons. split; [|apply NoDup_singleton].
      intros Hin. apply list_elem_of_singleton in Hin.
      apply motor_name_inj in Hin as (_ & _ & ?); [done | repeat constructor..].
Qed.

Lemma factory_motor_ids_length (factory_name : string) (num_lines machines_per_line : Z) :
  length (factory_motor_ids (Factory_init factory_name num_lines machines_per_line))
  = (Z.to_nat num_lines * (Z.to_nat machines_per_line * 2))%nat.
Proof.
  rewrite factory_motor_ids_init.
  rewrite (length_bind_const _ _ (Z.to_nat machines_per_line * 2)).
  - unfold range, range2. rewrite length_seqZ. f_equal. lia.
  - intros i. rewrite (length_bind_const _ _ 2) by done.
    unfold range, range2. rewrite length_seqZ. f_equal. lia.
Qed.
Lemma update_machines_run (self : Machine) (cycle : Z) (st : Store)
    (shape : gmap string nat) :
  logs_shape (motor_logs st) shape ->
  exists msg self' st',
    update_machines hash self cycle st = Ok ((msg, self'), st')
    /\ machine_motor_ids self' = machine_motor_ids self
    /\ logs_shape (motor_logs st') (bumps (machine_motor_ids self) shape).
Proof.
  intros Hshape. unfold update_machines.
  erewrite bind_run
    by (apply lift_run, get_speed_reference_value; discriminate).
  erewrite bind_run
    by (apply lift_run, get_speed_reference_value; discriminate).
  cbv beta.
  match goal with |- context [DCMotor.control ?m ?t] =>
    pose proof (proj1 (proj1 control_keeps_plant m t)) as Hdc_id;
    destruct (DCMotor.control m t) as [s_dc dc1] end.
  simpl snd in Hdc_id.
  erewrite bind_run by apply DC_update_motor_run.
  cbv beta zeta.
  rewrite monitor_status_speed, monitor_status_temperature,
    monitor_status_efficiency, monitor_status_current, monitor_status_torque.
  erewrite log_block_run by exact Hshape.
  match goal with |- context [ACMotor.control ?m ?t] =>
    pose proof (proj2 control_keeps_plant m t) as Hac_base;
    destruct (ACMotor.control m t) as [s_ac ac1] end.
  simpl snd in Hac_base.
  erewrite bind_run by apply AC_update_motor_run.
  cbv beta zeta.
  rewrite monitor_status_speed, monitor_status_temperature,
    monitor_status_efficiency, monitor_status_current, monitor_status_torque.
  erewrite log_block_run by (by apply log_sample_shape).
  eexists _, _, _. split; [reflexivity|].
  unfold machine_motor_ids, bumps. project_fields.
  rewrite Hdc_id, Hac_base. split; [done|].
  by do 2 apply log_sample_shape.
Qed.

Lemma update_production_line_run (self : ProductionLine) (cycle : Z)
    (st : Store) (shape : gmap string nat) :
  logs_shape (motor_logs st) shape ->
  exists self' st',
    update_production_line hash self cycle st = Ok (self', st')
    /\ line_motor_ids self' = line_motor_ids self
    /\ logs_shape (motor_logs st') (bumps (line_motor_ids self) shape).
Proof.
  intros Hshape. unfold update_production_line.
  destruct (for_each_run machine_motor_ids
              (fun machine => r ← update_machines hash machine cycle; mret (snd r)))
    with (l := machines self) (st := st) (shape := shape)
    as (l' & st' & Hrun & Hids & Hshape'); [|done|].
  { intros x st0 shape0 H0.
    destruct (update_machines_run x cycle st0 shape0 H0)
      as (msg & x' & st1 & Hrun & Hids & H1).
    exists x', st1. split; [|done]. by erewrite bind_run by exact Hrun. }
  eexists _, st'. split; [|split].
  - erewrite bind_run by exact Hrun. reflexivity.
  - exact Hids.
  - exact Hshape'.
Qed.

Lemma factory_cycle_run (cycle : Z) (factory : Factory) (st : Store)
    (shape : gmap string nat) :
  logs_shape (motor_logs st) shape ->
  exists factory' st',
    (lines ← for_each (fun line => update_production_line hash line cycle)
               (production_lines factory);
     mret {| factory_name := factory_name factory;
             production_lines := lines |}) st
    = Ok (factory', st')
    /\ factory_motor_ids factory' = factory_motor_ids factory
    /\ logs_shape (motor_logs st') (bumps (factory_motor_ids factory) shape).
Proof.
  intros Hshape.
  destruct (for_each_run line_motor_ids
              (fun line => update_production_line hash line cycle))
    with (l := production_lines factory) (st := st) (shape := shape)
    as (l' & st' & Hrun & Hids & Hshape'); [|done|].
  { intros x st0 shape0 H0. by apply update_production_line_run. }
  eexists _, st'. split; [|split].
  - erewrite bind_run by exact Hrun. reflexivity.
  - exact Hids.
  - exact Hshape'.
Qed.

Lemma cycles_run (cycles : list Z) (factory : Factory) (st : Store) (n : nat) :
  NoDup (factory_motor_ids factory) ->
  logs_shape (motor_logs st) (uniform_shape n (factory_motor_ids factory)) ->
  exists factory' st',
    for_range
      (fun cycle factory =>
         lines ← for_each (fun line => update_production_line hash line cycle)
                   (production_lines factory);
         mret {| factory_name := factory_name factory;
                 production_lines := lines |})
      cycles factory st
    = Ok (factory', st')
    /\ factory_motor_ids factory' = factory_motor_ids factory
    /\ logs_shape (motor_logs st')
         (uniform_shape (n + length cycles) (factory_motor_ids factory)).
Proof.
  revert factory st n.
  induction cycles as [|cycle cycles IH]; intros factory st n Hnd Hshape.
  - exists factory, st. simpl. by rewrite Nat.add_0_r.
  - destruct (factory_cycle_run cycle factory st _ Hshape)
      as (f1 & st1 & Hrun & Hids & Hshape1).
    rewrite bumps_uniform in Hshape1 by done. rewrite <- Hids in Hshape1, Hnd.
    destruct (IH f1 st1 (S n) Hnd Hshape1) as (f2 & st2 & Hrest & Hids2 & Hshape2).
    exists f2, st2. split; [|split].
    + simpl. erewrite bind_run by exact Hrun. exact Hrest.
    + congruence.
    + rewrite <- Hids. simpl length.
      by replace (n + S (length cycles))%nat with (S n + length cycles)%nat by lia.
Qed.

Lemma simulation_run (num_lines machines_per_line total_cycles : Z) (st : Store) :
  let ids :=
    factory_motor_ids
      (Factory_init "Smart Information Model Factory" num_lines machines_per_line) in
  exists factory st',
    simulation hash num_lines machines_per_line total_cycles st = Ok (factory, st')
    /\ factory_motor_ids factory = ids
    /\ logs_shape (motor_logs st') (uniform_shape (Z.to_nat total_cycles) ids).
Proof.
  intros ids. unfold simulation.
  destruct (cycles_run (range2 1 (total_cycles + 1))
              (Factory_init "Smart Information Model Factory" num_lines machines_per_line)
              (set_motor_logs ∅ st) 0)
    as (f & st' & Hrun & Hids & Hshape).
  - apply factory_motor_ids_NoDup.
  - intros id. simpl. by rewrite !lookup_empty.
  - exists f, st'. split; [exact Hrun|]. split; [exact Hids|].
    unfold range2 in Hshape. rewrite length_seqZ in Hshape.
    by replace (total_cycles + 1 - 1) with total_cycles in Hshape by lia.
Qed.


(** A log of uniform shape holds an entry exactly for the motors named,
    once one cycle has run. *)
Lemma logs_shape_uniform_dom (logs : gmap string (gmap string (list value)))
    (n : nat) (ids : list string) :
  logs_shape logs (uniform_shape (S n) ids) -> dom logs = list_to_set ids.
Proof.
  intros Hshape. apply set_eq. intros id.
  rewrite elem_of_dom, elem_of_list_to_set.
  pose proof (Hshape id) as Hid. rewrite uniform_shape_lookup in Hid.
  destruct (logs !! id) as [entry|], (decide (id ∈ ids)) as [Hin | Hout];
    done.
Qed.

Lemma logs_shape_uniform_entry (logs : gmap string (gmap string (list value)))
    (n : nat) (ids : list string) (id : string)
    (entry : gmap string (list value)) :
  logs_shape logs (uniform_shape n ids) -> logs !! id = Some entry ->
  (0 < n)%nat /\ id ∈ ids /\ entry_length n entry.
Proof.
  intros Hshape Hentry. pose proof (Hshape id) as Hid.
  rewrite Hentry, uniform_shape_lookup in Hid.
  destruct n as [|n]; [done|].
  destruct (decide (id ∈ ids)); [|done]. split; [lia | done].
Qed.

Lemma factory_motor_ids_elem (factory_name : string)
    (num_lines machines_per_line : Z) (id : string) :
  id ∈ factory_motor_ids (Factory_init factory_name num_lines machines_per_line)
  <-> exists i j suffix,
        0 <= i < num_lines /\ 0 <= j < machines_per_line
        /\ suffix ∈ ["_DC"; "_AC"] /\ id = motor_name i j suffix.
Proof.
  rewrite factory_motor_ids_init. unfold range, range2. split.
  - intros Hid. apply list_elem_of_bind in Hid as (i & Hid & Hi).
    apply list_elem_of_bind in Hid as (j & Hid & Hj).
    apply elem_of_seqZ in Hi, Hj. exists i, j.
    apply elem_of_cons in Hid as [-> | Hid].
    + exists "_DC". repeat split; try lia; [repeat constructor].
    + apply elem_of_cons in Hid as [-> | Hid]; [|by apply elem_of_nil in Hid].
      exists "_AC". repeat split; try lia; [repeat constructor].
  - intros (i & j & suffix & Hi & Hj & Hs & ->).
    apply list_elem_of_bind. exists i. split; [|apply elem_of_seqZ; lia].
    apply list_elem_of_bind. exists j. split; [|apply elem_of_seqZ; lia].
    apply elem_of_cons in Hs as [-> | Hs]; [by left|].
    apply elem_of_cons in Hs as [-> | Hs]; [by right; left|].
    by apply elem_of_nil in Hs.
Qed.

(** C5: for every factory configuration and every cycle count [N], the
    run returns, and every motor identity present in the log afterwards
    has an entry made of exactly the seven sequences (cycle, speed,
    temperature, efficiency, current, torque, reference), each of length
    exactly [N]. *)
Theorem log_sequences_same_length
    (num_lines machines_per_line total_cycles : Z) (st : Store) :
  exists factory st',
    simulation hash num_lines machines_per_line total_cycles st
    = Ok (factory, st')
    /\ forall (id : string) (entry : gmap string (list value)),
         motor_logs st' !! id = Some entry ->
         dom entry = list_to_set log_keys
         /\ forall key : string, key ∈ log_keys ->
              exists series : list value,
                entry !! key = Some series
                /\ Z.of_nat (length series) = total_cycles.
Proof.
  destruct (simulation_run num_lines machines_per_line total_cycles st)
    as (factory & st' & Hrun & _ & Hshape).
  exists factory, st'. split; [exact Hrun|].
  intros id entry Hentry.
  destruct (logs_shape_uniform_entry _ _ _ _ _ Hshape Hentry)
    as (Hpos & _ & Hlen).
  split; [apply Hlen|].
  intros key Hkey.
  destruct (entry_length_lookup _ _ _ Hlen Hkey) as (series & Hs & Hn).
  exists series. split; [exact Hs | lia].
Qed.

(** C6: for every factory constructed with [L] production lines and
    [M] machines per line, after any number of full cycles >= 1 the log
    holds exactly [2*L*M] motor identities: the DC and the AC motor of
    each machine of each line, and no two of these share an identity. *)
Theorem log_holds_every_motor
    (num_lines machines_per_line total_cycles : Z) (st : Store) :
  0 <= num_lines -> 0 <= machines_per_line -> 1 <= total_cycles ->
  exists factory st',
    simulation hash num_lines machines_per_line total_cycles st
    = Ok (factory, st')
    /\ Z.of_nat (size (dom (motor_logs st')))
       = 2 * num_lines * machines_per_line
    /\ (forall id : string,
          id ∈ dom (motor_logs st')
          <-> exists i j suffix,
                0 <= i < num_lines /\ 0 <= j < machines_per_line
                /\ suffix ∈ ["_DC"; "_AC"] /\ id = motor_name i j suffix)
    /\ (forall i j suffix i' j' suffix',
          suffix ∈ ["_DC"; "_AC"] -> suffix' ∈ ["_DC"; "_AC"] ->
          motor_name i j suffix = motor_name i' j' suffix' ->
          i = i' /\ j = j' /\ suffix = suffix').
Proof.
  intros HL HM HN.
  destruct (simulation_run num_lines machines_per_line total_cycles st)
    as (factory & st' & Hrun & _ & Hshape).
  exists factory, st'. split; [exact Hrun|].
  destruct (Z.to_nat total_cycles) as [|n] eqn:Hn; [lia|].
  apply logs_shape_uniform_dom in Hshape. rewrite Hshape.
  split; [|split].
  - rewrite size_list_to_set by apply factory_motor_ids_NoDup.
    rewrite factory_motor_ids_length. lia.
  - intros id. rewrite elem_of_list_to_set. apply factory_motor_ids_elem.
  - intros i j suffix i' j' suffix'. apply motor_name_inj.
Qed.

(** ** Configurations without motors or without cycles *)

Lemma idle_lines (cycle : Z) (lines : list ProductionLine) (st : Store) :
  (forall line, line ∈ lines -> machines line = []) ->
  for_each (fun line => update_production_line hash line cycle) lines st
  = Ok (lines, st).
Proof.
  induction lines as [|line lines IH]; intros Hidle; [done|].
  assert (update_production_line hash line cycle st = Ok (line, st)) as Hline.
  { unfold update_production_line. rewrite (Hidle line) by left.
    destruct line as [lid ms]. simpl.
    assert (ms = []) as -> by (apply (Hidle {| line_id := lid; machines := ms |}); left).
    reflexivity. }
  simpl. erewrite bind_run by exact Hline.
  erewrite bind_run by (apply IH; intros l Hl; apply Hidle; by right).
  reflexivity.
Qed.

Lemma idle_cycles (cycles : list Z) (factory : Factory) (st : Store) :
  (forall line, line ∈ production_lines factory -> machines line = []) ->
  for_range
    (fun cycle factory =>
       lines ← for_each (fun line => update_production_line hash line cycle)
                 (production_lines factory);
       mret {| factory_name := factory_name factory;
               production_lines := lines |})
    cycles factory st
  = Ok (factory, st).
Proof.
  intros Hidle. induction cycles as [|cycle cycles IH]; [done|].
  simpl. erewrite bind_run; [exact IH|].
  erewrite bind_run by (by apply idle_lines). by destruct factory.
Qed.

Lemma Factory_init_no_machines (factory_name : string)
    (num_lines machines_per_line : Z) :
  (num_lines <= 0 -> production_lines
     (Factory_init factory_name num_lines machines_per_line) = [])
  /\ (machines_per_line <= 0 ->
      forall line,
        line ∈ production_lines
                 (Factory_init factory_name num_lines machines_per_line) ->
        machines line = []).
Proof.
  unfold Factory_init, range, range2. simpl. split.
  - intros HL. by rewrite seqZ_nil by lia.
  - intros HM line Hline. apply list_elem_of_fmap in Hline as (i & -> & _).
    unfold ProductionLine_init, range, range2. simpl.
    by rewrite seqZ_nil by lia.
Qed.

(** C8, amended: for every configuration with a zero or negative number
    of production lines, of machines per line or of cycles, nothing is
    rejected: construction returns a factory (without lines when the
    line count is not positive, with lines without machines when the
    machine count is not positive), and the run returns that factory
    unchanged, having stepped no motor: the log is empty and no random
    number was drawn. *)
Theorem invalid_configuration_runs_idle
    (num_lines machines_per_line total_cycles : Z) (st : Store) :
  num_lines <= 0 \/ machines_per_line <= 0 \/ total_cycles <= 0 ->
  let factory :=
    Factory_init "Smart Information Model Factory" num_lines machines_per_line in
  simulation hash num_lines machines_per_line total_cycles st
  = Ok (factory, set_motor_logs ∅ st)
  /\ (num_lines <= 0 -> production_lines factory = [])
  /\ (machines_per_line <= 0 ->
      forall line, line ∈ production_lines factory -> machines line = []).
Proof.
  intros Hbad factory. subst factory.
  destruct (Factory_init_no_machines "Smart Information Model Factory"
              num_lines machines_per_line) as [HL HM].
  split; [|split; [exact HL | exact HM]].
  unfold simulation. erewrite bind_run by reflexivity. cbv beta zeta.
  destruct Hbad as [Hbad | [Hbad | Hbad]].
  - apply idle_cycles. intros line Hline. rewrite (HL Hbad) in Hline.
    by apply elem_of_nil in Hline.
  - apply idle_cycles. by apply HM.
  - unfold range2. by rewrite seqZ_nil by lia.
Qed.

End Log.

Lemma log_holds_every_motor_witness :
  exists factory st',
    simulation (R := binary64) sample_hash 2 2 101
      {| random_state := sample_random; motor_logs := ∅ |}
    = Ok (factory, st')
    /\ Z.of_nat (size (dom (motor_logs st'))) = 2 * 2 * 2.
Proof.
  destruct (log_holds_every_motor (R := binary64) sample_hash 2 2 101
              {| random_state := sample_random; motor_logs := ∅ |})
    as (factory & st' & Hrun & Hsize & _); [lia | lia | lia |].
  exists factory, st'. split; [exact Hrun | exact Hsize].
Defined.

(** C8 as stated fails: with no production line, with a negative
    number of machines per line, or with no cycle at all, construction
    and the run return normally instead of raising. *)
Lemma invalid_configuration_not_rejected :
  let R := binary64 in
  let st := {| random_state := sample_random; motor_logs := ∅ |} in
  (forall e, simulation sample_hash 0 2 101 st <> Raise e)
  /\ (forall e, simulation sample_hash 2 (-1) 101 st <> Raise e)
  /\ (forall e, simulation sample_hash 2 2 0 st <> Raise e)
  /\ Factory_init "Smart Information Model Factory" 0 2
     = {| factory_name := "Smart Information Model Factory";
          production_lines := [] |}.
Proof.
  intros R st. repeat split; try (intros e; vm_compute; discriminate).
Qed.

Lemma invalid_configuration_runs_idle_witness :
  simulation (R := binary64) sample_hash 0 2 101
    {| random_state := sample_random; motor_logs := ∅ |}
  = Ok (Factory_init (R := binary64)
          "Smart Information Model Factory" 0 2,
        {| random_state := sample_random; motor_logs := ∅ |}).
Proof.
  destruct (invalid_configuration_runs_idle (R := binary64)
              sample_hash 0 2 101
              {| random_state := sample_random; motor_logs := ∅ |})
    as [Hrun _]; [left; lia|].
  exact Hrun.
Defined.

(** The sample random sequence is one [random.random()] can produce. *)
Lemma sample_random_in_unit_interval
    (logs : gmap string (gmap string (list value))) :
  random_in_unit_interval {| random_state := sample_random; motor_logs := logs |}.
Proof.
  intros k. simpl. unfold sample_random.
  pose proof (Z.mod_pos_bound (Z.of_nat k) 5 ltac:(lia)) as Hk.
  set (r := Z.of_nat k mod 5) in Hk |- *.
  assert (inject_Z 0 <= inject_Z r)%Q as H0 by (rewrite <- Zle_Qle; lia).
  assert (inject_Z r <= inject_Z 4)%Q as H4 by (rewrite <- Zle_Qle; lia).
  change (inject_Z 0) with 0%Q in H0. change (inject_Z 4) with 4%Q in H4.
  split; lra.
Qed.

Lemma efficiency_never_increases_witness :
  let R := binary64 in
  let m := DCMotor.init "Line_1_M0_DC" in
  exists trace st',
    run_steps DCMotor.invoke
      [Control 1079; Update_motor 1; Control 1079; Update_motor 1]%Q
      m {| random_state := sample_random; motor_logs := ∅ |}
    = Ok (trace, st')
    /\ length trace = 4%nat
    /\ forall (t : nat) (a b : DCMotor.t),
         (m :: trace) !! t = Some a -> (m :: trace) !! S t = Some b ->
         (efficiency (DCMotor.base b) <= efficiency (DCMotor.base a))%Q.
Proof.
  intros R m.
  apply (proj1 (efficiency_never_increases (R := binary64)
                  binary64_laws)).
  - apply sample_random_in_unit_interval.
  - apply (rnd_idempotent binary64_laws).
Defined.

Lemma dc_speed_bounded_witness :
  let R := binary64 in
  exists trace st',
    run_steps DCMotor.control_then_update [1079; 1079; 1179]%Q
      (DCMotor.init "Line_1_M0_DC")
      {| random_state := sample_random; motor_logs := ∅ |}
    = Ok (trace, st')
    /\ length trace = 3%nat
    /\ forall m : DCMotor.t,
         m ∈ trace -> (0 <= speed (DCMotor.base m) <= 1500)%Q.
Proof.
  intros R.
  exact (dc_speed_bounded (R := binary64) binary64_laws
           "Line_1_M0_DC" [1079; 1079; 1179]%Q
           {| random_state := sample_random; motor_logs := ∅ |}).
Defined.

(** The first cycle of a fresh DC motor in binary64 arithmetic: the
    error 1079 saturates the signal at 1, and the speed goes from 0 to
    150. *)
Example dc_first_cycle :
  let R := binary64 in
  match
    DCMotor.control_then_update (DCMotor.init "Line_1_M0_DC") 1079
      {| random_state := sample_random; motor_logs := ∅ |}
  with
  | Ok (m, _) =>
      (speed (DCMotor.base m) == 150 /\ voltage (DCMotor.base m) == 480
       /\ current (DCMotor.base m) == 10 /\ torque (DCMotor.base m) == 5)%Q
  | Raise _ => False
  end.
Proof. by vm_compute. Qed.

(** * Further properties *)

(** ** More on the reference signal generator *)

Section ReferenceSignalEdges.

Variable hash : string -> Z.

(** X1: [get_speed_reference] raises [ZeroDivisionError] exactly when
    the interval is 0, whatever the cycle and the identity. For every
    other interval, and every cycle, negative ones included, it returns
    one of the four levels [base + 100 * k], [0 <= k < 4], a value in
    [[1000, 1500)]: the index into the list of levels is never out of
    range. *)
Theorem get_speed_reference_total
    (cycle : Z) (motor_id : string) (cycle_interval : Z) :
  (cycle_interval = 0 ->
   get_speed_reference hash cycle motor_id cycle_interval
   = Raise ZeroDivisionError)
  /\ (cycle_interval <> 0 ->
      exists v k,
        get_speed_reference hash cycle motor_id cycle_interval = Ok v
        /\ 0 <= k < 4
        /\ v = Z.abs (hash motor_id) mod 200 + 1000 + 100 * k
        /\ 1000 <= v < 1500).
Proof.
  split.
  - intros ->. unfold get_speed_reference, floordiv.
    by destruct (decide (0 = 0)).
  - intros Hne. eexists _, ((cycle / cycle_interval) mod 4).
    split; [by apply get_speed_reference_value|].
    pose proof (Z.mod_pos_bound (cycle / cycle_interval) 4 ltac:(lia)).
    pose proof (Z.mod_pos_bound (Z.abs (hash motor_id)) 200 ltac:(lia)).
    lia.
Qed.

(** X2: for a positive interval the reference is constant on each
    block of [cycle_interval] cycles: on the block of index [k] it is
    [base + 100 * (k mod 4)], one interval later it is the level of the
    next block, which is the base again after the fourth level, and the
    signal has the period [4 * cycle_interval]. *)
Theorem get_speed_reference_blocks
    (cycle : Z) (motor_id : string) (cycle_interval k : Z) :
  0 < cycle_interval ->
  k * cycle_interval <= cycle < (k + 1) * cycle_interval ->
  get_speed_reference hash cycle motor_id cycle_interval
  = Ok (Z.abs (hash motor_id) mod 200 + 1000 + 100 * (k mod 4))
  /\ get_speed_reference hash (cycle + cycle_interval) motor_id cycle_interval
     = Ok (Z.abs (hash motor_id) mod 200 + 1000 + 100 * ((k + 1) mod 4))
  /\ get_speed_reference hash (cycle + 4 * cycle_interval) motor_id
       cycle_interval
     = get_speed_reference hash cycle motor_id cycle_interval.
Proof.
  intros Hpos Hblock.
  assert (cycle / cycle_interval = k) as Hk.
  { symmetry. apply Z.div_unique with (cycle - k * cycle_interval); lia. }
  rewrite !get_speed_reference_value by lia.
  replace (cycle + cycle_interval) with (cycle + 1 * cycle_interval) by lia.
  rewrite !Z.div_add by lia. rewrite Hk.
  split; [done|]. split; [done|].
  do 2 f_equal. f_equal.
  replace (k + 4) with (k + 1 * 4) by lia. by rewrite Z.mod_add by lia.
Qed.

End ReferenceSignalEdges.

Lemma get_speed_reference_blocks_witness :
  get_speed_reference sample_hash 120 "Line_1_M0_DC" 50 = Ok 1279
  /\ get_speed_reference sample_hash (120 + 50) "Line_1_M0_DC" 50 = Ok 1379
  /\ get_speed_reference sample_hash (120 + 4 * 50) "Line_1_M0_DC" 50
     = get_speed_reference sample_hash 120 "Line_1_M0_DC" 50.
Proof.
  apply (get_speed_reference_blocks sample_hash 120 "Line_1_M0_DC" 50 2); lia.
Defined.

Local Open Scope Q_scope.

Section MotorRanges.

Context {R : Rounding} (HR : RoundingLaws).

(** A first-order step towards [b], from [x], stays below a bound both
    are below. *)
Lemma relax_step (x b : Q) (B : Z) :
  (Z.abs B < 2 ^ 53)%Z ->
  0 <= x <= inject_Z B -> 0 <= b <= inject_Z B ->
  0 <= x ⊕ (b ⊖ x) ⊘ 10 <= inject_Z B.
Proof.
  intros HB [Hx0 Hx1] [Hb0 Hb1]. unfold fadd, fsub, fdiv.
  set (c := rnd (b - x)). set (d := rnd (c / 10)).
  assert (0 <= x + d <= inject_Z B) as [Hd0 Hd1].
  { destruct (Qlt_le_dec (b - x) 0) as [Hneg | Hpos].
    - assert (2 * (b - x) <= c <= 0) as [Hc0 Hc1]
        by (split; [apply (rnd_lower HR) | apply (rnd_nonpos HR)]; lra).
      assert (c / 10 <= 0) as Hq
        by (unfold Qdiv; change (/ 10) with (1 # 10); lra).
      assert (2 * (c / 10) <= d <= 0) as [Hq0 Hq1]
        by (split; [by apply (rnd_lower HR) | by apply (rnd_nonpos HR)]).
      unfold Qdiv in Hq0. change (/ 10) with (1 # 10) in Hq0. split; lra.
    - assert (0 <= c <= 2 * (b - x)) as [Hc0 Hc1]
        by (split; [by apply (rnd_nonneg HR) | by apply (rnd_upper HR)]).
      assert (0 <= c / 10) as Hq
        by (unfold Qdiv; change (/ 10) with (1 # 10); lra).
      assert (0 <= d <= 2 * (c / 10)) as [Hq0 Hq1]
        by (split; [by apply (rnd_nonneg HR) | by apply (rnd_upper HR)]).
      unfold Qdiv in Hq1. change (/ 10) with (1 # 10) in Hq1. split; lra. }
  split; [by apply (rnd_nonneg HR)|].
  by apply (rnd_le_integer HR).
Qed.

(** Rounding does not cross an integer of the format from above
    either. *)
Lemma rnd_ge_integer (x : Q) (z : Z) :
  (Z.abs z < 2 ^ 53)%Z -> inject_Z z <= x -> inject_Z z <= rnd x.
Proof.
  intros Hz Hx. rewrite <- (rnd_integer HR z Hz). by apply (rnd_monotone HR).
Qed.

(** The literal [0.5] is a number of the format. *)
Lemma float_0_5 : float 0.5 == 0.5.
Proof.
  unfold float.
  pose proof (rnd_representable HR 1 (-1) ltac:(done) ltac:(lia)) as Hrep.
  assert (inject_Z 1 * 2 ^ (-1) == 0.5) as Heq by reflexivity.
  rewrite <- Heq at 2. rewrite <- Hrep. apply (rnd_proper HR). by rewrite Heq.
Qed.

(** The speed after one AC plant update, from a speed and a frequency
    within their ranges. *)
Lemma ac_speed_step (x f : Q) :
  0 <= x <= 1800 -> 40 <= f <= 60 ->
  0 <= x ⊕ (f ⊗ 30 ⊖ x) ⊘ 10 <= 1800.
Proof.
  intros Hx [Hf0 Hf1].
  apply (relax_step x (f ⊗ 30) 1800); [done | exact Hx |].
  unfold fmul. split; [apply (rnd_nonneg HR); lra|].
  apply (rnd_le_integer HR _ 1800); [done | unfold inject_Z; lra].
Qed.

Lemma AC_cycle_speed (m : ACMotor.t) (target_speed : Q) (st : Store) :
  0 <= speed (ACMotor.base m) <= 1800 ->
  exists m' st',
    ACMotor.control_then_update m target_speed st = Ok (m', st')
    /\ 0 <= speed (ACMotor.base m') <= 1800.
Proof.
  intros Hspeed. unfold ACMotor.control_then_update.
  pose proof (proj2 control_signal_range m target_speed) as Hf.
  pose proof (proj2 control_keeps_plant m target_speed) as Hsame.
  destruct (ACMotor.control m target_speed) as [s m1].
  simpl in Hf, Hsame.
  rewrite AC_update_motor_run. eexists _, _. split; [reflexivity|].
  simpl. rewrite Hsame. by apply ac_speed_step.
Qed.

(** X3: starting from a freshly constructed AC motor, every
    control-then-update cycle returns, whatever the target speeds, and
    after each cycle the speed lies in [[0, 1800]] and the frequency in
    [[40, 60]]. *)
Theorem ac_speed_bounded (motor_id : string) (targets : list Q) (st : Store) :
  exists trace st',
    run_steps ACMotor.control_then_update targets (ACMotor.init motor_id) st
    = Ok (trace, st')
    /\ length trace = length targets
    /\ forall m : ACMotor.t,
         m ∈ trace ->
         0 <= speed (ACMotor.base m) <= 1800
         /\ 40 <= ACMotor.frequency m <= 60.
Proof.
  assert (forall (inputs : list Q) (m0 : ACMotor.t) (st0 : Store),
            0 <= speed (ACMotor.base m0) <= 1800 ->
            exists trace st',
              run_steps ACMotor.control_then_update inputs m0 st0 = Ok (trace, st')
              /\ length trace = length inputs
              /\ forall m : ACMotor.t, m ∈ trace ->
                   0 <= speed (ACMotor.base m) <= 1800
                   /\ 40 <= ACMotor.frequency m <= 60) as Hgen.
  { intros inputs. induction inputs as [|target inputs IH]; intros m0 st0 H0.
    - exists [], st0. split; [reflexivity|]. split; [reflexivity|].
      intros m Hm. by apply elem_of_nil in Hm.
    - destruct (AC_cycle_speed m0 target st0 H0) as (m1 & st1 & Hrun & H1).
      assert (40 <= ACMotor.frequency m1 <= 60) as Hf1.
      { unfold ACMotor.control_then_update in Hrun.
        pose proof (proj2 control_signal_range m0 target) as Hf.
        destruct (ACMotor.control m0 target) as [s m'].
        rewrite AC_update_motor_run in Hrun. by simplify_eq. }
      destruct (IH m1 st1 H1) as (trace & st2 & Hrest & Hlen & Hall).
      exists (m1 :: trace), st2. split; [|split].
      + simpl. erewrite bind_run by exact Hrun.
        erewrite bind_run by exact Hrest. reflexivity.
      + simpl. by rewrite Hlen.
      + intros m Hm. apply elem_of_cons in Hm as [-> | Hm]; [done | by apply Hall]. }
  apply Hgen. simpl. split; lra.
Qed.

(** The outputs of a DC motor after one cycle. *)
Lemma DC_cycle_outputs (m : DCMotor.t) (target_speed : Q) (st : Store) :
  exists m' st',
    DCMotor.control_then_update m target_speed st = Ok (m', st')
    /\ 0 <= voltage (DCMotor.base m') <= 480
    /\ 0 <= current (DCMotor.base m') <= 10
    /\ 0 <= torque (DCMotor.base m') <= 5.
Proof.
  unfold DCMotor.control_then_update.
  pose proof (proj1 control_signal_range m target_speed) as [Hs0 Hs1].
  assert (voltage (DCMotor.base (snd (DCMotor.control m target_speed)))
          = fst (DCMotor.control m target_speed) ⊗ 480) as Hv by reflexivity.
  destruct (DCMotor.control m target_speed) as [s m1]. simpl in Hs0, Hs1, Hv.
  rewrite DC_update_motor_run. eexists _, _. split; [reflexivity|].
  simpl. rewrite Hv. unfold fmul.
  assert (0 <= rnd (s * 10) <= 10) as [Hc0 Hc1].
  { split; [apply (rnd_nonneg HR); lra|].
    apply (rnd_le_integer HR _ 10); [done | unfold inject_Z; lra]. }
  split; [|split]; [| done |].
  - split; [apply (rnd_nonneg HR); lra|].
    apply (rnd_le_integer HR _ 480); [done | unfold inject_Z; lra].
  - rewrite (rnd_proper HR (rnd (s * 10) * float 0.5) (rnd (s * 10) * 0.5))
      by (by rewrite float_0_5).
    split; [apply (rnd_nonneg HR); lra|].
    apply (rnd_le_integer HR _ 5); [done | unfold inject_Z; lra].
Qed.

(** The outputs of an AC motor after one cycle. *)
Lemma AC_cycle_outputs (m : ACMotor.t) (target_speed : Q) (st : Store) :
  exists m' st',
    ACMotor.control_then_update m target_speed st = Ok (m', st')
    /\ voltage (ACMotor.base m') = voltage (ACMotor.base m)
    /\ 40 <= ACMotor.frequency m' <= 60
    /\ 6 <= current (ACMotor.base m') <= 10
    /\ 3 <= torque (ACMotor.base m') <= 5.
Proof.
  unfold ACMotor.control_then_update.
  pose proof (proj2 control_signal_range m target_speed) as [Hf0 Hf1].
  pose proof (proj2 control_keeps_plant m target_speed) as Hsame.
  destruct (ACMotor.control m target_speed) as [s m1]. simpl in Hf0, Hf1, Hsame.
  rewrite AC_update_motor_run. eexists _, _. split; [reflexivity|].
  simpl. rewrite Hsame. split; [done|]. split; [done|]. unfold fmul, fdiv.
  set (f := ACMotor.frequency m1) in *.
  assert (0.625 <= rnd (f / 60) <= 1) as [Hq0 Hq1].
  { split.
    - pose proof (rnd_representable HR 5 (-3) ltac:(done) ltac:(lia)) as Hrep.
      assert (inject_Z 5 * 2 ^ (-3) == 0.625) as Heq by reflexivity.
      rewrite <- Heq, <- Hrep. apply (rnd_monotone HR). rewrite Heq.
      unfold Qdiv. change (/ 60) with (1 # 60). lra.
    - apply (rnd_le_integer HR _ 1); [done|].
      unfold Qdiv, inject_Z. change (/ 60) with (1 # 60). lra. }
  assert (6 <= rnd (rnd (f / 60) * 10) <= 10) as [Hc0 Hc1].
  { split.
    - apply (rnd_ge_integer _ 6); [done | unfold inject_Z; lra].
    - apply (rnd_le_integer HR _ 10); [done | unfold inject_Z; lra]. }
  split; [done|].
  rewrite (rnd_proper HR (rnd (rnd (f / 60) * 10) * float 0.5)
             (rnd (rnd (f / 60) * 10) * 0.5))
    by (by rewrite float_0_5).
  split.
  - apply (rnd_ge_integer _ 3); [done | unfold inject_Z; lra].
  - apply (rnd_le_integer HR _ 5); [done | unfold inject_Z; lra].
Qed.

(** X4: after one control-then-update cycle, from any state and for
    any target speed, a DC motor has its voltage in [[0, 480]], its
    current in [[0, 10]] and its torque in [[0, 5]]; an AC motor has its
    frequency in [[40, 60]], its current in [[6, 10]], its torque in
    [[3, 5]], and the voltage it had before: no method of an AC motor
    writes the voltage. *)
Theorem cycle_outputs_bounded :
  (forall (m : DCMotor.t) (target_speed : Q) (st : Store),
     exists m' st',
       DCMotor.control_then_update m target_speed st = Ok (m', st')
       /\ 0 <= voltage (DCMotor.base m') <= 480
       /\ 0 <= current (DCMotor.base m') <= 10
       /\ 0 <= torque (DCMotor.base m') <= 5)
  /\
  (forall (m : ACMotor.t) (target_speed : Q) (st : Store),
     exists m' st',
       ACMotor.control_then_update m target_speed st = Ok (m', st')
       /\ voltage (ACMotor.base m') = voltage (ACMotor.base m)
       /\ 40 <= ACMotor.frequency m' <= 60
       /\ 6 <= current (ACMotor.base m') <= 10
       /\ 3 <= torque (ACMotor.base m') <= 5).
Proof. split; [apply DC_cycle_outputs | apply AC_cycle_outputs]. Qed.

End MotorRanges.

Local Open Scope Z_scope.

Section CallCounts.

Context {R : Rounding}.

Lemma drawn_refl (st : Store) : drawn 0 st st.
Proof. by intros k. Qed.

Lemma drawn_trans (n1 n2 : nat) (st1 st2 st3 : Store) :
  drawn n1 st1 st2 -> drawn n2 st2 st3 -> drawn (n1 + n2) st1 st3.
Proof.
  intros H1 H2 k. rewrite H2, H1. f_equal. lia.
Qed.

Lemma drawn_after_two_draws (st : Store) : drawn 2 st (after_two_draws st).
Proof. by intros k. Qed.

(** A run of calls adds up what each call adds to a counter of the
    object and to the number of draws, and leaves the log alone when
    each call does. *)
Lemma run_steps_count {S I} (step : S -> I -> Sim S)
    (counter : S -> Z) (cost : I -> nat) :
  (forall s i st,
     exists s' st',
       step s i st = Ok (s', st')
       /\ counter s' = counter s + Z.of_nat (cost i)
       /\ drawn (2 * cost i) st st'
       /\ motor_logs st' = motor_logs st) ->
  forall (inputs : list I) (s : S) (st : Store),
    exists trace st',
      run_steps step inputs s st = Ok (trace, st')
      /\ counter (default s (last trace))
         = counter s + Z.of_nat (sum_list_with cost inputs)
      /\ drawn (2 * sum_list_with cost inputs) st st'
      /\ motor_logs st' = motor_logs st.
Proof.
  intros Hstep inputs. induction inputs as [|i inputs IH]; intros s st.
  - exists [], st. simpl. split; [done|]. split; [lia|].
    split; [apply drawn_refl | done].
  - destruct (Hstep s i st) as (s1 & st1 & Hrun & Hc1 & Hd1 & Hl1).
    destruct (IH s1 st1) as (trace & st2 & Hrest & Hc2 & Hd2 & Hl2).
    exists (s1 :: trace), st2. split; [|split; [|split]].
    + simpl. erewrite bind_run by exact Hrun.
      erewrite bind_run by exact Hrest. reflexivity.
    + rewrite last_cons. simpl sum_list_with.
      destruct (last trace) as [s2|]; simpl in *; lia.
    + simpl sum_list_with.
      replace (2 * (cost i + sum_list_with cost inputs))%nat
        with (2 * cost i + 2 * sum_list_with cost inputs)%nat by lia.
      by eapply drawn_trans.
    + congruence.
Qed.

(** X5: under any sequence of calls of [control] and [update_motor],
    on a DC motor or on an AC motor, no call raises, the operating
    hours grow by the number of [update_motor] calls, the random
    generator advances by two draws for each of them and by none for
    [control], and the log is not touched. *)
Theorem operating_hours_count :
  (forall (calls : list method_call) (m : DCMotor.t) (st : Store),
     exists trace st',
       run_steps DCMotor.invoke calls m st = Ok (trace, st')
       /\ operating_hours (DCMotor.base (default m (last trace)))
          = operating_hours (DCMotor.base m) + Z.of_nat (updates calls)
       /\ drawn (2 * updates calls) st st'
       /\ motor_logs st' = motor_logs st)
  /\
  (forall (calls : list method_call) (m : ACMotor.t) (st : Store),
     exists trace st',
       run_steps ACMotor.invoke calls m st = Ok (trace, st')
       /\ operating_hours (ACMotor.base (default m (last trace)))
          = operating_hours (ACMotor.base m) + Z.of_nat (updates calls)
       /\ drawn (2 * updates calls) st st'
       /\ motor_logs st' = motor_logs st).
Proof.
  split; intros calls m st.
  - apply (run_steps_count DCMotor.invoke
             (fun m => operating_hours (DCMotor.base m)) is_update).
    intros s [target | signal] st0; simpl.
    + eexists _, _. split; [reflexivity|]. simpl.
      split; [lia|]. split; [apply drawn_refl | done].
    + rewrite DC_update_motor_run. eexists _, _. split; [reflexivity|].
      simpl. split; [lia|]. split; [apply drawn_after_two_draws | done].
  - apply (run_steps_count ACMotor.invoke
             (fun m => operating_hours (ACMotor.base m)) is_update).
    intros s [target | signal] st0; simpl.
    + eexists _, _. split; [reflexivity|]. simpl.
      split; [lia|]. split; [apply drawn_refl | done].
    + rewrite AC_update_motor_run. eexists _, _. split; [reflexivity|].
      simpl. split; [lia|]. split; [apply drawn_after_two_draws | done].
Qed.

End CallCounts.

(** ** What a cycle does to the hierarchy, to the log and to the
       random generator *)

Lemma entry_sample_lookup (v1 v2 v3 v4 v5 v6 v7 : value)
    (entry : gmap string (list value)) :
  let entry' := entry_sample v1 v2 v3 v4 v5 v6 v7 entry in
  entry' !! "cycle" = Some (default [] (entry !! "cycle") ++ [v1])
  /\ entry' !! "speed" = Some (default [] (entry !! "speed") ++ [v2])
  /\ entry' !! "temperature"
     = Some (default [] (entry !! "temperature") ++ [v3])
  /\ entry' !! "efficiency" = Some (default [] (entry !! "efficiency") ++ [v4])
  /\ entry' !! "current" = Some (default [] (entry !! "current") ++ [v5])
  /\ entry' !! "torque" = Some (default [] (entry !! "torque") ++ [v6])
  /\ entry' !! "reference" = Some (default [] (entry !! "reference") ++ [v7]).
Proof.
  unfold entry_sample. cbv zeta.
  repeat split;
    repeat first [ apply lookup_insert_eq | rewrite lookup_insert_ne by done ].
Qed.

Lemma machine_motors_ids (m : Machine) :
  motor_id <$> machine_motors m = machine_motor_ids m.
Proof. reflexivity. Qed.

Lemma line_motors_ids (l : ProductionLine) :
  motor_id <$> line_motors l = line_motor_ids l.
Proof.
  unfold line_motors, line_motor_ids.
  induction (machines l) as [|m ms IH]; [done|].
  by rewrite !bind_cons, fmap_app, IH.
Qed.

Lemma factory_motors_ids (f : Factory) :
  motor_id <$> factory_motors f = factory_motor_ids f.
Proof.
  unfold factory_motors, factory_motor_ids.
  induction (production_lines f) as [|l ls IH]; [done|].
  by rewrite !bind_cons, fmap_app, IH, line_motors_ids.
Qed.

(** A loop over objects, with an invariant of the store that may speak
    of the objects already stepped, and a relation of each object to
    what the body makes of it. *)
Lemma for_each_loop {A} (body : A -> Sim A) (rel : A -> A -> Prop)
    (inv : list A -> Store -> Prop) (l : list A) :
  (forall pre x post done st,
     l = pre ++ x :: post -> Forall2 rel pre done -> inv done st ->
     exists x' st',
       body x st = Ok (x', st') /\ rel x x' /\ inv (done ++ [x']) st') ->
  forall st : Store,
    inv [] st ->
    exists l' st',
      for_each body l st = Ok (l', st') /\ Forall2 rel l l' /\ inv l' st'.
Proof.
  intros Hbody.
  assert (forall post pre done st,
            l = pre ++ post -> Forall2 rel pre done -> inv done st ->
            exists l' st',
              for_each body post st = Ok (l', st')
              /\ Forall2 rel post l' /\ inv (done ++ l') st') as Hgen.
  { intros post. induction post as [|x post IH]; intros pre done st Hl Hpre Hinv.
    - exists [], st. rewrite app_nil_r. by repeat split.
    - destruct (Hbody pre x post done st Hl Hpre Hinv)
        as (x' & st1 & Hrun & Hrel & Hinv1).
      destruct (IH (pre ++ [x]) (done ++ [x']) st1) as (l' & st2 & Hrest & Hrels & Hinv2).
      + by rewrite <- app_assoc.
      + apply Forall2_app; [done | by constructor].
      + done.
      + exists (x' :: l'), st2. split; [|split].
        * simpl. erewrite bind_run by exact Hrun.
          erewrite bind_run by exact Hrest. reflexivity.
        * by constructor.
        * by rewrite <- app_assoc in Hinv2. }
  intros st Hinv. by apply (Hgen l [] [] st).
Qed.

Section MachineEffects.

Context {R : Rounding}.

Variable hash : string -> Z.

Lemma DC_cycle_motor_id (m m' : DCMotor.t) (target : Q) (st st' : Store) :
  DCMotor.control_then_update m target st = Ok (m', st') ->
  motor_id (DCMotor.base m') = motor_id (DCMotor.base m).
Proof.
  unfold DCMotor.control_then_update.
  pose proof (proj1 (proj1 control_keeps_plant m target)) as Hid.
  destruct (DCMotor.control m target) as [s m1]. simpl in Hid.
  rewrite DC_update_motor_run. intros H. simplify_eq. exact Hid.
Qed.

Lemma AC_cycle_motor_id (m m' : ACMotor.t) (target : Q) (st st' : Store) :
  ACMotor.control_then_update m target st = Ok (m', st') ->
  motor_id (ACMotor.base m') = motor_id (ACMotor.base m).
Proof.
  unfold ACMotor.control_then_update.
  pose proof (proj2 control_keeps_plant m target) as Hid.
  destruct (ACMotor.control m target) as [s m1]. simpl in Hid.
  rewrite AC_update_motor_run. intros H. simplify_eq. simpl. by rewrite Hid.
Qed.

Lemma machine_cycle_ids (cycle : Z) (m m' : Machine) :
  machine_cycle hash cycle m m' ->
  machine_motor_ids m' = machine_motor_ids m.
Proof.
  intros (_ & _ & ref_dc & ref_ac & s1 & s2 & s3 & s4 & _ & _ & Hdc & Hac).
  unfold machine_motor_ids.
  by rewrite (DC_cycle_motor_id _ _ _ _ _ Hdc), (AC_cycle_motor_id _ _ _ _ _ Hac).
Qed.

Lemma machines_related_ids (r : Machine -> Machine -> Prop)
    (ms ms' : list Machine) :
  (forall m m', r m m' -> machine_motor_ids m' = machine_motor_ids m) ->
  Forall2 r ms ms' ->
  ms' ≫= machine_motor_ids = ms ≫= machine_motor_ids.
Proof.
  intros Hr Hall. induction Hall as [|m m' ms ms' Hm _ IH]; [done|].
  by rewrite !bind_cons, IH, (Hr _ _ Hm).
Qed.

Lemma line_related_ids (r : Machine -> Machine -> Prop)
    (l l' : ProductionLine) :
  (forall m m', r m m' -> machine_motor_ids m' = machine_motor_ids m) ->
  line_related r l l' -> line_motor_ids l' = line_motor_ids l.
Proof. intros Hr [_ Hall]. by apply (machines_related_ids r). Qed.

Lemma lines_related_ids (r : Machine -> Machine -> Prop)
    (ls ls' : list ProductionLine) :
  (forall m m', r m m' -> machine_motor_ids m' = machine_motor_ids m) ->
  Forall2 (line_related r) ls ls' ->
  ls' ≫= line_motor_ids = ls ≫= line_motor_ids.
Proof.
  intros Hr Hall. induction Hall as [|l l' ls ls' Hl _ IH]; [done|].
  by rewrite !bind_cons, IH, (line_related_ids r _ _ Hr Hl).
Qed.

Lemma lines_related_machines (r : Machine -> Machine -> Prop)
    (ls ls' : list ProductionLine) :
  Forall2 (line_related r) ls ls' ->
  length (ls' ≫= machines) = length (ls ≫= machines).
Proof.
  intros Hall. induction Hall as [|l l' ls ls' [_ Hl] _ IH]; [done|].
  rewrite !bind_cons, !length_app, IH. by rewrite (Forall2_length _ _ _ Hl).
Qed.

Lemma factory_related_ids (r : Machine -> Machine -> Prop) (f f' : Factory) :
  (forall m m', r m m' -> machine_motor_ids m' = machine_motor_ids m) ->
  factory_related r f f' -> factory_motor_ids f' = factory_motor_ids f.
Proof. intros Hr [_ Hall]. by apply (lines_related_ids r). Qed.

(** Samples for two groups of motors with different identities add
    up. *)
Lemma sampled_nil (cycle : Z) (logs : gmap string (gmap string (list value))) :
  sampled hash cycle [] logs logs.
Proof.
  split; [|done]. intros m Hm. by apply elem_of_nil in Hm.
Qed.

Lemma sampled_app (cycle : Z) (ms1 ms2 : list Motor)
    (logs logs1 logs2 : gmap string (gmap string (list value))) :
  (forall id, id ∈ motor_id <$> ms1 -> id ∉ motor_id <$> ms2) ->
  sampled hash cycle ms1 logs logs1 -> sampled hash cycle ms2 logs1 logs2 ->
  sampled hash cycle (ms1 ++ ms2) logs logs2.
Proof.
  intros Hdisj [H1 F1] [H2 F2]. split.
  - intros m Hm. apply elem_of_app in Hm as [Hm | Hm].
    + destruct (H1 m Hm) as (ref & Href & Hlook). exists ref. split; [done|].
      rewrite F2; [done|]. apply Hdisj. by apply list_elem_of_fmap_2.
    + destruct (H2 m Hm) as (ref & Href & Hlook). exists ref. split; [done|].
      rewrite Hlook, F1; [done|].
      intros Hin. by apply (Hdisj _ Hin), list_elem_of_fmap_2.
  - intros id Hid. rewrite fmap_app in Hid.
    rewrite F2, F1; [done | |]; intros Hin; apply Hid, elem_of_app; auto.
Qed.

(** One call of [update_machines], on a log whose entries hold the
    seven sequences. *)
Lemma update_machines_exact (self : Machine) (cycle : Z) (st : Store)
    (shape : gmap string nat) :
  logs_shape (motor_logs st) shape ->
  exists ref_dc ref_ac self' st',
    get_speed_reference hash cycle
      (motor_id (DCMotor.base (dc_motor self))) default_cycle_interval
    = Ok ref_dc
    /\ get_speed_reference hash cycle
         (motor_id (ACMotor.base (ac_motor self))) default_cycle_interval
       = Ok ref_ac
    /\ update_machines hash self cycle st
       = Ok (("Machine " +:+ machine_id self +:+ " updated.", self'), st')
    /\ machine_cycle hash cycle self self'
    /\ motor_logs st'
       = <[motor_id (ACMotor.base (ac_motor self')) :=
             status_sample cycle (ACMotor.base (ac_motor self')) ref_ac
               (default new_log_entry
                  (<[motor_id (DCMotor.base (dc_motor self')) :=
                       status_sample cycle (DCMotor.base (dc_motor self')) ref_dc
                         (default new_log_entry
                            (motor_logs st
                               !! motor_id (DCMotor.base (dc_motor self'))))]>
                     (motor_logs st)
                   !! motor_id (ACMotor.base (ac_motor self'))))]>
           (<[motor_id (DCMotor.base (dc_motor self')) :=
                status_sample cycle (DCMotor.base (dc_motor self')) ref_dc
                  (default new_log_entry
                     (motor_logs st
                        !! motor_id (DCMotor.base (dc_motor self'))))]>
              (motor_logs st))
    /\ drawn 4 st st'
    /\ logs_shape (motor_logs st') (bumps (machine_motor_ids self) shape).
Proof.
  intros Hshape.
  eexists _, _.
  pose proof (get_speed_reference_value hash cycle
                (motor_id (DCMotor.base (dc_motor self)))
                default_cycle_interval ltac:(discriminate)) as Href_dc.
  pose proof (get_speed_reference_value hash cycle
                (motor_id (ACMotor.base (ac_motor self)))
                default_cycle_interval ltac:(discriminate)) as Href_ac.
  unfold update_machines.
  erewrite bind_run by (apply lift_run; exact Href_dc).
  erewrite bind_run by (apply lift_run; exact Href_ac).
  cbv beta.
  match goal with |- context [DCMotor.control ?m ?t] =>
    pose proof (proj1 (proj1 control_keeps_plant m t)) as Hdc_id;
    destruct (DCMotor.control m t) as [s_dc dc1] eqn:Hdc end.
  simpl snd in Hdc_id.
  erewrite bind_run by apply DC_update_motor_run.
  cbv beta zeta.
  rewrite monitor_status_speed, monitor_status_temperature,
    monitor_status_efficiency, monitor_status_current, monitor_status_torque.
  erewrite log_block_run by exact Hshape.
  match goal with |- context [ACMotor.control ?m ?t] =>
    pose proof (proj2 control_keeps_plant m t) as Hac_base;
    destruct (ACMotor.control m t) as [s_ac ac1] eqn:Hac end.
  simpl snd in Hac_base.
  erewrite bind_run by apply AC_update_motor_run.
  cbv beta zeta.
  rewrite monitor_status_speed, monitor_status_temperature,
    monitor_status_efficiency, monitor_status_current, monitor_status_torque.
  erewrite log_block_run by (by apply log_sample_shape).
  eexists _, _.
  split; [exact Href_dc|]. split; [exact Href_ac|].
  split; [reflexivity|].
  split; [|split; [|split]].
  - split; [reflexivity|]. split; [reflexivity|].
    eexists _, _. exists st, (after_two_draws st), (after_two_draws st),
      (after_two_draws (after_two_draws st)).
    split; [exact Href_dc|]. split; [exact Href_ac|].
    project_fields. split.
    + unfold DCMotor.control_then_update.
      rewrite Hdc. apply DC_update_motor_run.
    + unfold ACMotor.control_then_update. project_fields.
      cbn [ac_motor set_dc_motor] in Hac. rewrite Hac.
      rewrite AC_update_motor_run. reflexivity.
  - reflexivity.
  - by intros k.
  - unfold machine_motor_ids, bumps. project_fields.
    rewrite Hdc_id, Hac_base. by do 2 apply log_sample_shape.
Qed.

End MachineEffects.

Lemma NoDup_bind_middle {A} (ids : A -> list string) (pre post : list A) (x : A) :
  NoDup ((pre ++ x :: post) ≫= ids) ->
  NoDup (ids x) /\ forall id, id ∈ pre ≫= ids -> id ∉ ids x.
Proof.
  rewrite bind_app, bind_cons. intros Hnd.
  apply NoDup_app in Hnd as (_ & Hdisj & Hnd).
  apply NoDup_app in Hnd as (Hx & _ & _). split; [done|].
  intros id Hid Hin. apply (Hdisj id Hid). apply elem_of_app. by left.
Qed.

Lemma drawn_eq (n m : nat) (st st' : Store) :
  n = m -> drawn n st st' -> drawn m st st'.
Proof. by intros ->. Qed.

Section CycleEffects.

Context {R : Rounding}.

Variable hash : string -> Z.

(** [update_machines] on a machine whose two motors have different
    identities. *)
Lemma update_machines_sampled (self : Machine) (cycle : Z) (st : Store)
    (shape : gmap string nat) :
  logs_shape (motor_logs st) shape ->
  NoDup (machine_motor_ids self) ->
  exists self' st',
    update_machines hash self cycle st
    = Ok (("Machine " +:+ machine_id self +:+ " updated.", self'), st')
    /\ machine_cycle hash cycle self self'
    /\ sampled hash cycle (machine_motors self') (motor_logs st) (motor_logs st')
    /\ drawn 4 st st'
    /\ logs_shape (motor_logs st') (bumps (machine_motor_ids self) shape).
Proof.
  intros Hshape Hnd.
  destruct (update_machines_exact hash self cycle st shape Hshape)
    as (ref_dc & ref_ac & self' & st' & Href_dc & Href_ac & Hrun & Hcycle
        & Hlogs & Hdrawn & Hshape').
  exists self', st'. split; [exact Hrun|]. split; [exact Hcycle|].
  split; [|by split].
  pose proof (machine_cycle_ids hash cycle self self' Hcycle) as Hids.
  unfold machine_motor_ids in Hids, Hnd.
  injection Hids as Hdc Hac.
  assert (motor_id (DCMotor.base (dc_motor self'))
          <> motor_id (ACMotor.base (ac_motor self'))) as Hne.
  { rewrite Hdc, Hac. apply NoDup_cons in Hnd as [Hnotin _].
    intros Heq. apply Hnotin. rewrite Heq. by left. }
  rewrite Hlogs. split.
  - intros m Hm. apply elem_of_cons in Hm as [-> | Hm].
    + exists ref_dc. split; [by rewrite Hdc|].
      rewrite lookup_insert_ne by done. by rewrite lookup_insert_eq.
    + apply elem_of_cons in Hm as [-> | Hm]; [|by apply elem_of_nil in Hm].
      exists ref_ac. split; [by rewrite Hac|].
      rewrite lookup_insert_eq. by rewrite lookup_insert_ne by done.
  - intros id Hid. rewrite machine_motors_ids in Hid.
    unfold machine_motor_ids in Hid.
    rewrite !lookup_insert_ne; [done | |]; intros <-; apply Hid;
      [by left | by right; left].
Qed.

Lemma machines_motors_ids (ms : list Machine) :
  motor_id <$> (ms ≫= machine_motors) = ms ≫= machine_motor_ids.
Proof.
  induction ms as [|m ms IH]; [done|].
  by rewrite !bind_cons, fmap_app, IH.
Qed.

Lemma update_production_line_exact (self : ProductionLine) (cycle : Z)
    (st : Store) (shape : gmap string nat) :
  logs_shape (motor_logs st) shape ->
  NoDup (line_motor_ids self) ->
  exists self' st',
    update_production_line hash self cycle st = Ok (self', st')
    /\ line_related (machine_cycle hash cycle) self self'
    /\ sampled hash cycle (line_motors self') (motor_logs st) (motor_logs st')
    /\ drawn (4 * length (machines self)) st st'
    /\ logs_shape (motor_logs st') (bumps (line_motor_ids self) shape).
Proof.
  intros Hshape Hnd. unfold update_production_line.
  destruct (for_each_loop
              (fun machine => r ← update_machines hash machine cycle; mret (snd r))
              (machine_cycle hash cycle)
              (fun done st' =>
                 sampled hash cycle (done ≫= machine_motors)
                   (motor_logs st) (motor_logs st')
                 /\ drawn (4 * length done) st st'
                 /\ logs_shape (motor_logs st')
                      (bumps (done ≫= machine_motor_ids) shape))
              (machines self)) with (st := st)
    as (l' & st' & Hrun & Hrel & Hsampled & Hdrawn & Hshape').
  - intros pre x post done st1 Hl Hpre (Hs1 & Hd1 & Hshape1).
    unfold line_motor_ids in Hnd. rewrite Hl in Hnd.
    apply NoDup_bind_middle in Hnd as [Hx Hfresh].
    destruct (update_machines_sampled x cycle st1 _ Hshape1 Hx)
      as (x' & st2 & Hrun & Hcycle & Hs2 & Hd2 & Hshape2).
    exists x', st2. split; [by erewrite bind_run by exact Hrun|].
    split; [exact Hcycle|].
    pose proof (machine_cycle_ids hash cycle x x' Hcycle) as Hids.
    pose proof (machines_related_ids _ _ _ (machine_cycle_ids hash cycle) Hpre)
      as Hdone.
    rewrite !bind_app, !bind_singleton. split; [|split].
    + apply sampled_app with (motor_logs st1); [|done..].
      intros id Hid. rewrite machine_motors_ids, Hids. apply Hfresh.
      by rewrite <- Hdone, <- machines_motors_ids.
    + rewrite length_app. simpl.
      apply (drawn_eq (4 * length done + 4)); [lia|]. by eapply drawn_trans.
    + rewrite bumps_app, Hids. exact Hshape2.
  - split; [apply sampled_nil|]. split; [apply drawn_refl | exact Hshape].
  - eexists _, st'. split; [by erewrite bind_run by exact Hrun|].
    split; [by split|]. split; [exact Hsampled|].
    split.
    + by rewrite (Forall2_length _ _ _ Hrel).
    + unfold line_motor_ids.
      by rewrite <- (machines_related_ids _ _ _ (machine_cycle_ids hash cycle) Hrel).
Qed.

Lemma lines_motors_ids (ls : list ProductionLine) :
  motor_id <$> (ls ≫= line_motors) = ls ≫= line_motor_ids.
Proof.
  induction ls as [|l ls IH]; [done|].
  by rewrite !bind_cons, fmap_app, IH, line_motors_ids.
Qed.

(** One cycle of the driver's loop: every line is updated. *)
Lemma factory_cycle_exact (cycle : Z) (factory : Factory) (st : Store)
    (shape : gmap string nat) :
  logs_shape (motor_logs st) shape ->
  NoDup (factory_motor_ids factory) ->
  exists lines st',
    for_each (fun line => update_production_line hash line cycle)
      (production_lines factory) st
    = Ok (lines, st')
    /\ factory_related (machine_cycle hash cycle) factory
         {| factory_name := factory_name factory; production_lines := lines |}
    /\ sampled hash cycle (lines ≫= line_motors) (motor_logs st) (motor_logs st')
    /\ drawn (4 * length (factory_machines factory)) st st'
    /\ logs_shape (motor_logs st') (bumps (factory_motor_ids factory) shape).
Proof.
  intros Hshape Hnd.
  destruct (for_each_loop
              (fun line => update_production_line hash line cycle)
              (line_related (machine_cycle hash cycle))
              (fun done st' =>
                 sampled hash cycle (done ≫= line_motors)
                   (motor_logs st) (motor_logs st')
                 /\ drawn (4 * length (done ≫= machines)) st st'
                 /\ logs_shape (motor_logs st')
                      (bumps (done ≫= line_motor_ids) shape))
              (production_lines factory)) with (st := st)
    as (l' & st' & Hrun & Hrel & Hsampled & Hdrawn & Hshape').
  - intros pre x post done st1 Hl Hpre (Hs1 & Hd1 & Hshape1).
    unfold factory_motor_ids in Hnd. rewrite Hl in Hnd.
    apply NoDup_bind_middle in Hnd as [Hx Hfresh].
    destruct (update_production_line_exact x cycle st1 _ Hshape1 Hx)
      as (x' & st2 & Hrun & Hline & Hs2 & Hd2 & Hshape2).
    exists x', st2. split; [exact Hrun|]. split; [exact Hline|].
    pose proof (line_related_ids _ _ _ (machine_cycle_ids hash cycle) Hline)
      as Hids.
    pose proof (lines_related_ids _ _ _ (machine_cycle_ids hash cycle) Hpre)
      as Hdone.
    rewrite !bind_app, !bind_singleton. split; [|split].
    + apply sampled_app with (motor_logs st1); [|done..].
      intros id Hid. rewrite line_motors_ids, Hids. apply Hfresh.
      by rewrite <- Hdone, <- lines_motors_ids.
    + rewrite length_app. destruct Hline as [_ Hlen].
      apply Forall2_length in Hlen. rewrite <- Hlen.
      apply (drawn_eq (4 * length (done ≫= machines) + 4 * length (machines x)));
        [lia|].
      by eapply drawn_trans.
    + rewrite bumps_app, Hids. exact Hshape2.
  - split; [apply sampled_nil|]. split; [apply drawn_refl | exact Hshape].
  - exists l', st'. split; [exact Hrun|]. split; [by split|].
    split; [exact Hsampled|]. split.
    + unfold factory_machines.
      by rewrite <- (lines_related_machines _ _ _ Hrel).
    + unfold factory_motor_ids.
      by rewrite <- (lines_related_ids _ _ _ (machine_cycle_ids hash cycle) Hrel).
Qed.

(** The sequences "cycle" and "reference" after one more cycle. *)
Lemma logged_cycles_step (cycles : list Z) (cycle : Z) (ms : list Motor)
    (logs logs' : gmap string (gmap string (list value))) :
  logs_shape logs (uniform_shape (length cycles) (motor_id <$> ms)) ->
  logged_cycles hash cycles logs ->
  sampled hash cycle ms logs logs' ->
  logged_cycles hash (cycles ++ [cycle]) logs'.
Proof.
  intros Hshape Hlogged [Hin Hout] id entry' Hentry'.
  destruct (decide (id ∈ motor_id <$> ms)) as [Hid | Hid].
  - apply list_elem_of_fmap in Hid as (m & -> & Hm).
    destruct (Hin m Hm) as (ref & Href & Hlook).
    rewrite Hlook in Hentry'. injection Hentry' as <-.
    rewrite get_speed_reference_value in Href by discriminate.
    injection Href as <-.
    unfold status_sample.
    match goal with |- context [entry_sample ?v1 ?v2 ?v3 ?v4 ?v5 ?v6 ?v7 ?e] =>
      destruct (entry_sample_lookup v1 v2 v3 v4 v5 v6 v7 e)
        as (H1 & _ & _ & _ & _ & _ & H7) end.
    rewrite H1, H7. rewrite !fmap_app. simpl.
    destruct (logs !! motor_id m) as [entry|] eqn:Hentry; simpl.
    + destruct (Hlogged _ _ Hentry) as [-> ->]. done.
    + pose proof (Hshape (motor_id m)) as Hs.
      rewrite Hentry, uniform_shape_lookup in Hs.
      destruct cycles as [|c cycles]; [done|]. simpl in Hs.
      rewrite decide_True in Hs by (by apply list_elem_of_fmap_2). done.
  - rewrite (Hout id Hid) in Hentry'.
    destruct (logs_shape_uniform_entry _ _ _ _ _ Hshape Hentry') as (_ & Hin' & _).
    done.
Qed.

Section Cycles.

(** A relation of each machine to what [n] cycles make of it, kept by
    one more cycle. *)
Variable related : nat -> Machine -> Machine -> Prop.
Hypothesis related_0 : forall m, related 0 m m.
Hypothesis related_S : forall cycle n m0 m1 m2,
  related n m0 m1 -> machine_cycle hash cycle m1 m2 -> related (S n) m0 m2.

Lemma factory_related_refl (f : Factory) : factory_related (related 0) f f.
Proof.
  split; [done|]. apply Forall_Forall2_diag, Forall_forall. intros l _.
  split; [done|]. apply Forall_Forall2_diag, Forall_forall. by intros m _.
Qed.

Lemma factory_related_step (cycle : Z) (n : nat) (f0 f1 f2 : Factory) :
  factory_related (related n) f0 f1 ->
  factory_related (machine_cycle hash cycle) f1 f2 ->
  factory_related (related (S n)) f0 f2.
Proof.
  intros [Hname1 H1] [Hname2 H2]. split; [congruence|].
  revert H2. generalize (production_lines f2).
  induction H1 as [|l0 l1 ls0 ls1 [Hid1 Hm1] _ IH]; intros ls2 H2.
  - apply Forall2_nil_inv_l in H2 as ->. constructor.
  - apply Forall2_cons_inv_l in H2 as (l2 & ls2' & [Hid2 Hm2] & H2 & ->).
    constructor; [|by apply IH]. split; [congruence|].
    clear -Hm1 Hm2 related_S. revert Hm2. generalize (machines l2).
    induction Hm1 as [|m0 m1 ms0 ms1 Hr _ IH]; intros ms2 Hm2.
    + apply Forall2_nil_inv_l in Hm2 as ->. constructor.
    + apply Forall2_cons_inv_l in Hm2 as (m2 & ms2' & Hc & Hm2 & ->).
      constructor; [by eapply related_S | by apply IH].
Qed.

(** The driver's loop over a list of cycles, after the cycles [done]. *)
Lemma cycles_exact (cycles done : list Z) (f0 f : Factory) (st0 st : Store) :
  NoDup (factory_motor_ids f) ->
  factory_related (related (length done)) f0 f ->
  logs_shape (motor_logs st) (uniform_shape (length done) (factory_motor_ids f)) ->
  logged_cycles hash done (motor_logs st) ->
  drawn (4 * length (factory_machines f) * length done) st0 st ->
  (forall cycle, last done = Some cycle ->
     exists logs_prev,
       sampled hash cycle (factory_motors f) logs_prev (motor_logs st)) ->
  exists f' st',
    for_range
      (fun cycle factory =>
         lines ← for_each (fun line => update_production_line hash line cycle)
                   (production_lines factory);
         mret {| factory_name := factory_name factory;
                 production_lines := lines |})
      cycles f st
    = Ok (f', st')
    /\ factory_motor_ids f' = factory_motor_ids f
    /\ length (factory_machines f') = length (factory_machines f)
    /\ factory_related (related (length (done ++ cycles))) f0 f'
    /\ logs_shape (motor_logs st')
         (uniform_shape (length (done ++ cycles)) (factory_motor_ids f))
    /\ logged_cycles hash (done ++ cycles) (motor_logs st')
    /\ drawn (4 * length (factory_machines f) * length (done ++ cycles)) st0 st'
    /\ (forall cycle, last (done ++ cycles) = Some cycle ->
          exists logs_prev,
            sampled hash cycle (factory_motors f') logs_prev (motor_logs st')).
Proof.
  revert done f st.
  induction cycles as [|cycle cycles IH];
    intros done f st Hnd Hrel Hshape Hlogged Hdrawn Hlast.
  - exists f, st. rewrite app_nil_r. repeat (split; [done|]). done.
  - destruct (factory_cycle_exact cycle f st _ Hshape Hnd)
      as (lines & st1 & Hrun & Hcycle & Hsampled & Hd1 & Hshape1).
    set (f1 := {| factory_name := factory_name f; production_lines := lines |})
      in *.
    pose proof (factory_related_ids _ _ _ (machine_cycle_ids hash cycle) Hcycle)
      as Hids.
    assert (length (factory_machines f1) = length (factory_machines f)) as Hlen.
    { destruct Hcycle as [_ Hlines]. by apply lines_related_machines in Hlines. }
    rewrite bumps_uniform in Hshape1 by done.
    destruct (IH (done ++ [cycle]) f1 st1) as (f2 & st2 & Hrest & Hids2 & Hlen2
        & Hrel2 & Hshape2 & Hlogged2 & Hd2 & Hlast2).
    + by rewrite Hids.
    + rewrite length_app, Nat.add_1_r. by eapply factory_related_step.
    + rewrite length_app, Nat.add_1_r, Hids. exact Hshape1.
    + apply (logged_cycles_step done cycle (lines ≫= line_motors) (motor_logs st));
        [|done..].
      change (lines ≫= line_motors) with (factory_motors f1).
      by rewrite factory_motors_ids, Hids.
    + rewrite Hlen, length_app. simpl.
      apply (drawn_eq (4 * length (factory_machines f) * length done
                       + 4 * length (factory_machines f))); [lia|].
      by eapply drawn_trans.
    + intros c Hc. rewrite last_snoc in Hc. injection Hc as <-.
      by exists (motor_logs st).
    + rewrite <- app_assoc in *. simpl in *. rewrite Hids, Hlen in *.
      exists f2, st2. split; [|done].
      erewrite bind_run by (erewrite bind_run by exact Hrun; reflexivity).
      exact Hrest.
Qed.

(** The whole run of the driver. *)
Lemma simulation_exact (num_lines machines_per_line total_cycles : Z)
    (st : Store) :
  let f0 :=
    Factory_init "Smart Information Model Factory" num_lines machines_per_line in
  let cycles := range2 1 (total_cycles + 1) in
  exists f' st',
    simulation hash num_lines machines_per_line total_cycles st = Ok (f', st')
    /\ factory_motor_ids f' = factory_motor_ids f0
    /\ length (factory_machines f') = length (factory_machines f0)
    /\ factory_related (related (Z.to_nat total_cycles)) f0 f'
    /\ logs_shape (motor_logs st')
         (uniform_shape (Z.to_nat total_cycles) (factory_motor_ids f0))
    /\ logged_cycles hash cycles (motor_logs st')
    /\ drawn (4 * length (factory_machines f0) * Z.to_nat total_cycles) st st'
    /\ (0 < total_cycles ->
          exists logs_prev,
            sampled hash total_cycles (factory_motors f') logs_prev
              (motor_logs st')).
Proof.
  intros f0 cycles. unfold simulation.
  destruct (cycles_exact cycles [] f0 f0 st (set_motor_logs ∅ st))
    as (f' & st' & Hrun & Hids & Hlen & Hrel & Hshape & Hlogged & Hdrawn & Hlast).
  - apply factory_motor_ids_NoDup.
  - apply factory_related_refl.
  - intros id. simpl. by rewrite !lookup_empty.
  - intros id entry Hentry. simpl in Hentry. by rewrite lookup_empty in Hentry.
  - simpl. rewrite Nat.mul_0_r. by intros k.
  - done.
  - assert (length cycles = Z.to_nat total_cycles) as Hn.
    { subst cycles. unfold range2. rewrite length_seqZ. lia. }
    simpl app in *. rewrite Hn in *.
    exists f', st'. split; [exact Hrun|]. repeat (split; [done|]).
    intros Hpos. apply Hlast. subst cycles. unfold range2.
    replace (total_cycles + 1 - 1) with (Z.of_nat (S (Z.to_nat (total_cycles - 1))))
      by lia.
    rewrite seqZ_S, last_snoc. f_equal. lia.
Qed.

End Cycles.

End CycleEffects.




Section CycleProperties.

Context {R : Rounding}.

Variable hash : string -> Z.


(** X7: after a run of [N >= 1] cycles, the entry of every motor of
    the factory holds, in its sequence "cycle", the cycles [1, ..., N]
    in this order and, in its sequence "reference", the reference of
    that motor at each of these cycles. *)
Theorem log_records_every_cycle
    (num_lines machines_per_line total_cycles : Z) (st : Store) (id : string) :
  0 < total_cycles ->
  id ∈ factory_motor_ids
         (Factory_init "Smart Information Model Factory"
            num_lines machines_per_line) ->
  exists factory st' entry,
    simulation hash num_lines machines_per_line total_cycles st
    = Ok (factory, st')
    /\ motor_logs st' !! id = Some entry
    /\ entry !! "cycle" = Some (Int <$> range2 1 (total_cycles + 1))
    /\ entry !! "reference"
       = Some ((fun cycle =>
                  Int (Z.abs (hash id) mod 200 + 1000
                       + 100 * ((cycle / 50) mod 4)))
                 <$> range2 1 (total_cycles + 1)).
Proof.
  intros Hpos Hid.
  destruct (simulation_exact hash (fun _ _ _ => True) ltac:(done) ltac:(done)
              num_lines machines_per_line total_cycles st)
    as (f' & st' & Hrun & _ & _ & _ & Hshape & Hlogged & _).
  pose proof (Hshape id) as Hentry. rewrite uniform_shape_lookup in Hentry.
  destruct (Z.to_nat total_cycles) as [|n] eqn:Hn; [lia|].
  rewrite decide_True in Hentry by done.
  destruct (motor_logs st' !! id) as [entry|] eqn:Hlook; [|done].
  exists f', st', entry. split; [exact Hrun|]. split; [done|].
  exact (Hlogged id entry Hlook).
Qed.


Lemma factory_machines_init_length (factory_name : string)
    (num_lines machines_per_line : Z) :
  length (factory_machines
            (Factory_init factory_name num_lines machines_per_line))
  = (Z.to_nat num_lines * Z.to_nat machines_per_line)%nat.
Proof.
  unfold factory_machines, Factory_init. simpl. rewrite list_fmap_bind.
  rewrite (length_bind_const _ _ (Z.to_nat machines_per_line)).
  - unfold range, range2. rewrite length_seqZ. f_equal. lia.
  - intros i. simpl. rewrite length_fmap. unfold range, range2.
    rewrite length_seqZ. lia.
Qed.

(** X9: a run makes exactly four draws of the random generator for
    each machine and cycle, [4 * L * M * N] in all for [L] lines of [M]
    machines and [N] cycles (none when one of them is not positive). *)
Theorem simulation_draws
    (num_lines machines_per_line total_cycles : Z) (st : Store) :
  exists factory st',
    simulation hash num_lines machines_per_line total_cycles st
    = Ok (factory, st')
    /\ drawn (4 * (Z.to_nat num_lines * Z.to_nat machines_per_line)
              * Z.to_nat total_cycles) st st'.
Proof.
  destruct (simulation_exact hash (fun _ _ _ => True) ltac:(done) ltac:(done)
              num_lines machines_per_line total_cycles st)
    as (f' & st' & Hrun & _ & _ & _ & _ & _ & Hdrawn & _).
  exists f', st'. split; [exact Hrun|].
  by rewrite factory_machines_init_length in Hdrawn.
Qed.

Lemma DC_cycle_frame (m m' : DCMotor.t) (target : Q) (st st' : Store) :
  DCMotor.control_then_update m target st = Ok (m', st') ->
  operating_hours (DCMotor.base m') = operating_hours (DCMotor.base m) + 1
  /\ DCMotor.controller_gain m' = DCMotor.controller_gain m
  /\ DCMotor.integral_gain m' = DCMotor.integral_gain m.
Proof.
  unfold DCMotor.control_then_update.
  assert (operating_hours (DCMotor.base (snd (DCMotor.control m target)))
          = operating_hours (DCMotor.base m)
          /\ DCMotor.controller_gain (snd (DCMotor.control m target))
             = DCMotor.controller_gain m
          /\ DCMotor.integral_gain (snd (DCMotor.control m target))
             = DCMotor.integral_gain m) as (H1 & H2 & H3) by done.
  destruct (DCMotor.control m target) as [s m1]. simpl in H1, H2, H3.
  rewrite DC_update_motor_run. intros Heq. simplify_eq. simpl.
  by rewrite H1.
Qed.

Lemma AC_cycle_frame (m m' : ACMotor.t) (target : Q) (st st' : Store) :
  ACMotor.control_then_update m target st = Ok (m', st') ->
  operating_hours (ACMotor.base m') = operating_hours (ACMotor.base m) + 1
  /\ ACMotor.controller_gain m' = ACMotor.controller_gain m
  /\ ACMotor.integral_gain m' = ACMotor.integral_gain m
  /\ ACMotor.base_frequency m' = ACMotor.base_frequency m
  /\ voltage (ACMotor.base m') = voltage (ACMotor.base m).
Proof.
  unfold ACMotor.control_then_update.
  assert (ACMotor.base (snd (ACMotor.control m target)) = ACMotor.base m
          /\ ACMotor.controller_gain (snd (ACMotor.control m target))
             = ACMotor.controller_gain m
          /\ ACMotor.integral_gain (snd (ACMotor.control m target))
             = ACMotor.integral_gain m
          /\ ACMotor.base_frequency (snd (ACMotor.control m target))
             = ACMotor.base_frequency m) as (H1 & H2 & H3 & H4) by done.
  destruct (ACMotor.control m target) as [s m1]. simpl in H1, H2, H3, H4.
  rewrite AC_update_motor_run. intros Heq. simplify_eq. simpl.
  by rewrite H1.
Qed.

Lemma machine_aged_0 (m : Machine) : machine_aged 0 m m.
Proof. unfold machine_aged. simpl. repeat split; lia. Qed.

Lemma machine_aged_S (cycle : Z) (n : nat) (m0 m1 m2 : Machine) :
  machine_aged n m0 m1 -> machine_cycle hash cycle m1 m2 ->
  machine_aged (S n) m0 m2.
Proof.
  intros (A1 & A2 & A3 & A4 & A5 & A6 & A7 & A8 & A9 & A10 & A11 & A12)
         (C1 & C2 & ref_dc & ref_ac & s1 & s2 & s3 & s4 & _ & _ & Hdc & Hac).
  pose proof (DC_cycle_motor_id _ _ _ _ _ Hdc) as D0.
  pose proof (AC_cycle_motor_id _ _ _ _ _ Hac) as E0.
  destruct (DC_cycle_frame _ _ _ _ _ Hdc) as (D1 & D2 & D3).
  destruct (AC_cycle_frame _ _ _ _ _ Hac) as (E1 & E2 & E3 & E4 & E5).
  unfold machine_aged. repeat split; try congruence; lia.
Qed.

(** What holds of the machines of a hierarchy holds of the machines
    related to them. *)
Lemma factory_related_Forall (r : Machine -> Machine -> Prop)
    (P Q : Machine -> Prop) (f f' : Factory) :
  (forall m m', r m m' -> P m -> Q m') ->
  factory_related r f f' ->
  Forall P (factory_machines f) -> Forall Q (factory_machines f').
Proof.
  intros Hr [_ Hlines]. unfold factory_machines.
  induction Hlines as [|l l' ls ls' [_ Hms] _ IH]; [done|].
  rewrite !bind_cons, !Forall_app. intros [Hl Hrest]. split; [|by apply IH].
  clear -Hr Hms Hl. induction Hms as [|m m' ms ms' Hm _ IH]; [done|].
  apply Forall_cons in Hl as [Hm0 Hl]. constructor; [by eapply Hr | by apply IH].
Qed.

Lemma factory_machines_init (factory_name : string)
    (num_lines machines_per_line : Z) (m : Machine) :
  m ∈ factory_machines (Factory_init factory_name num_lines machines_per_line) ->
  exists machine_id, m = Machine_init machine_id.
Proof.
  unfold factory_machines, Factory_init. simpl. intros Hm.
  apply list_elem_of_bind in Hm as (l & Hm & Hl).
  apply list_elem_of_fmap in Hl as (i & -> & _). simpl in Hm.
  apply list_elem_of_fmap in Hm as (j & -> & _). by eexists.
Qed.

(** X10: the factory a run returns has the name, the lines, the
    machines, the identities, the statuses and the controller
    parameters of the factory constructed, and every motor of it has
    run as many operating hours as there were cycles. *)
Theorem simulation_ages_motors
    (num_lines machines_per_line total_cycles : Z) (st : Store) :
  exists factory st',
    simulation hash num_lines machines_per_line total_cycles st
    = Ok (factory, st')
    /\ factory_related (machine_aged (Z.to_nat total_cycles))
         (Factory_init "Smart Information Model Factory"
            num_lines machines_per_line)
         factory
    /\ Forall
         (fun m =>
            operating_hours (DCMotor.base (dc_motor m)) = Z.max 0 total_cycles
            /\ operating_hours (ACMotor.base (ac_motor m))
               = Z.max 0 total_cycles)
         (factory_machines factory).
Proof.
  destruct (simulation_exact hash machine_aged machine_aged_0 machine_aged_S
              num_lines machines_per_line total_cycles st)
    as (f' & st' & Hrun & _ & _ & Hrel & _).
  exists f', st'. split; [exact Hrun|]. split; [exact Hrel|].
  apply (factory_related_Forall _
           (fun m => exists machine_id, m = Machine_init machine_id) _ _ _)
    with (2 := Hrel).
  - intros m m' (_ & _ & _ & _ & Hdc & Hac & _) [machine_id ->].
    rewrite Hdc, Hac. simpl. lia.
  - apply Forall_forall. intros m Hm. by eapply factory_machines_init.
Qed.

End CycleProperties.

Section RunRanges.

Context {R : Rounding} (HR : RoundingLaws).

Variable hash : string -> Z.

Lemma machine_in_range_init (machine_id : string) :
  machine_in_range (Machine_init machine_id).
Proof. unfold machine_in_range. simpl. repeat split; lra. Qed.

Lemma machine_cycle_in_range (cycle : Z) (m m' : Machine) :
  machine_cycle hash cycle m m' -> machine_in_range m -> machine_in_range m'.
Proof.
  intros (_ & _ & ref_dc & ref_ac & s1 & s2 & s3 & s4 & _ & _ & Hdc & Hac)
         (Hs & _ & _ & _ & Hsa & _).
  unfold machine_in_range. cbv zeta.
  destruct (DC_cycle_speed HR (dc_motor m) (inject_Z ref_dc) s1 Hs)
    as (dc1 & st1 & Hrun1 & Hspeed_dc).
  destruct (DC_cycle_outputs HR (dc_motor m) (inject_Z ref_dc) s1)
    as (dc2 & st2 & Hrun2 & Hv & Hc & Ht).
  destruct (AC_cycle_speed HR (ac_motor m) (inject_Z ref_ac) s3 Hsa)
    as (ac1 & st3 & Hrun3 & Hspeed_ac).
  destruct (AC_cycle_outputs HR (ac_motor m) (inject_Z ref_ac) s3)
    as (ac2 & st4 & Hrun4 & _ & Hf & [Hc0 Hc1] & [Ht0 Ht1]).
  rewrite Hdc in Hrun1, Hrun2. rewrite Hac in Hrun3, Hrun4. simplify_eq.
  repeat (split; [done|]). split; split; lra.
Qed.

(** X11: after a run of any length, every machine of the returned
    factory has its DC motor's speed in [[0, 1500]], voltage in
    [[0, 480]], current in [[0, 10]] and torque in [[0, 5]], and its AC
    motor's speed in [[0, 1800]], frequency in [[40, 60]], current in
    [[0, 10]] and torque in [[0, 5]]. *)
Theorem simulation_keeps_ranges
    (num_lines machines_per_line total_cycles : Z) (st : Store) :
  exists factory st',
    simulation hash num_lines machines_per_line total_cycles st
    = Ok (factory, st')
    /\ Forall machine_in_range (factory_machines factory).
Proof.
  destruct (simulation_exact hash
              (fun _ m m' => machine_in_range m -> machine_in_range m')
              (fun m H => H)
              (fun c n m0 m1 m2 H01 H12 H0 =>
                 machine_cycle_in_range c m1 m2 H12 (H01 H0))
              num_lines machines_per_line total_cycles st)
    as (f' & st' & Hrun & _ & _ & Hrel & _).
  exists f', st'. split; [exact Hrun|].
  apply (factory_related_Forall _
           (fun m => exists machine_id, m = Machine_init machine_id) _ _ _)
    with (2 := Hrel).
  - intros m m' Hr [machine_id ->]. apply Hr, machine_in_range_init.
  - apply Forall_forall. intros m Hm. by eapply factory_machines_init.
Qed.

End RunRanges.

(** Witnesses *)

Lemma ac_speed_bounded_witness :
  let R := binary64 in
  exists trace st',
    run_steps ACMotor.control_then_update [1279; 1279; 1379]%Q
      (ACMotor.init "Line_1_M0_AC")
      {| random_state := sample_random; motor_logs := ∅ |}
    = Ok (trace, st')
    /\ length trace = 3%nat
    /\ forall m : ACMotor.t,
         m ∈ trace ->
         (0 <= speed (ACMotor.base m) <= 1800)%Q
         /\ (40 <= ACMotor.frequency m <= 60)%Q.
Proof.
  intros R.
  exact (ac_speed_bounded (R := binary64) binary64_laws
           "Line_1_M0_AC" [1279; 1279; 1379]%Q
           {| random_state := sample_random; motor_logs := ∅ |}).
Defined.

Lemma cycle_outputs_bounded_witness :
  let R := binary64 in
  let st := {| random_state := sample_random; motor_logs := ∅ |} in
  (exists m' st',
     DCMotor.control_then_update (DCMotor.init "Line_1_M0_DC") 1079 st
     = Ok (m', st')
     /\ (0 <= voltage (DCMotor.base m') <= 480)%Q
     /\ (0 <= current (DCMotor.base m') <= 10)%Q
     /\ (0 <= torque (DCMotor.base m') <= 5)%Q)
  /\ (exists m' st',
        ACMotor.control_then_update (ACMotor.init "Line_1_M0_AC") 1279 st
        = Ok (m', st')
        /\ voltage (ACMotor.base m')
           = voltage (ACMotor.base (ACMotor.init "Line_1_M0_AC"))
        /\ (40 <= ACMotor.frequency m' <= 60)%Q
        /\ (6 <= current (ACMotor.base m') <= 10)%Q
        /\ (3 <= torque (ACMotor.base m') <= 5)%Q).
Proof.
  intros R st. split.
  - apply (proj1 (cycle_outputs_bounded (R := binary64) binary64_laws)).
  - apply (proj2 (cycle_outputs_bounded (R := binary64) binary64_laws)).
Defined.


Lemma log_records_every_cycle_witness :
  let R := binary64 in
  exists factory st' entry,
    simulation sample_hash 2 2 101
      {| random_state := sample_random; motor_logs := ∅ |}
    = Ok (factory, st')
    /\ motor_logs st' !! "Line_1_M0_DC" = Some entry
    /\ entry !! "cycle" = Some (Int <$> range2 1 (101 + 1))
    /\ entry !! "reference"
       = Some ((fun cycle =>
                  Int (Z.abs (sample_hash "Line_1_M0_DC") mod 200 + 1000
                       + 100 * ((cycle / 50) mod 4)))
                 <$> range2 1 (101 + 1)).
Proof.
  intros R.
  apply (log_records_every_cycle (R := binary64) sample_hash 2 2 101); [lia|].
  apply factory_motor_ids_elem. exists 0, 0, "_DC".
  split; [lia|]. split; [lia|]. split; [by left | reflexivity].
Defined.


Lemma simulation_keeps_ranges_witness :
  let R := binary64 in
  exists factory st',
    simulation sample_hash 2 2 101
      {| random_state := sample_random; motor_logs := ∅ |}
    = Ok (factory, st')
    /\ Forall machine_in_range (factory_machines factory).
Proof.
  intros R.
  exact (simulation_keeps_ranges (R := binary64) binary64_laws sample_hash
           2 2 101 {| random_state := sample_random; motor_logs := ∅ |}).
Defined.



(** ** The display code *)

(** *** Identities and titles *)

Lemma str_has_char (c : Ascii.ascii) (i : Z) :
  c <> "-"%char -> (forall d : N, pretty_N_char d <> c) ->
  has_char c (str i) = false.
Proof.
  intros Hminus Hdigit.
  assert (forall x : N, has_char c (pretty x) = false) as HN.
  { intros x. unfold pretty, pretty_N. destruct (decide (x = 0)%N).
    - simpl. destruct (decide (c = "0"%char)) as [-> |]; [|done].
      by destruct (Hdigit 0%N).
    - by rewrite pretty_N_go_has_char. }
  unfold str, pretty, pretty_Z. destruct i as [|p|p]; [apply (HN 0%N) | apply HN |].
  rewrite has_char_app. simpl.
  destruct (decide (c = "-"%char)); [done|]. apply HN.
Qed.

Lemma str_split_whole (c : Ascii.ascii) (s : string) :
  has_char c s = false -> str_split c s = [s].
Proof.
  induction s as [|a s IH]; simpl; [done|].
  destruct (decide (c = a)) as [|Hne]; [done|]. intros Hs.
  rewrite decide_False by done. by rewrite IH.
Qed.

Lemma str_split_first (c : Ascii.ascii) (s t : string) :
  has_char c s = false ->
  str_split c (s +:+ String c t) = s :: str_split c t.
Proof.
  induction s as [|a s IH]; rewrite ?string_app_cons; simpl.
  - intros _. by rewrite decide_True.
  - destruct (decide (c = a)) as [|Hne]; [done|]. intros Hs.
    rewrite decide_False by done. by rewrite IH.
Qed.

Lemma str_split_motor_name (i j : Z) (kind : string) :
  has_char "_" kind = false ->
  str_split "_" (motor_name i j (String "_" kind))
  = ["Line"; str (i + 1); "M" +:+ str j; kind].
Proof.
  intros Hkind. unfold motor_name. rewrite !string_app_assoc.
  change ("Line_" +:+ ?x) with ("Line" +:+ String "_"%char x).
  rewrite str_split_first by done.
  change ("_M" +:+ ?x) with (String "_"%char ("M" +:+ x)).
  rewrite str_split_first by apply str_no_underscore.
  change ("M" +:+ ?x) with (String "M"%char x).
  rewrite <- (string_app_cons "M").
  rewrite str_split_first.
  2:{ simpl. apply str_no_underscore. }
  by rewrite str_split_whole by done.
Qed.

Lemma machine_key_motor_name (i j : Z) (suffix : string) :
  suffix ∈ ["_DC"; "_AC"] ->
  machine_key (motor_name i j suffix) = Some (machine_title i j).
Proof.
  intros Hs.
  assert (exists kind, suffix = String "_"%char kind
                       /\ has_char "_"%char kind = false)
    as (kind & -> & Hkind).
  { apply elem_of_cons in Hs as [-> | Hs]; [by eexists|].
    apply elem_of_cons in Hs as [-> | Hs]; [by eexists|]. by apply elem_of_nil in Hs. }
  unfold machine_key. rewrite str_split_motor_name by done. reflexivity.
Qed.

Lemma machine_key_no_underscore (motor_id : string) :
  has_char "_" motor_id = false -> machine_key motor_id = None.
Proof.
  intros Hid. unfold machine_key. by rewrite str_split_whole.
Qed.

Lemma machine_title_inj (i j i' j' : Z) :
  machine_title i j = machine_title i' j' -> i = i' /\ j = j'.
Proof.
  unfold machine_title. intros Heq.
  apply (inj (String.app "Line ")) in Heq.
  change (" - M" +:+ ?x) with (String " "%char ("- M" +:+ x)) in Heq.
  apply separator_unique in Heq as [Hi Heq].
  - apply (inj (String.app "- M")) in Heq.
    apply (inj pretty) in Hi. apply (inj pretty) in Heq. lia.
  - apply str_has_char; [done|]. intros d. unfold pretty_N_char. by repeat case_match.
  - apply str_has_char; [done|]. intros d. unfold pretty_N_char. by repeat case_match.
Qed.

(** *** Dictionaries as lists of items *)

Lemma items_get_app {V} (d d' : list (string * V)) (k : string) :
  k ∉ d.*1 -> items_get (d ++ d') k = items_get d' k.
Proof.
  induction d as [|[k' v] d IH]; simpl; [done|]. intros Hk.
  rewrite decide_False by (intros ->; apply Hk; by left).
  apply IH. intros Hin. apply Hk. by right.
Qed.

Lemma items_set_app {V} (d d' : list (string * V)) (k : string) (v : V) :
  k ∉ d.*1 -> items_set (d ++ d') k v = d ++ items_set d' k v.
Proof.
  induction d as [|[k' v'] d IH]; simpl; [done|]. intros Hk.
  rewrite decide_False by (intros ->; apply Hk; by left).
  f_equal. apply IH. intros Hin. apply Hk. by right.
Qed.

Lemma items_get_Some {V} (d : list (string * V)) (k : string) :
  k ∈ d.*1 -> is_Some (items_get d k).
Proof.
  induction d as [|[k' v] d IH]; simpl.
  - intros H. by apply elem_of_nil in H.
  - intros H. destruct (decide (k' = k)); [by eexists|].
    apply IH. apply elem_of_cons in H as [-> | H]; done.
Qed.

Lemma items_get_elem {V} (d : list (string * V)) (k : string) (v : V) :
  items_get d k = Some v -> (k, v) ∈ d.
Proof.
  induction d as [|[k' v'] d IH]; simpl; [done|].
  destruct (decide (k' = k)) as [-> |].
  - intros [= ->]. by left.
  - intros H. right. by apply IH.
Qed.

Lemma items_get_None {V} (d : list (string * V)) (k : string) :
  k ∉ d.*1 -> items_get d k = None.
Proof.
  intros Hk. destruct (items_get d k) as [v|] eqn:Hv; [|done].
  apply items_get_elem in Hv. destruct Hk.
  apply list_elem_of_fmap. by exists (k, v).
Qed.

Lemma items_get_middle {V} (d d' : list (string * V)) (k : string) (v : V) :
  k ∉ d.*1 -> items_get (d ++ (k, v) :: d') k = Some v.
Proof.
  intros Hk. rewrite items_get_app by done. simpl. by rewrite decide_True.
Qed.

Lemma items_set_middle {V} (d d' : list (string * V)) (k : string) (v v' : V) :
  k ∉ d.*1 -> items_set (d ++ (k, v) :: d') k v' = d ++ (k, v') :: d'.
Proof.
  intros Hk. rewrite items_set_app by done. simpl. by rewrite decide_True.
Qed.

Lemma items_set_new {V} (d : list (string * V)) (k : string) (v : V) :
  k ∉ d.*1 -> items_set d k v = d ++ [(k, v)].
Proof.
  intros Hk. rewrite <- (app_nil_r d) at 1. by rewrite items_set_app.
Qed.

(** The first motor of a machine opens a group, at the end. *)
Lemma group_motor_new
    (groups : list (string * list (string * gmap string (list value))))
    (motor_id key : string) (data : gmap string (list value)) :
  machine_key motor_id = Some key -> key ∉ groups.*1 ->
  group_motor groups (motor_id, data) = groups ++ [(key, [(motor_id, data)])].
Proof.
  intros Hkey Hfresh. unfold group_motor. rewrite Hkey.
  destruct (decide (is_Some (items_get groups key))) as [Hsome | _].
  - rewrite items_get_None in Hsome by done. by destruct Hsome.
  - rewrite (items_set_new groups) by done.
    rewrite items_get_middle, items_set_middle by done. reflexivity.
Qed.

(** A further motor of the machine joins the group, in its place. *)
Lemma group_motor_old
    (groups rest : list (string * list (string * gmap string (list value))))
    (group : list (string * gmap string (list value)))
    (motor_id key : string) (data : gmap string (list value)) :
  machine_key motor_id = Some key -> key ∉ groups.*1 ->
  group_motor (groups ++ (key, group) :: rest) (motor_id, data)
  = groups ++ (key, items_set group motor_id data) :: rest.
Proof.
  intros Hkey Hfresh. unfold group_motor. rewrite Hkey.
  destruct (decide (is_Some (items_get (groups ++ (key, group) :: rest) key)))
    as [_ | Hnone].
  - by rewrite items_get_middle, items_set_middle by done.
  - destruct Hnone. rewrite items_get_middle by done. by eexists.
Qed.

(** A motor whose identity has fewer than four parts is left out. *)
Lemma group_motor_skip
    (groups : list (string * list (string * gmap string (list value))))
    (motor_id : string) (data : gmap string (list value)) :
  machine_key motor_id = None -> group_motor groups (motor_id, data) = groups.
Proof. intros Hkey. unfold group_motor. by rewrite Hkey. Qed.

(** The groups of a log made of the two motors of each of a list of
    machines with different keys. *)
Lemma group_by_machine_pairs {A}
    (key dc ac : A -> string) (dc_data ac_data : A -> gmap string (list value))
    (ms : list A) :
  (forall m, m ∈ ms ->
     machine_key (dc m) = Some (key m) /\ machine_key (ac m) = Some (key m)
     /\ dc m <> ac m) ->
  NoDup (key <$> ms) ->
  group_by_machine
    (ms ≫= (fun m => [(dc m, dc_data m); (ac m, ac_data m)]))
  = (fun m => (key m, [(dc m, dc_data m); (ac m, ac_data m)])) <$> ms.
Proof.
  intros Hms Hnd. unfold group_by_machine.
  assert (forall acc,
            (forall m, m ∈ ms -> key m ∉ acc.*1) ->
            foldl group_motor acc
              (ms ≫= (fun m => [(dc m, dc_data m); (ac m, ac_data m)]))
            = acc ++ ((fun m => (key m, [(dc m, dc_data m); (ac m, ac_data m)]))
                        <$> ms)) as Hgen.
  { induction ms as [|m ms IH]; intros acc Hacc.
    - simpl. by rewrite app_nil_r.
    - destruct (Hms m ltac:(by left)) as (Hdc & Hac & Hne).
      apply NoDup_cons in Hnd as [Hm Hnd].
      pose proof (Hacc m ltac:(by left)) as Hfresh.
      rewrite bind_cons. simpl app. cbn [foldl].
      rewrite (group_motor_new acc _ _ _ Hdc Hfresh).
      rewrite (group_motor_old acc [] _ _ _ _ Hac Hfresh).
      cbn [items_set]. rewrite decide_False by done.
      rewrite IH.
      + rewrite <- app_assoc. reflexivity.
      + intros m' Hm'. apply Hms. by right.
      + done.
      + intros m' Hm'. rewrite fmap_app. simpl. intros Hin.
        apply elem_of_app in Hin as [Hin | Hin].
        * by apply (Hacc m' ltac:(by right)).
        * apply list_elem_of_singleton in Hin. apply Hm. rewrite <- Hin.
          by apply list_elem_of_fmap_2. }
  apply (Hgen []). intros m _ Hin. by apply elem_of_nil in Hin.
Qed.

(** *** Figures *)

Lemma list_getitem_nat {A} (l : list A) (i : nat) :
  list_getitem l (Z.of_nat i)
  = match l !! i with
    | Some x => Ok x
    | None => Raise IndexError
    end.
Proof.
  unfold list_getitem. destruct (decide (Z.of_nat i < 0)) as [|_]; [lia|].
  rewrite Nat2Z.id.
  destruct (decide (0 <= Z.of_nat i < Z.of_nat (length l))) as [_ | Hout]; [done|].
  rewrite lookup_ge_None_2; [done | lia].
Qed.

Lemma axs_setitem_nat (i : nat) (ax : Axes) (axs : list Axes) :
  axs_setitem (Z.of_nat i) ax axs = <[i := ax]> axs.
Proof.
  unfold axs_setitem. destruct (decide (Z.of_nat i < 0)) as [|_]; [lia|].
  by rewrite Nat2Z.id.
Qed.

Lemma label_last_axes_snoc (s : string) (axs : list Axes) (ax : Axes) :
  label_last_axes s (axs ++ [ax]) = Done (axs ++ [set_xlabel s ax]).
Proof.
  unfold label_last_axes, list_getitem, axs_setitem.
  rewrite length_app. simpl length.
  destruct (decide (-1 < 0)) as [_|]; [|lia].
  destruct (decide (0 <= -1 + Z.of_nat (length axs + 1)
                    < Z.of_nat (length axs + 1))) as [_|]; [|lia].
  replace (Z.to_nat (-1 + Z.of_nat (length axs + 1))) with (length axs + 0)%nat
    by lia.
  rewrite lookup_app_r by lia.
  replace (length axs + 0 - length axs)%nat with 0%nat by lia. simpl.
  unfold mret, result_ret. f_equal.
  rewrite insert_app_r. done.
Qed.

Lemma add_lines_nil (ax : Axes) : add_lines [] ax = ax.
Proof. destruct ax. unfold add_lines. simpl. by rewrite app_nil_r. Qed.

Lemma add_lines_app (l1 l2 : list Line2D) (ax : Axes) :
  add_lines l2 (add_lines l1 ax) = add_lines (l1 ++ l2) ax.
Proof. unfold add_lines. simpl. by rewrite app_assoc. Qed.

Lemma well_formed_series (item : string * gmap string (list value))
    (key : string) :
  well_formed item -> key ∈ log_keys ->
  exists series,
    item.2 !! key = Some series
    /\ length series = length (default [] (item.2 !! "cycle")).
Proof.
  intros [n Hn] Hkey.
  destruct (entry_length_lookup n _ key Hn Hkey) as (series & Hs & Hlen).
  destruct (entry_length_lookup n _ "cycle" Hn) as (cycles & Hc & Hlenc);
    [unfold log_keys; repeat constructor|].
  exists series. rewrite Hc. simpl. split; [done | lia].
Qed.

Lemma plot_speed_run (item : string * gmap string (list value)) (ax : Axes) :
  well_formed item ->
  plot_speed item ax = Done (add_lines (speed_curves item) ax).
Proof.
  intros Hwf. destruct item as [motor_id data].
  destruct (well_formed_series _ "cycle" Hwf) as (x & Hx & _);
    [unfold log_keys; repeat constructor|].
  destruct (well_formed_series _ "speed" Hwf) as (y & Hy & Hly);
    [unfold log_keys; repeat constructor|].
  destruct (well_formed_series _ "reference" Hwf) as (r & Hr & Hlr);
    [unfold log_keys; repeat constructor|].
  simpl in *. rewrite Hx in Hly, Hlr. simpl in Hly, Hlr.
  unfold plot_speed, speed_curves, dict_getitem, plot. simpl.
  rewrite Hx, Hy, Hr. simpl.
  rewrite (decide_True (P := length x = length y)) by lia. simpl.
  rewrite ?(decide_True (P := is_Some (Some r))) by (by eexists). simpl.
  rewrite (decide_True (P := length x = length r)) by lia.
  unfold add_lines. simpl. by rewrite <- app_assoc.
Qed.

Lemma plot_group_run (group : list (string * gmap string (list value)))
    (ax : Axes) :
  Forall well_formed group ->
  for_items plot_speed group ax = Done (add_lines (group ≫= speed_curves) ax).
Proof.
  intros Hwf. revert ax.
  induction Hwf as [|item group Hitem _ IH]; intros ax.
  - simpl. by rewrite add_lines_nil.
  - simpl for_items. rewrite (plot_speed_run item ax Hitem). simpl.
    rewrite IH, add_lines_app. reflexivity.
Qed.

Lemma draw_machine_run
    (groups : list (string * list (string * gmap string (list value))))
    (key : string) (group : list (string * gmap string (list value)))
    (done rest : list Axes) :
  items_get groups key = Some group -> Forall well_formed group ->
  draw_machine groups (Z.of_nat (length done)) key (done ++ Axes_init :: rest)
  = Done (done ++ speed_axes key group :: rest).
Proof.
  intros Hgroup Hwf. unfold draw_machine.
  rewrite list_getitem_nat, list_lookup_middle by done. simpl.
  unfold items_getitem. rewrite Hgroup. simpl.
  rewrite (plot_group_run group _ Hwf). simpl.
  rewrite axs_setitem_nat.
  replace (length done) with (length done + 0)%nat by lia.
  rewrite insert_app_r. simpl.
  unfold mret, result_ret. do 2 f_equal.
Qed.

(** The loop over the keys fills the free subplots in order, and fails
    on the first key that finds none left. *)
Lemma draw_machines_run
    (groups : list (string * list (string * gmap string (list value))))
    (keys : list string) (done : list Axes) (free : nat) :
  (forall key, key ∈ keys ->
     exists group, items_get groups key = Some group /\ Forall well_formed group) ->
  for_enumerate (draw_machine groups) (Z.of_nat (length done)) keys
    (done ++ replicate free Axes_init)
  = if decide (length keys <= free)%nat
    then Done (done
               ++ ((fun key => speed_axes key (default [] (items_get groups key)))
                     <$> keys)
               ++ replicate (free - length keys) Axes_init)
    else Failed (Builtin IndexError).
Proof.
  revert done free. induction keys as [|key keys IH]; intros done free Hkeys.
  - destruct (decide (length (@nil string) <= free)%nat) as [_ | Hgt];
      [|simpl in Hgt; lia].
    simpl. by rewrite Nat.sub_0_r.
  - destruct (Hkeys key ltac:(by left)) as (group & Hgroup & Hwf).
    simpl for_enumerate. destruct free as [|free].
    + destruct (decide (length (key :: keys) <= 0)%nat) as [Hle | _];
        [simpl in Hle; lia|].
      simpl. rewrite app_nil_r. unfold draw_machine.
      by rewrite list_getitem_nat, lookup_ge_None_2 by lia.
    + simpl replicate. rewrite (draw_machine_run groups key group) by done.
      simpl.
      replace (Z.of_nat (length done) + 1)
        with (Z.of_nat (length (done ++ [speed_axes key group])))
        by (rewrite length_app; simpl; lia).
      replace (done ++ speed_axes key group :: replicate free Axes_init)
        with ((done ++ [speed_axes key group]) ++ replicate free Axes_init)
        by (by rewrite <- app_assoc).
      rewrite IH by (intros k Hk; apply Hkeys; by right).
      simpl length. simpl fmap.
      destruct (decide (length keys <= free)%nat) as [Hle | Hgt];
        destruct (decide (S (length keys) <= S free)%nat) as [Hle' | Hgt'];
        try lia; [|done].
      rewrite Hgroup. simpl. by rewrite <- app_assoc.
Qed.

Lemma items_set_Forall {V} (Q : string * V -> Prop) (d : list (string * V))
    (k : string) (v : V) :
  Forall Q d -> Q (k, v) -> Forall Q (items_set d k v).
Proof.
  intros Hd Hv. induction Hd as [|[k' v'] d Hx Hd IH]; simpl.
  - by constructor.
  - destruct (decide (k' = k)); constructor; done.
Qed.

Lemma items_get_Forall {V} (Q : string * V -> Prop) (d : list (string * V))
    (k : string) (v : V) :
  Forall Q d -> items_get d k = Some v -> Q (k, v).
Proof.
  intros Hd Hv. apply items_get_elem in Hv.
  by apply (proj1 (Forall_forall Q d) Hd).
Qed.

(** The groups hold items of the log only. *)
Lemma group_by_machine_well_formed
    (motor_logs : list (string * gmap string (list value))) :
  Forall well_formed motor_logs ->
  Forall (fun group => Forall well_formed group.2) (group_by_machine motor_logs).
Proof.
  intros Hwf. unfold group_by_machine.
  assert (forall acc,
            Forall (fun group => Forall well_formed group.2) acc ->
            Forall (fun group => Forall well_formed group.2)
              (foldl group_motor acc motor_logs)) as Hgen.
  { induction Hwf as [|[motor_id data] items Hitem _ IH]; intros acc Hacc;
      [done|].
    simpl foldl. apply IH. unfold group_motor.
    destruct (machine_key motor_id) as [key|]; [|done].
    set (groups := if decide (is_Some (items_get acc key)) then acc
                   else items_set acc key []).
    assert (Forall (fun group => Forall well_formed group.2) groups) as Hgroups.
    { subst groups. destruct (decide (is_Some (items_get acc key))); [done|].
      apply items_set_Forall; [done|]. simpl. constructor. }
    apply items_set_Forall; [done|]. simpl.
    apply items_set_Forall; [|done].
    destruct (items_get groups key) as [group|] eqn:Hgroup; simpl; [|constructor].
    apply (items_get_Forall _ _ _ _ Hgroups Hgroup). }
  apply Hgen. constructor.
Qed.

Lemma label_last_axes_run (s : string) (axs : list Axes) :
  axs <> [] ->
  exists axs',
    label_last_axes s axs = Done axs'
    /\ length axs' = length axs
    /\ forall (i : nat) (ax : Axes),
         axs !! i = Some ax ->
         exists ax',
           axs' !! i = Some ax' /\ lines ax' = lines ax /\ title ax' = title ax
           /\ ylabel ax' = ylabel ax /\ legend ax' = legend ax
           /\ xlabel ax'
              = if decide (S i = length axs) then Some s else xlabel ax.
Proof.
  intros Hne. destruct (exists_last Hne) as (front & x & ->).
  rewrite label_last_axes_snoc. eexists. split; [done|].
  rewrite !length_app. split; [done|]. simpl length.
  intros i ax Hi. destruct (decide (i < length front)%nat) as [Hlt | Hge].
  - rewrite lookup_app_l in Hi by done. rewrite lookup_app_l by done.
    exists ax. rewrite decide_False by lia. done.
  - apply lookup_lt_Some in Hi as Hlen. rewrite length_app in Hlen.
    simpl in Hlen. assert (i = length front) as -> by lia.
    rewrite list_lookup_middle in Hi by done. injection Hi as <-.
    rewrite list_lookup_middle by done. eexists. split; [done|].
    rewrite decide_True by lia. done.
Qed.

(** What [get_speed_fig_by_machine] returns on a log of well-formed
    entries. *)
Lemma speed_fig_run
    (motor_logs : list (string * gmap string (list value))) :
  Forall well_formed motor_logs ->
  let groups := group_by_machine motor_logs in
  let keys := sorted groups.*1 in
  ((4 < length groups)%nat ->
   get_speed_fig_by_machine motor_logs = Failed (Builtin IndexError))
  /\ ((length groups <= 4)%nat ->
      exists fig,
        get_speed_fig_by_machine motor_logs = Done fig
        /\ length (axs fig) = 4%nat
        /\ forall (i : nat) (key : string),
             keys !! i = Some key ->
             exists group ax,
               items_get groups key = Some group
               /\ axs fig !! i = Some ax
               /\ lines ax = group ≫= speed_curves
               /\ title ax = Some key
               /\ ylabel ax = Some "Speed (RPM)"
               /\ legend ax = Some "upper right"
               /\ xlabel ax = if decide (i = 3%nat) then Some "Cycle" else None).
Proof.
  intros Hwf groups keys.
  assert (length keys = length groups) as Hlen.
  { subst keys. unfold sorted.
    by rewrite (Permutation_length (merge_sort_Permutation _ _)), length_fmap. }
  assert (forall key, key ∈ keys ->
            exists group,
              items_get groups key = Some group /\ Forall well_formed group)
    as Hkeys.
  { intros key Hkey. subst keys. unfold sorted in Hkey.
    rewrite merge_sort_Permutation in Hkey.
    destruct (items_get_Some _ _ Hkey) as [group Hgroup]. exists group.
    split; [done|].
    apply (items_get_Forall _ _ _ _
             (group_by_machine_well_formed motor_logs Hwf) Hgroup). }
  pose proof (draw_machines_run groups keys [] 4 Hkeys) as Hloop.
  unfold get_speed_fig_by_machine. fold groups. fold keys.
  change (subplots 2 2) with ([] ++ replicate 4 Axes_init).
  change 0 with (Z.of_nat (length (@nil Axes))).
  rewrite Hloop, Hlen. split.
  - intros Hmany. by rewrite decide_False by lia.
  - intros Hfew. rewrite decide_True by done. simpl app.
    set (drawn_axes :=
           ((fun key => speed_axes key (default [] (items_get groups key)))
              <$> keys) ++ replicate (4 - length groups) Axes_init).
    assert (length drawn_axes = 4%nat) as Hfour.
    { subst drawn_axes. rewrite length_app, length_fmap, length_replicate. lia. }
    destruct (label_last_axes_run "Cycle" drawn_axes) as (axs' & Hlast & Hlen' & Hlook).
    { intros Hnil. by rewrite Hnil in Hfour. }
    simpl. rewrite Hlast. simpl. eexists. split; [reflexivity|].
    simpl. split; [lia|].
    intros i key Hi. destruct (Hkeys key) as (group & Hgroup & _).
    { by eapply list_elem_of_lookup_2. }
    destruct (Hlook i (speed_axes key group)) as (ax' & Hax' & H1 & H2 & H3 & H4 & H5).
    { subst drawn_axes. rewrite lookup_app_l
        by (rewrite length_fmap; by eapply lookup_lt_Some).
      rewrite list_lookup_fmap, Hi. simpl. by rewrite Hgroup. }
    exists group, ax'. rewrite H1, H2, H3, H4, H5, Hfour. simpl.
    repeat (split; [done|]).
    destruct (decide (S i = 4%nat)), (decide (i = 3%nat)); done || lia.
Qed.

(** X13: on a log whose entries each hold the seven sequences, all of
    one length, [get_speed_fig_by_machine] raises [IndexError] when the
    motors fall into more than four groups; otherwise it returns a
    figure of four subplots in which the group of the [i]-th key, in
    sorted order, is drawn on the [i]-th subplot: for each motor of the
    group, in the order of the log, its speed curve and its dashed gray
    reference curve, with the key as title, the y label "Speed (RPM)"
    and a legend; the last subplot alone has the x label "Cycle". *)
Theorem speed_fig_by_machine
    (motor_logs : list (string * gmap string (list value))) :
  Forall well_formed motor_logs ->
  let groups := group_by_machine motor_logs in
  let keys := sorted groups.*1 in
  ((4 < length groups)%nat ->
   get_speed_fig_by_machine motor_logs = Failed (Builtin IndexError))
  /\ ((length groups <= 4)%nat ->
      exists fig,
        get_speed_fig_by_machine motor_logs = Done fig
        /\ length (axs fig) = 4%nat
        /\ forall (i : nat) (key : string),
             keys !! i = Some key ->
             exists group ax,
               items_get groups key = Some group
               /\ axs fig !! i = Some ax
               /\ lines ax = group ≫= speed_curves
               /\ title ax = Some key
               /\ ylabel ax = Some "Speed (RPM)"
               /\ legend ax = Some "upper right"
               /\ xlabel ax = if decide (i = 3%nat) then Some "Cycle" else None).
Proof. apply speed_fig_run. Qed.

Lemma insert_middle {A} (l1 l2 : list A) (x y : A) :
  <[length l1 := y]> (l1 ++ x :: l2) = l1 ++ y :: l2.
Proof.
  replace (length l1) with (length l1 + 0)%nat by lia.
  by rewrite insert_app_r.
Qed.

Lemma plot_metric_run (i : nat) (metric : string)
    (item : string * gmap string (list value)) (axs : list Axes) (ax : Axes) :
  well_formed item -> metric ∈ log_keys -> axs !! i = Some ax ->
  plot_metric (Z.of_nat i) metric item axs
  = Done (<[i := add_lines [metric_curve metric item] ax]> axs).
Proof.
  intros Hwf Hmetric Hax. destruct item as [motor_id data].
  destruct (well_formed_series _ "cycle" Hwf) as (x & Hx & _);
    [unfold log_keys; repeat constructor|].
  destruct (well_formed_series _ metric Hwf Hmetric) as (y & Hy & Hly).
  simpl in *. rewrite Hx in Hly. simpl in Hly.
  unfold plot_metric, metric_curve, dict_getitem, plot.
  rewrite list_getitem_nat, Hax. simpl. rewrite Hx, Hy. simpl.
  rewrite (decide_True (P := length x = length y)) by lia. simpl.
  by rewrite axs_setitem_nat.
Qed.

Lemma plot_metrics_run (i : nat) (metric : string)
    (motor_logs : list (string * gmap string (list value)))
    (axs : list Axes) (ax : Axes) :
  Forall well_formed motor_logs -> metric ∈ log_keys -> axs !! i = Some ax ->
  for_items (plot_metric (Z.of_nat i) metric) motor_logs axs
  = Done (<[i := add_lines (metric_curve metric <$> motor_logs) ax]> axs).
Proof.
  intros Hwf Hmetric. revert axs ax.
  induction Hwf as [|item items Hitem _ IH]; intros axs ax Hax.
  - simpl. rewrite add_lines_nil. by rewrite list_insert_id.
  - simpl for_items. rewrite (plot_metric_run i metric item axs ax) by done.
    simpl. erewrite IH.
    2:{ apply list_lookup_insert_eq. by eapply lookup_lt_Some. }
    rewrite list_insert_insert_eq, add_lines_app. reflexivity.
Qed.

Lemma draw_metric_run (i : nat) (metric : string)
    (motor_logs : list (string * gmap string (list value)))
    (done rest : list Axes) :
  Forall well_formed motor_logs -> metric ∈ log_keys -> i = length done ->
  draw_metric motor_logs (Z.of_nat i) metric (done ++ Axes_init :: rest)
  = Done (done ++ metric_axes metric motor_logs :: rest).
Proof.
  intros Hwf Hmetric ->. unfold draw_metric.
  rewrite (plot_metrics_run _ metric motor_logs _ Axes_init)
    by (done || by apply list_lookup_middle).
  simpl. rewrite insert_middle, list_getitem_nat, list_lookup_middle by done.
  simpl. rewrite !axs_setitem_nat, !insert_middle.
  rewrite list_getitem_nat, list_lookup_middle by done. simpl.
  rewrite axs_setitem_nat, insert_middle. reflexivity.
Qed.

(** What [get_metrics_fig] returns on a log of well-formed entries. *)
Lemma metrics_fig_run
    (motor_logs : list (string * gmap string (list value))) :
  Forall well_formed motor_logs ->
  get_metrics_fig motor_logs
  = Done {| axs := [ metric_axes "temperature" motor_logs;
                     metric_axes "efficiency" motor_logs;
                     metric_axes "current" motor_logs;
                     set_xlabel "Cycle" (metric_axes "torque" motor_logs) ];
            tight_layout := true |}.
Proof.
  intros Hwf. unfold get_metrics_fig. cbv zeta.
  change (subplots 2 2) with [Axes_init; Axes_init; Axes_init; Axes_init].
  assert (forall metric, metric ∈ ["temperature"; "efficiency"; "current"; "torque"] ->
            metric ∈ log_keys) as Hkeys.
  { intros metric Hm. unfold log_keys.
    repeat (apply elem_of_cons in Hm as [-> | Hm];
            [repeat (constructor; try done)|]).
    by apply elem_of_nil in Hm. }
  cbn [for_enumerate].
  rewrite (draw_metric_run 0 "temperature" motor_logs [] _ Hwf
             ltac:(apply Hkeys; repeat constructor) eq_refl
           : draw_metric motor_logs 0 "temperature"
               [Axes_init; Axes_init; Axes_init; Axes_init]
             = Done [metric_axes "temperature" motor_logs;
                     Axes_init; Axes_init; Axes_init]).
  cbn [mbind result_bind].
  rewrite (draw_metric_run 1 "efficiency" motor_logs [_] _ Hwf
             ltac:(apply Hkeys; repeat constructor) eq_refl
           : draw_metric motor_logs (0 + 1) "efficiency"
               [metric_axes "temperature" motor_logs;
                Axes_init; Axes_init; Axes_init]
             = Done [metric_axes "temperature" motor_logs;
                     metric_axes "efficiency" motor_logs;
                     Axes_init; Axes_init]).
  cbn [mbind result_bind].
  rewrite (draw_metric_run 2 "current" motor_logs [_; _] _ Hwf
             ltac:(apply Hkeys; repeat constructor) eq_refl
           : draw_metric motor_logs (0 + 1 + 1) "current"
               [metric_axes "temperature" motor_logs;
                metric_axes "efficiency" motor_logs;
                Axes_init; Axes_init]
             = Done [metric_axes "temperature" motor_logs;
                     metric_axes "efficiency" motor_logs;
                     metric_axes "current" motor_logs;
                     Axes_init]).
  cbn [mbind result_bind].
  rewrite (draw_metric_run 3 "torque" motor_logs [_; _; _] _ Hwf
             ltac:(apply Hkeys; repeat constructor) eq_refl
           : draw_metric motor_logs (0 + 1 + 1 + 1) "torque"
               [metric_axes "temperature" motor_logs;
                metric_axes "efficiency" motor_logs;
                metric_axes "current" motor_logs;
                Axes_init]
             = Done [metric_axes "temperature" motor_logs;
                     metric_axes "efficiency" motor_logs;
                     metric_axes "current" motor_logs;
                     metric_axes "torque" motor_logs]).
  cbn [mbind result_bind mret result_ret].
  rewrite (label_last_axes_snoc "Cycle"
             [metric_axes "temperature" motor_logs;
              metric_axes "efficiency" motor_logs;
              metric_axes "current" motor_logs]
             (metric_axes "torque" motor_logs)
           : label_last_axes "Cycle"
               [metric_axes "temperature" motor_logs;
                metric_axes "efficiency" motor_logs;
                metric_axes "current" motor_logs;
                metric_axes "torque" motor_logs] = _).
  reflexivity.
Qed.

(** X14: on a log whose entries each hold the seven sequences, all of
    one length, [get_metrics_fig] returns, whatever the number of
    motors, a figure of four subplots, for the temperature, the
    efficiency, the current and the torque in this order: each holds
    one curve for each motor, in the order of the log, labelled with
    the motor's identity, has the capitalized metric as y label and a
    legend, and the last one alone has the x label "Cycle". *)
Theorem metrics_fig_curves
    (motor_logs : list (string * gmap string (list value))) :
  Forall well_formed motor_logs ->
  get_metrics_fig motor_logs
  = Done {| axs := [ metric_axes "temperature" motor_logs;
                     metric_axes "efficiency" motor_logs;
                     metric_axes "current" motor_logs;
                     set_xlabel "Cycle" (metric_axes "torque" motor_logs) ];
            tight_layout := true |}.
Proof. apply metrics_fig_run. Qed.

(** *** The status table *)

Lemma list_getitem_last {A} (l : list A) (x : A) :
  last l = Some x -> list_getitem l (-1) = Ok x.
Proof.
  intros Hlast. unfold list_getitem.
  rewrite last_lookup in Hlast. apply lookup_lt_Some in Hlast as Hlen.
  destruct (decide (-1 < 0)) as [_|]; [|lia].
  destruct (decide (0 <= -1 + Z.of_nat (length l) < Z.of_nat (length l)))
    as [_|]; [|lia].
  replace (Z.to_nat (-1 + Z.of_nat (length l))) with (pred (length l)) by lia.
  by rewrite Hlast.
Qed.

Lemma latest_getitem (data : gmap string (list value)) (key : string) (n : nat) :
  entry_length (S n) data -> key ∈ log_keys ->
  exists v,
    latest data key = Some v
    /\ (series ← dict_getitem data key; list_getitem series (-1)) = Ok v.
Proof.
  intros Hn Hkey.
  destruct (entry_length_lookup _ _ key Hn Hkey) as (series & Hs & Hlen).
  destruct (last series) as [v|] eqn:Hlast.
  - exists v. unfold latest, dict_getitem. rewrite Hs. simpl.
    split; [done | by apply list_getitem_last].
  - apply last_None in Hlast. by rewrite Hlast in Hlen.
Qed.

Lemma table_row_run (item : string * gmap string (list value)) (n : nat) :
  entry_length (S n) item.2 -> table_row item = Done (latest_row item).
Proof.
  intros Hn. destruct item as [motor_id data]. simpl in Hn.
  unfold table_row, latest_row. cbv zeta.
  destruct (latest_getitem data "cycle" n Hn) as (v1 & L1 & G1);
    [unfold log_keys; repeat constructor|].
  destruct (latest_getitem data "speed" n Hn) as (v2 & L2 & G2);
    [unfold log_keys; repeat constructor|].
  destruct (latest_getitem data "temperature" n Hn) as (v3 & L3 & G3);
    [unfold log_keys; repeat constructor|].
  destruct (latest_getitem data "efficiency" n Hn) as (v4 & L4 & G4);
    [unfold log_keys; repeat constructor|].
  destruct (latest_getitem data "current" n Hn) as (v5 & L5 & G5);
    [unfold log_keys; repeat constructor|].
  destruct (latest_getitem data "torque" n Hn) as (v6 & L6 & G6);
    [unfold log_keys; repeat constructor|].
  destruct (latest_getitem data "reference" n Hn) as (v7 & L7 & G7);
    [unfold log_keys; repeat constructor|].
  rewrite G1, G2, G3, G4, G5, G6, G7.
  cbn [builtin mbind result_bind mret result_ret fst snd].
  by rewrite L1, L2, L3, L4, L5, L6, L7.
Qed.

Lemma table_row_empty (item : string * gmap string (list value)) :
  entry_length 0 item.2 -> table_row item = Failed (Builtin IndexError).
Proof.
  intros Hn. destruct item as [motor_id data]. simpl in Hn.
  unfold table_row. cbv zeta.
  destruct (entry_length_lookup _ _ "cycle" Hn) as (series & Hs & Hlen);
    [unfold log_keys; repeat constructor|].
  apply nil_length_inv in Hlen as ->.
  unfold dict_getitem. rewrite Hs. reflexivity.
Qed.

Lemma table_rows_run (motor_logs : list (string * gmap string (list value)))
    (rows : list (gmap string value)) :
  Forall (fun item => exists n, entry_length (S n) item.2) motor_logs ->
  for_items (fun item rows => row ← table_row item; mret (rows ++ [row]))
    motor_logs rows
  = Done (rows ++ (latest_row <$> motor_logs)).
Proof.
  intros Hall. revert rows.
  induction Hall as [|item items [n Hn] _ IH]; intros rows.
  - simpl. by rewrite app_nil_r.
  - simpl for_items. rewrite (table_row_run item n Hn). simpl.
    rewrite IH. by rewrite <- app_assoc.
Qed.

(** X15: the table of the driver has one row for each motor of the
    log, in the order of the log, holding the identity and the last
    element of each of the seven sequences, when every entry holds at
    least one sample; the first entry whose sequences are empty makes
    it raise [IndexError]. *)
Theorem table_data_latest
    (motor_logs : list (string * gmap string (list value))) :
  (Forall (fun item => exists n, entry_length (S n) item.2) motor_logs ->
   table_data motor_logs = Done (latest_row <$> motor_logs))
  /\ (forall before item after,
        motor_logs = before ++ item :: after ->
        Forall (fun item => exists n, entry_length (S n) item.2) before ->
        entry_length 0 item.2 ->
        table_data motor_logs = Failed (Builtin IndexError)).
Proof.
  split.
  - intros Hall. unfold table_data. by rewrite table_rows_run.
  - intros before item after -> Hbefore Hitem. unfold table_data.
    assert (forall rows,
              for_items
                (fun item rows => row ← table_row item; mret (rows ++ [row]))
                (before ++ item :: after) rows
              = Failed (Builtin IndexError)) as Hgen.
    { induction Hbefore as [|x before [n Hn] _ IH]; intros rows.
      - simpl. by rewrite (table_row_empty item Hitem).
      - simpl. rewrite (table_row_run x n Hn). simpl. apply IH. }
    apply Hgen.
Qed.

(** *** The driver with its display *)

Lemma logs_items_present (order : list string)
    (logs : gmap string (gmap string (list value))) :
  (forall id, id ∈ order -> is_Some (logs !! id)) ->
  logs_items order logs
  = (fun id => (id, default ∅ (logs !! id))) <$> order.
Proof.
  intros Hall. unfold logs_items.
  induction order as [|id order IH]; [done|]. simpl.
  destruct (Hall id ltac:(by left)) as [entry Hentry]. rewrite Hentry. simpl.
  f_equal. apply IH. intros id' Hid'. apply Hall. by right.
Qed.

(** The items of a log in which each of [ids] has [S n] samples. *)
Lemma logs_items_uniform (ids : list string) (n : nat)
    (logs : gmap string (gmap string (list value))) :
  logs_shape logs (uniform_shape (S n) ids) ->
  logs_items ids logs = (fun id => (id, default ∅ (logs !! id))) <$> ids
  /\ Forall (fun item => entry_length (S n) item.2) (logs_items ids logs).
Proof.
  intros Hshape.
  assert (forall id, id ∈ ids ->
            exists entry, logs !! id = Some entry /\ entry_length (S n) entry)
    as Hall.
  { intros id Hid. pose proof (Hshape id) as Hentry.
    rewrite uniform_shape_lookup, decide_True in Hentry by done.
    destruct (logs !! id) as [entry|]; [by exists entry | done]. }
  rewrite logs_items_present
    by (intros id Hid; destruct (Hall id Hid) as (e & -> & _); by eexists).
  split; [done|]. apply Forall_fmap, Forall_forall. intros id Hid. simpl.
  by destruct (Hall id Hid) as (e & -> & He).
Qed.

Section Display.

Context {R : Rounding}.

Variable hash : string -> Z.

(** The machines of a factory, by line index and machine index. *)
Lemma factory_motor_ids_pairs (factory_name : string)
    (num_lines machines_per_line : Z) :
  factory_motor_ids (Factory_init factory_name num_lines machines_per_line)
  = (range num_lines ≫= (fun i => (fun j => (i, j)) <$> range machines_per_line))
    ≫= (fun p => [motor_name p.1 p.2 "_DC"; motor_name p.1 p.2 "_AC"]).
Proof.
  rewrite factory_motor_ids_init.
  induction (range num_lines) as [|i is_ IH]; [done|].
  rewrite !bind_cons, bind_app, IH. f_equal.
  by rewrite list_fmap_bind.
Qed.

Lemma machine_pairs_NoDup (num_lines machines_per_line : Z) :
  NoDup (range num_lines
           ≫= (fun i => (fun j => (i, j)) <$> range machines_per_line)).
Proof.
  apply NoDup_bind; [| | apply NoDup_seqZ].
  - intros i i' p _ _ Hp Hp'.
    apply list_elem_of_fmap in Hp as (j & -> & _).
    apply list_elem_of_fmap in Hp' as (j' & [= ->] & _). done.
  - intros i _. apply NoDup_fmap_2; [|apply NoDup_seqZ].
    by intros j j' [= ->].
Qed.

Lemma machine_pairs_length (num_lines machines_per_line : Z) :
  length (range num_lines
            ≫= (fun i => (fun j => (i, j)) <$> range machines_per_line))
  = (Z.to_nat num_lines * Z.to_nat machines_per_line)%nat.
Proof.
  rewrite (length_bind_const _ _ (Z.to_nat machines_per_line)).
  - unfold range, range2. rewrite length_seqZ. f_equal. lia.
  - intros i. rewrite length_fmap. unfold range, range2.
    rewrite length_seqZ. lia.
Qed.

(** The groups of the log of a factory: one for each machine, in the
    order of the machines, with the DC motor before the AC motor. *)
Lemma factory_groups (factory_name : string) (num_lines machines_per_line : Z)
    (data : string -> gmap string (list value)) :
  let ids :=
    factory_motor_ids (Factory_init factory_name num_lines machines_per_line) in
  group_by_machine ((fun id => (id, data id)) <$> ids)
  = (fun p =>
       (machine_title p.1 p.2,
        [ (motor_name p.1 p.2 "_DC", data (motor_name p.1 p.2 "_DC"));
          (motor_name p.1 p.2 "_AC", data (motor_name p.1 p.2 "_AC")) ]))
      <$> (range num_lines
             ≫= (fun i => (fun j => (i, j)) <$> range machines_per_line)).
Proof.
  intros ids. subst ids. rewrite factory_motor_ids_pairs.
  set (pairs := range num_lines ≫= _).
  rewrite <- (group_by_machine_pairs
                (fun p => machine_title p.1 p.2)
                (fun p => motor_name p.1 p.2 "_DC")
                (fun p => motor_name p.1 p.2 "_AC")
                (fun p => data (motor_name p.1 p.2 "_DC"))
                (fun p => data (motor_name p.1 p.2 "_AC")) pairs).
  - f_equal. induction pairs as [|p ps IH]; [done|].
    by rewrite !bind_cons, fmap_app, IH.
  - intros p _. split; [|split].
    + apply machine_key_motor_name. by left.
    + apply machine_key_motor_name. by right; left.
    + intros Heq. apply motor_name_inj in Heq as (_ & _ & ?);
        [done | by left | by right; left].
  - apply NoDup_fmap_2; [|apply machine_pairs_NoDup].
    intros [i j] [i' j'] Heq. simpl in Heq.
    apply machine_title_inj in Heq as [-> ->]. done.
Qed.

(** One redraw of the page, on the log of a factory in which every
    motor has at least one sample. *)
Lemma show_factory (name : string) (num_lines machines_per_line : Z)
    (logs : gmap string (gmap string (list value))) (n : nat) (screen : Screen) :
  let ids :=
    factory_motor_ids (Factory_init name num_lines machines_per_line) in
  let items := logs_items ids logs in
  logs_shape logs (uniform_shape (S n) ids) ->
  ((4 < Z.to_nat num_lines * Z.to_nat machines_per_line)%nat ->
   show items screen = Failed (Builtin IndexError))
  /\ ((Z.to_nat num_lines * Z.to_nat machines_per_line <= 4)%nat ->
      exists fig1 fig2,
        get_speed_fig_by_machine items = Done fig1
        /\ get_metrics_fig items = Done fig2
        /\ show items screen
           = Done {| speed_fig_placeholder := Some fig1;
                     metrics_fig_placeholder := Some fig2;
                     table_placeholder := Some (latest_row <$> items) |}).
Proof.
  intros ids items Hshape.
  destruct (logs_items_uniform ids n logs Hshape) as [Hitems Hall].
  fold items in Hitems, Hall.
  assert (Forall well_formed items) as Hwf.
  { eapply Forall_impl; [exact Hall|]. intros item Hn. by exists (S n). }
  assert (length (group_by_machine items)
          = (Z.to_nat num_lines * Z.to_nat machines_per_line)%nat) as Hgroups.
  { rewrite Hitems. subst ids. rewrite factory_groups.
    by rewrite length_fmap, machine_pairs_length. }
  destruct (speed_fig_run items Hwf) as [Hmany Hfew]. cbv zeta in Hmany, Hfew.
  rewrite Hgroups in Hmany, Hfew. unfold show. split.
  - intros H. by rewrite (Hmany H).
  - intros H. destruct (Hfew H) as (fig1 & Hfig1 & _).
    exists fig1. eexists. split; [exact Hfig1|].
    split; [by apply metrics_fig_run|].
    rewrite Hfig1, (metrics_fig_run items Hwf). simpl.
    unfold table_data. rewrite table_rows_run.
    + reflexivity.
    + eapply Forall_impl; [exact Hall|]. intros item Hn. by exists n.
Qed.


(** X16: with more than four machines in the factory and at least one
    cycle to run, the driver raises [IndexError]: the first cycle
    updates every line, and the redraw of the speed figure that follows
    finds no fifth subplot. *)
Theorem start_simulation_crashes
    (num_lines machines_per_line total_cycles : Z) (st : Store) :
  0 <= num_lines -> 4 < num_lines * machines_per_line -> 0 < total_cycles ->
  start_simulation hash num_lines machines_per_line total_cycles st
  = Failed (Builtin IndexError).
Proof.
  intros Hlines Hmany Hcycles. unfold start_simulation. cbv zeta.
  unfold range2. rewrite seqZ_cons by lia.
  set (f0 := Factory_init "Smart Information Model Factory"
               num_lines machines_per_line).
  destruct (factory_cycle_exact hash 1 f0 (set_motor_logs ∅ st)
              (uniform_shape 0 (factory_motor_ids f0)))
    as (lines & st1 & Hrun & Hrel & _ & _ & Hshape1).
  { intros id. simpl. by rewrite !lookup_empty. }
  { apply factory_motor_ids_NoDup. }
  rewrite bumps_uniform in Hshape1 by apply factory_motor_ids_NoDup.
  cbn [display_loop]. rewrite Hrun. cbn [builtin mbind result_bind].
  rewrite (factory_related_ids _ _ _ (machine_cycle_ids hash 1) Hrel).
  destruct (show_factory "Smart Information Model Factory"
              num_lines machines_per_line (motor_logs st1) 0
              {| speed_fig_placeholder := None; metrics_fig_placeholder := None;
                 table_placeholder := None |} Hshape1) as [Hshow _].
  fold f0 in Hshow. rewrite Hshow; [done|]. nia.
Qed.



End Display.

(** X12: the identity of the DC or of the AC motor of machine [j] of
    the line built at index [i] splits at its underscores into the four
    parts "Line", [i + 1], "M" followed by [j], and "DC" or "AC"; both
    motors get the key "Line <i + 1> - M<j>", which no other machine
    gets; and a motor whose identity has no underscore is left out of
    the groups, whatever its data. *)
Theorem motor_ids_grouping (i j : Z) :
  str_split "_" (motor_name i j "_DC")
  = ["Line"; str (i + 1); "M" +:+ str j; "DC"]
  /\ str_split "_" (motor_name i j "_AC")
     = ["Line"; str (i + 1); "M" +:+ str j; "AC"]
  /\ machine_key (motor_name i j "_DC") = Some (machine_title i j)
  /\ machine_key (motor_name i j "_AC") = Some (machine_title i j)
  /\ (forall i' j' : Z,
        machine_title i' j' = machine_title i j -> i' = i /\ j' = j)
  /\ (forall (motor_id : string) (data : gmap string (list value))
             (groups : list (string * list (string * gmap string (list value)))),
        has_char "_" motor_id = false ->
        group_motor groups (motor_id, data) = groups).
Proof.
  split; [by apply str_split_motor_name|].
  split; [by apply str_split_motor_name|].
  split; [apply machine_key_motor_name; by left|].
  split; [apply machine_key_motor_name; by right; left|].
  split; [intros i' j'; apply machine_title_inj|].
  intros motor_id data groups Hid.
  by apply group_motor_skip, machine_key_no_underscore.
Qed.

Lemma entry_sample_length (n : nat) (v1 v2 v3 v4 v5 v6 v7 : value)
    (entry : gmap string (list value)) :
  entry_length n entry ->
  entry_length (S n) (entry_sample v1 v2 v3 v4 v5 v6 v7 entry).
Proof.
  intros Hentry. unfold entry_sample. cbv zeta.
  destruct (entry_length_lookup _ entry "cycle" Hentry) as (s1 & H1 & _);
    [unfold log_keys; repeat constructor|].
  destruct (entry_length_lookup _ entry "speed" Hentry) as (s2 & H2 & _);
    [unfold log_keys; repeat constructor|].
  destruct (entry_length_lookup _ entry "temperature" Hentry) as (s3 & H3 & _);
    [unfold log_keys; repeat constructor|].
  destruct (entry_length_lookup _ entry "efficiency" Hentry) as (s4 & H4 & _);
    [unfold log_keys; repeat constructor|].
  destruct (entry_length_lookup _ entry "current" Hentry) as (s5 & H5 & _);
    [unfold log_keys; repeat constructor|].
  destruct (entry_length_lookup _ entry "torque" Hentry) as (s6 & H6 & _);
    [unfold log_keys; repeat constructor|].
  destruct (entry_length_lookup _ entry "reference" Hentry) as (s7 & H7 & _);
    [unfold log_keys; repeat constructor|].
  rewrite H1, H2, H3, H4, H5, H6, H7. simpl.
  by apply entry_length_appended.
Qed.


Section FactoryFigure.

Context {R : Rounding}.


Variable hash : string -> Z.


End FactoryFigure.

(** Witnesses *)

Lemma speed_fig_by_machine_witness :
  let entry :=
    entry_sample (Int 1) (Float 150) (Float 25) (Float 92) (Float 10)
      (Float 5) (Int 1079) new_log_entry in
  let motor_logs := [("Line_1_M0_DC", entry); ("Line_1_M0_AC", entry)] in
  let groups := group_by_machine motor_logs in
  let keys := sorted groups.*1 in
  exists fig,
    get_speed_fig_by_machine motor_logs = Done fig
    /\ length (axs fig) = 4%nat
    /\ forall (i : nat) (key : string),
         keys !! i = Some key ->
         exists group ax,
           items_get groups key = Some group
           /\ axs fig !! i = Some ax
           /\ lines ax = group ≫= speed_curves
           /\ title ax = Some key
           /\ ylabel ax = Some "Speed (RPM)"
           /\ legend ax = Some "upper right"
           /\ xlabel ax = if decide (i = 3%nat) then Some "Cycle" else None.
Proof.
  intros entry motor_logs groups keys.
  apply (proj2 (speed_fig_by_machine motor_logs
                  ltac:(repeat constructor; exists 1%nat;
                        apply entry_sample_length, entry_length_new))).
  vm_compute. lia.
Defined.

Lemma metrics_fig_curves_witness :
  let entry :=
    entry_sample (Int 1) (Float 150) (Float 25) (Float 92) (Float 10)
      (Float 5) (Int 1079) new_log_entry in
  let motor_logs := [("Line_1_M0_DC", entry); ("Line_1_M0_AC", entry)] in
  get_metrics_fig motor_logs
  = Done {| axs := [ metric_axes "temperature" motor_logs;
                     metric_axes "efficiency" motor_logs;
                     metric_axes "current" motor_logs;
                     set_xlabel "Cycle" (metric_axes "torque" motor_logs) ];
            tight_layout := true |}.
Proof.
  intros entry motor_logs.
  apply (metrics_fig_curves motor_logs).
  repeat constructor; exists 1%nat; apply entry_sample_length, entry_length_new.
Defined.

Lemma start_simulation_crashes_witness :
  start_simulation (R := binary64) sample_hash 5 1 3
    {| random_state := sample_random; motor_logs := ∅ |}
  = Failed (Builtin IndexError).
Proof.
  apply (start_simulation_crashes (R := binary64) sample_hash 5 1 3); lia.
Defined.


